(** * Event segmentation of arterial-pressure tracks

    A shallow embedding of [extract_segments], [areCaseSegmentsCached] and
    [saveCaseSegments] of [preprocess_extract_segments.py]: the four passes
    that turn one case's arterial track into IOH events, clean windows and
    positive / negative one-minute segments, and the loop over cases that
    persists them; and of the code that prepares the files before:
    [vitaldb_dataframe_loader], the download and conversion loops, and
    [get_track_data].

    Modelling choices.
    - Seconds, cursors and interval bounds are Python integers: [Z].
    - A sample is a real number or NaN.  Reals are modelled by rationals
      ([Q]); NaN is [None].  [np.nanmean] averages the non-NaN samples of
      a slice and is NaN when there is none; every comparison with NaN is
      false.
    - The loop variable [j] of the recovery search is a local of
      [extract_segments]; it may be unbound, and a read of an unbound local
      raises [UnboundLocalError].  It is therefore carried as [option Z]
      through the passes and from one case to the next.
    - [while] loops whose cursor jumps are iterated with fuel; the theorems
      show that the fuel handed out by the callers is always enough. *)

From Stdlib Require Import Ascii String DecimalString DecimalZ DecimalN DecimalPos.
From Stdlib Require Import ZArith QArith List Lia Bool Sorted.
From stdpp Require Import base option list strings gmap.
Import ListNotations.

Local Open Scope Z_scope.

(** ** Samples, slices and window means *)

(** A sample of a track: [Some q] is the number [q], [None] is NaN. *)
Definition sample : Type := option Q.

(** Sampling rate for ABP and ECG, Hz (line 298). *)
Definition ABP_ECG_SRATE_HZ : Z := 500.

(** [np.nanmean] returns a float that may be NaN; same encoding. *)
Definition mean : Type := option Q.

(** Sum and number of the non-NaN samples. *)
Fixpoint nansum (l : list sample) : Q :=
  match l with
  | [] => 0%Q
  | Some q :: l' => (q + nansum l')%Q
  | None :: l' => nansum l'
  end.

Fixpoint nancount (l : list sample) : nat :=
  match l with
  | [] => O
  | Some _ :: l' => S (nancount l')
  | None :: l' => nancount l'
  end.

(** [np.nanmean(l)]: mean of the non-NaN entries, NaN for an empty or
    all-NaN slice. *)
Definition nanmean (l : list sample) : mean :=
  match nancount l with
  | O => None
  | S _ => Some (nansum l / inject_Z (Z.of_nat (nancount l)))%Q
  end.

(** [m >= t] and [m < t] on floats: both are false when [m] is NaN. *)
Definition mean_ge (m : mean) (t : Q) : bool :=
  match m with
  | Some q => Qle_bool t q
  | None => false
  end.

Definition mean_lt (m : mean) (t : Q) : bool :=
  match m with
  | Some q => negb (Qle_bool t q)
  | None => false
  end.

(** Python's normalisation of a slice bound [k] for a sequence of length
    [len]: negative bounds count from the end, and everything is clamped
    to [0, len]. *)
Definition slice_bound (len k : Z) : Z :=
  if k <? 0 then Z.max 0 (k + len) else Z.min k len.

(** [l[a:b]]. *)
Definition py_slice {A : Type} (l : list A) (a b : Z) : list A :=
  let len := Z.of_nat (length l) in
  let a' := slice_bound len a in
  let b' := slice_bound len b in
  firstn (Z.to_nat (b' - a')) (skipn (Z.to_nat a') l).

(** [int(len(abp) / ABP_ECG_SRATE_HZ)] (line 334). *)
Definition track_length_seconds (abp : list sample) : Z :=
  Z.of_nat (length abp) / ABP_ECG_SRATE_HZ.

(** [np.nanmean(abp[a * ABP_ECG_SRATE_HZ : b * ABP_ECG_SRATE_HZ])]: the
    only way in which the passes read the track. *)
Definition window_mean (abp : list sample) (a b : Z) : mean :=
  nanmean (py_slice abp (a * ABP_ECG_SRATE_HZ) (b * ABP_ECG_SRATE_HZ)).

(** ** Intervals *)

(** An interval [(start, end)] in seconds. *)
Definition interval : Type := Z * Z.

(** The overlap test, written out three times in the source (lines
    407-417, 436-446 and 489-496) with the window as [a] and the IOH event
    as [b]: [a] starts during [b], or [a] ends during [b], or [b] lies
    strictly inside [a]. *)
Definition overlaps (a b : interval) : bool :=
  if (b.1 <=? a.1) && (a.1 <? b.2) then true
  else if (b.1 <=? a.2) && (a.2 <? b.2) then true
  else if (a.1 <? b.1) && (b.2 <? a.2) then true
  else false.

(** Two half-open intervals [[a.1, a.2)] and [[b.1, b.2)] share a second. *)
Definition intersects (a b : interval) : Prop :=
  exists t, a.1 <= t < a.2 /\ b.1 <= t < b.2.

(** The [for event in iohEvents] loop of lines 403-417 (and 432-446):
    [latestEnd] is the end of the last overlapping event of the list,
    [None] when [overlapFound] stays [False]. *)
Definition scan_overlap (w : interval) (iohEvents : list interval) : option Z :=
  fold_left (fun latestEnd event =>
               if overlaps w event then Some event.2 else latestEnd)
            iohEvents None.

(** ** Control flow *)

(** What one run of a loop body does to the loop. *)
Inductive flow (S : Type) : Type :=
| Continue (s : S)
| Break (s : S).
Arguments Continue {S} s.
Arguments Break {S} s.

(** How a computation over a case ends: with a value, with the
    [UnboundLocalError] of a read of the unbound local [j], or (for the
    fuelled loops) without an answer. *)
Inductive outcome (A : Type) : Type :=
| Done (a : A)
| UnboundLocalError
| OutOfFuel.
Arguments Done {A} a.
Arguments UnboundLocalError {A}.
Arguments OutOfFuel {A}.

(** ** The passes over one case

    The passes are written over the track length in seconds and the window
    mean of the track. *)

Section Passes.

Variable tls : Z.
Variable wmean : Z -> Z -> mean.

(** *** First pass: IOH events *)

(** The [for j in range(lo, hi)] loop of lines 364-369 with [n] values left
    to visit, the next being [j]; [jvar] is the binding of the variable [j]
    so far.  Returns [segmentEnd] and the binding of [j] after the loop. *)
Fixpoint seek_end (n : nat) (j : Z) (jvar : option Z) : option Z * option Z :=
  match n with
  | O => (None, jvar)
  | S n' =>
      if mean_ge (wmean (j - 60) j) 65%Q then (Some (j - 1), Some j)
      else seek_end n' (j + 1) (Some j)
  end.

(** The variables the first pass leaves behind. *)
Record fp_state : Type := FpState {
  fp_i : Z;
  fp_started : bool;
  fp_trackStartIndex : option Z;
  fp_iohEvents : list interval;
  fp_j : option Z
}.

(** One iteration of the [while] of lines 347-383. *)
Definition first_pass_body (st : fp_state) : flow fp_state :=
  let i := fp_i st in
  let abpSeg := wmean i (i + 60) in
  if negb (fp_started st) then
    if mean_ge abpSeg 65%Q then
      Continue (FpState (i + 1) true (Some i) (fp_iohEvents st) (fp_j st))
    else
      Continue (FpState (i + 1) false (fp_trackStartIndex st)
                        (fp_iohEvents st) (fp_j st))
  else if mean_lt abpSeg 65%Q then
    let segmentStart := i in
    match seek_end (Z.to_nat (tls - (i + 60))) (i + 60) (fp_j st) with
    | (None, jvar) =>
        (* eofReached *)
        Break (FpState (i + 1) true (fp_trackStartIndex st)
                       (fp_iohEvents st) jvar)
    | (Some segmentEnd, jvar) =>
        Continue (FpState (segmentEnd + 1) true (fp_trackStartIndex st)
                          (fp_iohEvents st ++ [(segmentStart, segmentEnd)])
                          jvar)
    end
  else
    Continue (FpState (i + 1) true (fp_trackStartIndex st)
                      (fp_iohEvents st) (fp_j st)).

(** [while i < track_length_seconds - 60: ...]; [None] when the fuel runs
    out before the loop ends. *)
Fixpoint first_pass_loop (fuel : nat) (st : fp_state) : option fp_state :=
  if fp_i st <? tls - 60 then
    match fuel with
    | O => None
    | S fuel' =>
        match first_pass_body st with
        | Continue st' => first_pass_loop fuel' st'
        | Break st' => Some st'
        end
    end
  else Some st.

(** The first pass from the initialisation of lines 336-341; [jvar] is the
    binding of [j] on entry. *)
Definition first_pass (jvar : option Z) : option fp_state :=
  first_pass_loop (Z.to_nat tls) (FpState 0 false None [] jvar).

(** *** Second pass: clean windows *)

(** One iteration of the [while] of lines 394-455 on the cursor [i] and
    the list [cleanEvents]; [iohEvents] and the binding [jvar] of [j] are
    those left by the first pass. *)
Definition second_pass_body (iohEvents : list interval) (jvar : option Z)
    (st : Z * list interval) : outcome (Z * list interval) :=
  let '(i, cleanEvents) := st in
  let startIndex := i in
  let endIndex := i + 1800 in
  match scan_overlap (startIndex, endIndex) iohEvents with
  | Some latestEnd =>
      (* FFWD if we found an overlap *)
      Done (latestEnd + 1, cleanEvents)
  | None =>
      if mean_ge (wmean startIndex endIndex) 75%Q then
        match jvar with
        | None => UnboundLocalError
        | Some j =>
            let forwardStart := j - 1800 in
            let forwardEnd := j in
            match scan_overlap (forwardStart, forwardEnd) iohEvents with
            | None =>
                let segmentEnd := endIndex in
                Done (segmentEnd + 1, cleanEvents ++ [(startIndex, endIndex)])
            | Some _ => Done (i + 10, cleanEvents)
            end
        end
      else Done (i + 10, cleanEvents)
  end.

(** [while i < track_length_seconds - 1800: ...]. *)
Fixpoint second_pass_loop (iohEvents : list interval) (jvar : option Z)
    (fuel : nat) (st : Z * list interval) : outcome (list interval) :=
  if st.1 <? tls - 1800 then
    match fuel with
    | O => OutOfFuel
    | S fuel' =>
        match second_pass_body iohEvents jvar st with
        | Done st' => second_pass_loop iohEvents jvar fuel' st'
        | UnboundLocalError => UnboundLocalError
        | OutOfFuel => OutOfFuel
        end
    end
  else Done st.2.

(** The second pass from [i = trackStartIndex] and [cleanEvents = []]. *)
Definition second_pass (iohEvents : list interval) (jvar : option Z)
    (trackStartIndex : Z) : outcome (list interval) :=
  second_pass_loop iohEvents jvar (Z.to_nat tls) (trackStartIndex, []).

End Passes.

(** *** Third pass: positive segments *)

(** Line 44. *)
Definition ALL_PREDICTION_WINDOWS : list Z := [3; 5; 10; 15].

(** A positive segment [(start, end, predWindow)]. *)
Definition positive_segment : Type := Z * Z * Z.

(** The body of the [for predWindow] loop (lines 476-502): the segment that
    is appended, or [None] when one of the [continue]s is taken. *)
Definition positive_candidate (trackStartIndex : Z) (event : interval)
    (previousEvent : option interval) (predWindow : Z)
    : option positive_segment :=
  let predictiveSegmentStart := event.1 - predWindow * 60 in
  let predictiveSegmentEnd := predictiveSegmentStart + 60 in
  if predictiveSegmentStart <? 0 then None
  else if predictiveSegmentStart <? trackStartIndex then None
  else
    match previousEvent with
    | Some previous =>
        if overlaps (predictiveSegmentStart, predictiveSegmentEnd) previous
        then None
        else Some (predictiveSegmentStart, predictiveSegmentEnd, predWindow)
    | None => Some (predictiveSegmentStart, predictiveSegmentEnd, predWindow)
    end.

(** [iohEvents[i - 1]] when [i > 0] (lines 471-473). *)
Definition previous_event (iohEvents : list interval) (i : nat)
    : option interval :=
  if (0 <? i)%nat then iohEvents !! (i - 1)%nat else None.

(** The [for predWindow in ALL_PREDICTION_WINDOWS] loop for one event. *)
Definition positive_for_event (trackStartIndex : Z) (event : interval)
    (previousEvent : option interval) (positiveSegments : list positive_segment)
    : list positive_segment :=
  fold_left (fun acc predWindow =>
               match positive_candidate trackStartIndex event previousEvent
                                        predWindow with
               | Some seg => acc ++ [seg]
               | None => acc
               end)
            ALL_PREDICTION_WINDOWS positiveSegments.

(** [for i in range(0, len(iohEvents))] (lines 468-502). *)
Definition third_pass (iohEvents : list interval) (trackStartIndex : Z)
    : list positive_segment :=
  fold_left (fun acc i =>
               match iohEvents !! i with
               | Some event =>
                   positive_for_event trackStartIndex event
                                      (previous_event iohEvents i) acc
               | None => acc
               end)
            (seq 0 (length iohEvents)) [].

(** *** Fourth pass: negative segments *)

(** [for i in range(0, len(cleanEvents))] (lines 508-520). *)
Definition fourth_pass (cleanEvents : list interval) : list interval :=
  fold_left (fun acc i =>
               match cleanEvents !! i with
               | Some event =>
                   let timeAtTen := event.1 + 600 in
                   let timeAtFifteen := event.1 + 900 in
                   let timeAtTwenty := event.1 + 1200 in
                   ((acc ++ [(timeAtTen, timeAtTen + 60)])
                      ++ [(timeAtFifteen, timeAtFifteen + 60)])
                      ++ [(timeAtTwenty, timeAtTwenty + 60)]
               | None => acc
               end)
            (seq 0 (length cleanEvents)) [].

(** *** One case *)

(** What the body of the loop over cases has computed when it reaches
    [saveCaseSegments]. *)
Record case_result : Type := CaseResult {
  cr_trackStartIndex : Z;
  cr_iohEvents : list interval;
  cr_cleanEvents : list interval;
  cr_positiveSegments : list positive_segment;
  cr_negativeSegments : list interval;
  cr_j : option Z
}.

(** Lines 334-520 over the track length and the window mean. *)
Definition run_passes (tls : Z) (wmean : Z -> Z -> mean) (jvar : option Z)
    : outcome case_result :=
  match first_pass tls wmean jvar with
  | None => OutOfFuel
  | Some fp =>
      let trackStartIndex :=
        match fp_trackStartIndex fp with Some i => i | None => 0 end in
      match second_pass tls wmean (fp_iohEvents fp) (fp_j fp) trackStartIndex with
      | Done cleanEvents =>
          Done (CaseResult trackStartIndex (fp_iohEvents fp) cleanEvents
                  (third_pass (fp_iohEvents fp) trackStartIndex)
                  (fourth_pass cleanEvents) (fp_j fp))
      | UnboundLocalError => UnboundLocalError
      | OutOfFuel => OutOfFuel
      end
  end.

(** Lines 334-520 on the arterial track of a case, entered with the binding
    [jvar] of [j]. *)
Definition process_case (abp : list sample) (jvar : option Z)
    : outcome case_result :=
  run_passes (track_length_seconds abp) (window_mean abp) jvar.

(** ** Persistence and the loop over cases *)

(** A segment file is named [{caseid:04d}_{start}_{lead:02d}_True.track] or
    [{caseid:04d}_{start}_0_False.track]: within the folder of a case its
    name is the triple below.  Its content is the crop of the case's
    recording to [(start, end)]. *)
Definition file_name : Type := Z * Z * bool.
Definition case_folder : Type := gmap file_name interval.

(** Lines 553-559 and 561-567: one file per segment. *)
Definition write_positive (folder : case_folder)
    (positiveSegments : list positive_segment) : case_folder :=
  fold_left (fun f (event : positive_segment) =>
               <[(event.1.1, event.2, true) := (event.1.1, event.1.2)]> f)
            positiveSegments folder.

Definition write_negative (folder : case_folder)
    (negativeSegments : list interval) : case_folder :=
  fold_left (fun f (event : interval) =>
               <[(event.1, 0, false) := (event.1, event.2)]> f)
            negativeSegments folder.

(** [os.path.exists(seg_folder)]: the folders of [VITAL_EXTRACTED_SEGMENTS]
    are keyed by case id. *)
Definition areCaseSegmentsCached (fs : gmap Z case_folder) (caseid : Z) : bool :=
  match fs !! caseid with
  | Some _ => true
  | None => false
  end.

Definition saveCaseSegments (fs : gmap Z case_folder) (caseid : Z)
    (positiveSegments : list positive_segment)
    (negativeSegments : list interval) : gmap Z case_folder :=
  if (length positiveSegments =? 0)%nat && (length negativeSegments =? 0)%nat
  then fs (* exit early if no events found *)
  else
    match fs !! caseid with
    | None =>
        <[caseid := write_negative (write_positive ∅ positiveSegments)
                                   negativeSegments]> fs
    | Some _ => fs (* exit early if folder already exists *)
    end.

(** The state of a run of [extract_segments]: the binding of the local
    [j], the segment folders on disk, and (a ghost log) the cases whose
    track was read by [get_track_data], latest last. *)
Record run_state : Type := RunState {
  rs_j : option Z;
  rs_fs : gmap Z case_folder;
  rs_scanned : list Z
}.

(** How a run ends: normally, or with the exception raised while the last
    scanned case was processed. *)
Inductive run_result : Type :=
| Finished (st : run_state)
| Raised (st : run_state)
| Unfinished.

(** The loop over cases (lines 323-522); [tracks] is [get_track_data]. *)
Fixpoint extract_segments_loop (tracks : Z -> list sample)
    (cases : list Z) (st : run_state) : run_result :=
  match cases with
  | [] => Finished st
  | caseid :: cases' =>
      if areCaseSegmentsCached (rs_fs st) caseid then
        (* skip records we've already cached *)
        extract_segments_loop tracks cases' st
      else
        let scanned := rs_scanned st ++ [caseid] in
        match process_case (tracks caseid) (rs_j st) with
        | Done r =>
            extract_segments_loop tracks cases'
              (RunState (cr_j r)
                 (saveCaseSegments (rs_fs st) caseid (cr_positiveSegments r)
                                   (cr_negativeSegments r))
                 scanned)
        | UnboundLocalError => Raised (RunState (rs_j st) (rs_fs st) scanned)
        | OutOfFuel => Unfinished
        end
  end.

(** A call of [extract_segments] on the folders [fs]: [j] starts unbound. *)
Definition extract_segments (tracks : Z -> list sample) (cases : list Z)
    (fs : gmap Z case_folder) : run_result :=
  extract_segments_loop tracks cases (RunState None fs []).

(** The state a run ends in, whether it finished or raised. *)
Definition final_state (r : run_result) : option run_state :=
  match r with
  | Finished st | Raised st => Some st
  | Unfinished => None
  end.

(** ** Tracks given second by second

    A track whose samples are constant over each second is the per-second
    list with every entry repeated [ABP_ECG_SRATE_HZ] times. *)

Definition expand (k : nat) (l : list sample) : list sample :=
  flat_map (fun x => repeat x k) l.

Definition per_second (l : list sample) : list sample :=
  expand (Z.to_nat ABP_ECG_SRATE_HZ) l.

(** The mean over the seconds [[a, b)] of a per-second list. *)
Definition second_mean (l : list sample) (a b : Z) : mean :=
  nanmean (py_slice l a b).

(** Two means that no threshold test tells apart. *)
Definition mean_equiv (m m' : mean) : Prop :=
  forall t, mean_ge m t = mean_ge m' t /\ mean_lt m t = mean_lt m' t.

(** ** Shapes of the results *)

(** [a] ends before [b] starts. *)
Definition ends_before (a b : interval) : Prop := a.2 < b.1.

(** An event as the first pass builds it. *)
Definition event_ok (e : interval) : Prop := e.2 > e.1 /\ e.2 - e.1 >= 60.

(** Increasing and pairwise apart: every interval of the list ends before
    all later ones start. *)
Definition increasing (l : list interval) : Prop := StronglySorted ends_before l.

(** What holds of the variables of the first pass between iterations. *)
Record fp_inv (st : fp_state) : Prop := FpInv {
  fpi_i : 0 <= fp_i st;
  fpi_start : match fp_trackStartIndex st with
              | Some s => fp_started st = true /\ 0 <= s
              | None => fp_started st = false /\ fp_iohEvents st = []
              end;
  fpi_ok : Forall event_ok (fp_iohEvents st);
  fpi_incr : increasing (fp_iohEvents st);
  fpi_past : Forall (fun e => e.2 < fp_i st) (fp_iohEvents st);
  fpi_j : fp_iohEvents st <> [] -> exists j, fp_j st = Some j
}.

(** A window as the second pass records it. *)
Definition clean_ok (wm : Z -> Z -> mean) (iohEvents : list interval)
    (w : interval) : Prop :=
  w.2 - w.1 = 1800 /\
  Forall (fun e => overlaps w e = false) iohEvents /\
  mean_ge (wm w.1 w.2) 75%Q = true.

(** What holds of the cursor and the windows of the second pass between
    iterations. *)
Record sp_inv (wm : Z -> Z -> mean) (iohEvents : list interval)
    (st : Z * list interval) : Prop := SpInv {
  spi_ok : Forall (clean_ok wm iohEvents) st.2;
  spi_incr : increasing st.2;
  spi_past : Forall (fun w => w.2 < st.1) st.2
}.

(** The positive segments of the event at index [i]. *)
Definition positive_at (iohEvents : list interval) (trackStartIndex : Z)
    (i : nat) : list positive_segment :=
  match iohEvents !! i with
  | Some event =>
      positive_for_event trackStartIndex event (previous_event iohEvents i) []
  | None => []
  end.

(** The three segments of one clean window. *)
Definition negative_of (w : interval) : list interval :=
  [(w.1 + 600, w.1 + 600 + 60); (w.1 + 900, w.1 + 900 + 60);
   (w.1 + 1200, w.1 + 1200 + 60)].

(** The first pass does not look at the binding of [j] it is entered
    with: only the binding it leaves depends on it. *)
Definition same_scan (st1 st2 : fp_state) : Prop :=
  fp_i st1 = fp_i st2 /\ fp_started st1 = fp_started st2 /\
  fp_trackStartIndex st1 = fp_trackStartIndex st2 /\
  fp_iohEvents st1 = fp_iohEvents st2.

(** ** Concrete tracks *)

(** Per-second values without gaps. *)
Definition seconds_of (l : list Q) : list sample := map Some l.

(** Scenario 1: 70 mmHg over [0,300), 50 over [300,420), 70 over
    [420,3600). *)
Definition scenario1_seconds : list sample :=
  seconds_of (repeat 70%Q 300 ++ repeat 50%Q 120 ++ repeat 70%Q 3180).
Definition scenario1_track : list sample := per_second scenario1_seconds.

(** 70 mmHg for a minute, 50 for 140 seconds, then 80 for 35 minutes. *)
Definition recovered_seconds : list sample :=
  seconds_of (repeat 70%Q 60 ++ repeat 50%Q 140 ++ repeat 80%Q 2100).
Definition recovered_track : list sample := per_second recovered_seconds.

(** 70 mmHg for a minute, a dip to 50 over [60,130), 80 until second 2000,
    then 50 until the track ends at 2200. *)
Definition mixed_seconds : list sample :=
  seconds_of (repeat 70%Q 60 ++ repeat 50%Q 70 ++ repeat 80%Q 1870
                ++ repeat 50%Q 200).
Definition mixed_track : list sample := per_second mixed_seconds.

(** 70 mmHg, a dip to 50 over [60,130), 70 again until 200. *)
Definition dip_seconds : list sample :=
  seconds_of (repeat 70%Q 60 ++ repeat 50%Q 70 ++ repeat 70%Q 70).
Definition dip_track : list sample := per_second dip_seconds.

(** 80 mmHg throughout 1802 seconds. *)
Definition steady_seconds : list sample := seconds_of (repeat 80%Q 1802).
Definition steady_track : list sample := per_second steady_seconds.

(** 70 mmHg throughout 62 seconds. *)
Definition brief_seconds : list sample := seconds_of (repeat 70%Q 62).
Definition brief_track : list sample := per_second brief_seconds.

(** 100 mmHg, a stretch at 50 over [1000,1783), 100 again until second
    3700, then 50 until the track ends at 3900. *)
Definition contained_seconds : list sample :=
  seconds_of (repeat 100%Q 1000 ++ repeat 50%Q 783 ++ repeat 100%Q 1917
                ++ repeat 50%Q 200).
Definition contained_track : list sample := per_second contained_seconds.


(** 2000 seconds without a single number. *)
Definition gap_seconds : list sample := repeat None 2000.
Definition gap_track : list sample := per_second gap_seconds.

(** The first pass on the arterial track of a case. *)
Definition first_pass_of (abp : list sample) (jvar : option Z)
    : option fp_state :=
  first_pass (track_length_seconds abp) (window_mean abp) jvar.

(** Two cases: the track with a dip as case 1, the steady one as case 2. *)
Definition two_case_tracks (caseid : Z) : list sample :=
  if caseid =? 1 then dip_track else steady_track.

(** One case, the brief steady track. *)
Definition brief_tracks (caseid : Z) : list sample := brief_track.

(** One case, the track with a dip, a clean window and an unrecovered end. *)
Definition mixed_tracks (caseid : Z) : list sample := mixed_track.

(** ** What the first pass has seen *)

(** An event as the track bears it out: the minute from its start has a
    mean below 65, the minute up to the second after its end has a mean of
    at least 65, no earlier second of the search has, and the search ended
    inside the track. *)
Definition event_sound (tls : Z) (wm : Z -> Z -> mean) (e : interval) : Prop :=
  mean_lt (wm e.1 (e.1 + 60)) 65%Q = true /\
  mean_ge (wm (e.2 + 1 - 60) (e.2 + 1)) 65%Q = true /\
  (forall j, e.1 + 60 <= j <= e.2 -> mean_ge (wm (j - 60) j) 65%Q = false) /\
  e.2 + 1 < tls.

(** A second at which a search starts and finds no recovery before the
    track ends. *)
Definition unrecovered (tls : Z) (wm : Z -> Z -> mean) (i : Z) : Prop :=
  0 <= i < tls - 60 /\
  mean_lt (wm i (i + 60)) 65%Q = true /\
  forall j, i + 60 <= j < tls -> mean_ge (wm (j - 60) j) 65%Q = false.

(** What the scanned part of the track looks like between iterations of
    the first pass that entered with [j] bound to [jvar]. *)
Record fp_seen (tls : Z) (wm : Z -> Z -> mean) (jvar : option Z)
    (st : fp_state) : Prop := FpSeen {
  fps_inv : fp_inv st;
  fps_events : Forall (event_sound tls wm) (fp_iohEvents st);
  fps_live :
    match fp_trackStartIndex st with
    | Some s =>
        0 <= s < fp_i st /\ s < tls - 60 /\
        mean_ge (wm s (s + 60)) 65%Q = true /\
        (forall i, 0 <= i < s -> mean_ge (wm i (i + 60)) 65%Q = false) /\
        Forall (fun e => s < e.1) (fp_iohEvents st)
    | None =>
        forall i, 0 <= i < fp_i st -> mean_ge (wm i (i + 60)) 65%Q = false
    end;
  fps_scanned :
    forall s i, fp_trackStartIndex st = Some s -> s < i < fp_i st ->
      mean_lt (wm i (i + 60)) 65%Q = true ->
      exists e, In e (fp_iohEvents st) /\ e.1 <= i <= e.2;
  fps_j :
    (fp_iohEvents st = [] /\ fp_j st = jvar) \/
    (exists e, last (fp_iohEvents st) = Some e /\ fp_j st = Some (e.2 + 1))
}.

(** ** What a run leaves settled *)

(** Two runs of the first pass that differ in the binding of [j] on entry
    only: they agree on everything else, and on [j] too as soon as a
    search is made. *)
Definition in_step (j1 j2 : option Z) (st1 st2 : fp_state) : Prop :=
  same_scan st1 st2 /\
  (fp_j st1 = fp_j st2 \/
   (fp_j st1 = j1 /\ fp_j st2 = j2 /\ fp_iohEvents st1 = [])).

(** A case the run may meet again without effect: it has a folder, or its
    scan completes without a segment. *)
Definition settled (tracks : Z -> list sample) (fs : gmap Z case_folder)
    (caseid : Z) : Prop :=
  areCaseSegmentsCached fs caseid = true \/
  exists jvar r, process_case (tracks caseid) jvar = Done r /\
                 cr_positiveSegments r = [] /\ cr_negativeSegments r = [].

(** ** The files of a case *)

(** The name of the file of a positive segment and of a negative one
    (lines 555 and 563), and what is cropped into it. *)
Definition positive_name (event : positive_segment) : file_name :=
  (event.1.1, event.2, true).
Definition negative_name (event : interval) : file_name :=
  (event.1, 0, false).

(** One file per element, as the loops of [saveCaseSegments] write them. *)
Definition write_files {A : Type} (key : A -> file_name) (val : A -> interval)
    (folder : case_folder) (l : list A) : case_folder :=
  fold_left (fun f x => <[key x := val x]> f) l folder.

(** ** File and folder names *)

(** [f"{n}"] for an integer [n]: its decimal digits, after a minus sign
    when it is negative. *)
Definition format_d (n : Z) : string := NilZero.string_of_int (Z.to_int n).

Fixpoint zeros (k : nat) : string :=
  match k with
  | O => EmptyString
  | S k' => String "0" (zeros k')
  end.

(** [f"{n:0wd}"]: the digits are filled with zeros on the left, after the
    sign, up to the width [w]; longer numbers are left as they are. *)
Definition format_0d (w : nat) (n : Z) : string :=
  if n <? 0 then
    String "-" (zeros (w - 1 - String.length (format_d (- n)))
                  ++ format_d (- n))%string
  else (zeros (w - String.length (format_d n)) ++ format_d n)%string.

(** The last component of [seg_folder] (lines 534 and 543). *)
Definition seg_folder_name (caseid : Z) : string := format_0d 4 caseid.

(** [seg_filename] for a positive segment (line 555) and for a negative
    one (line 563). *)
Definition positive_filename (caseid : Z) (event : positive_segment) : string :=
  (format_0d 4 caseid ++ "_" ++ format_d event.1.1 ++ "_"
     ++ format_0d 2 event.2 ++ "_True.track")%string.

Definition negative_filename (caseid : Z) (event : interval) : string :=
  (format_0d 4 caseid ++ "_" ++ format_d event.1 ++ "_0_False.track")%string.

(** Reading a name back: the fields between the underscores. *)
Fixpoint split_on (c : ascii) (s : string) : list string :=
  match s with
  | EmptyString => [EmptyString]
  | String a s' =>
      if Ascii.eqb a c then EmptyString :: split_on c s'
      else
        match split_on c s' with
        | h :: t => String a h :: t
        | [] => [String a EmptyString]
        end
  end.

Definition parse_int (s : string) : option Z :=
  option_map Z.of_int (NilZero.int_of_string s).

Definition parse_label (s : string) : option bool :=
  if String.eqb s "True.track" then Some true
  else if String.eqb s "False.track" then Some false
  else None.

Definition parse_filename (s : string) : option (Z * file_name) :=
  match split_on "_" s with
  | [c; start; lead; label] =>
      match parse_int c, parse_int start, parse_int lead, parse_label label with
      | Some c', Some start', Some lead', Some label' =>
          Some (c', (start', lead', label'))
      | _, _, _, _ => None
      end
  | _ => None
  end.

(** A string without a given character. *)
Fixpoint lacks (c : ascii) (s : string) : Prop :=
  match s with
  | EmptyString => True
  | String a s' => a <> c /\ lacks c s'
  end.


(** The decimal numeral of a natural number. *)
Definition numeral (n : Z) : Decimal.uint := N.to_uint (Z.to_N n).


(** ** Tracks that stay on one side of a threshold *)

(** Every sample that is a number is at least [t]; below [t]. *)
Definition never_below (t : Q) (l : list sample) : Prop :=
  Forall (fun x => match x with Some q => (t <= q)%Q | None => True end) l.


(** ** Preparing the files: exceptions and state

    The code that runs before [extract_segments]: the loader of the
    metadata tables, the download of the full files, their conversion to
    small files with three tracks, and [get_track_data].  It works on files
    and on a module-level dictionary and may raise, so it is written in a
    state and exception monad; the folders themselves are made at lines
    54-67 and are taken to be there. *)

(** The exceptions: an invalid table name (line 78), a file that cannot be
    opened, a request to the VitalDB server that fails, a local table that
    cannot be read. *)
Inductive exn : Type :=
| ValueError (dataset_name : string)
| OpenFailed (path : string)
| RequestFailed (what : string)
| ParseFailed (path : string).

(** A call returns a value or raises. *)
Inductive res (A : Type) : Type :=
| Ok (a : A)
| Raise (e : exn).
Arguments Ok {A} a.
Arguments Raise {A} e.

(** A computation on a state [S]: the state is kept as it is when an
    exception is raised. *)
Definition io (S A : Type) : Type := S -> res A * S.

Definition ret {S A : Type} (a : A) : io S A := fun s => (Ok a, s).

Definition bind {S A B : Type} (m : io S A) (k : A -> io S B) : io S B :=
  fun s =>
    match m s with
    | (Ok a, s') => k a s'
    | (Raise e, s') => (Raise e, s')
    end.

Declare Scope io_scope.
Delimit Scope io_scope with io.
Notation "'let*' x ':=' m 'in' k" := (bind m (fun x => k))
  (at level 10, x name, m at level 100, k at level 200) : io_scope.

(** A [for] loop over [l] that threads the locals [b]; one without
    locals. *)
Fixpoint for_fold {S A B : Type} (l : list A) (body : A -> B -> io S B)
    (b : B) : io S B :=
  match l with
  | [] => ret b
  | x :: l' => (let* b' := body x b in for_fold l' body b')%io
  end.

Definition for_each {S A : Type} (l : list A) (body : A -> io S unit)
    : io S unit :=
  for_fold l (fun x _ => body x) tt.

(** [os.path.isfile(path)] on a store of files. *)
Definition isfile {V : Type} (d : gmap string V) (path : string) : bool :=
  match d !! path with
  | Some _ => true
  | None => false
  end.

(** The folders (lines 26-29 and 216) and the two files of a case (lines
    159, 182-183 and 236). *)
Definition VITALDB_CACHE : string := "./vitaldb_cache".
Definition VITAL_ALL : string := (VITALDB_CACHE ++ "/vital_all")%string.
Definition VITAL_MINI : string := (VITALDB_CACHE ++ "/vital_mini")%string.
Definition VITAL_METADATA : string := (VITALDB_CACHE ++ "/metadata")%string.
Definition MINI_FILE_FOLDER : string := VITAL_MINI.

Definition full_path (idx : Z) : string :=
  (VITAL_ALL ++ "/" ++ format_0d 4 idx ++ ".vital")%string.
Definition mini_path (idx : Z) : string :=
  (VITAL_MINI ++ "/" ++ format_0d 4 idx ++ "_mini.vital")%string.

(** ** The download and the conversion of the files *)

Section Files.

(** What a [.vital] file holds. *)
Context {vital : Type}.

(** [vitaldb.VitalFile(idx)], the request for a case: [None] when it
    raises.  [vitaldb.VitalFile(path, TRACK_NAMES)] on what the file at
    [path] holds: the three tracks of it. *)
Variable VitalFile_download : Z -> option vital.
Variable VitalFile_tracks : vital -> vital.

(** The files and the counters of the two loops. *)
Record prep_state : Type := PrepState {
  disk : gmap string vital;
  count_downloaded : nat;
  count_minified : nat;
  count_present : nat
}.

(** Lines 159-167. *)
Definition download_body (idx : Z) : io prep_state unit :=
  fun s =>
    let full_path := full_path idx in
    if negb (isfile (disk s) full_path) then
      match VitalFile_download idx with
      | Some vf =>
          (Ok tt, PrepState (<[full_path := vf]> (disk s))
                    (S (count_downloaded s)) (count_minified s)
                    (count_present s))
      | None => (Raise (RequestFailed (format_d idx)), s)
      end
    else
      (Ok tt, PrepState (disk s) (count_downloaded s) (count_minified s)
                (S (count_present s))).

(** Lines 154-167. *)
Definition download_all (cases_of_interest_idx : list Z)
    : io prep_state unit :=
  fun s =>
    for_each cases_of_interest_idx download_body
      (PrepState (disk s) 0 (count_minified s) 0).

(** Lines 182-190. *)
Definition minify_body (idx : Z) : io prep_state unit :=
  fun s =>
    let full_path := full_path idx in
    let mini_path := mini_path idx in
    if negb (isfile (disk s) mini_path) then
      match disk s !! full_path with
      | Some v =>
          (Ok tt, PrepState (<[mini_path := VitalFile_tracks v]> (disk s))
                    (count_downloaded s) (S (count_minified s))
                    (count_present s))
      | None => (Raise (OpenFailed full_path), s)
      end
    else
      (Ok tt, PrepState (disk s) (count_downloaded s) (count_minified s)
                (S (count_present s))).

(** Lines 178-190. *)
Definition minify_all (cases_of_interest_idx : list Z)
    : io prep_state unit :=
  fun s =>
    for_each cases_of_interest_idx minify_body
      (PrepState (disk s) (count_downloaded s) 0 0).

End Files.

Arguments prep_state vital : clear implicits.
Arguments PrepState {vital}.

(** ** Metadata tables *)

Section Loader.

Context {frame text : Type}.

(** [pd.read_csv] on a local file, [None] when it raises; [df.to_csv];
    [pd.read_csv] on the address of a table at api.vitaldb.net, [None] when
    it raises. *)
Variable read_csv : text -> option frame.
Variable to_csv : frame -> text.
Variable read_api : string -> option frame.

(** The files under the metadata folder, and the requests made so far. *)
Record meta_state : Type := MetaState {
  meta_files : gmap string text;
  requests : list string
}.

Definition metadata_path (dataset_name : string) : string :=
  (VITAL_METADATA ++ "/" ++ dataset_name ++ ".csv")%string.

(** Lines 76-88. *)
Definition vitaldb_dataframe_loader (dataset_name : string)
    : io meta_state frame :=
  fun s =>
    if negb (existsb (String.eqb dataset_name) ["cases"; "labs"; "trks"]) then
      (Raise (ValueError dataset_name), s)
    else
      let file_path := metadata_path dataset_name in
      match meta_files s !! file_path with
      | Some t =>
          match read_csv t with
          | Some df => (Ok df, s)
          | None => (Raise (ParseFailed file_path), s)
          end
      | None =>
          let s' := MetaState (meta_files s) (requests s ++ [dataset_name]) in
          match read_api dataset_name with
          | Some df =>
              (Ok df, MetaState (<[file_path := to_csv df]> (meta_files s))
                        (requests s'))
          | None => (Raise (RequestFailed dataset_name), s')
          end
      end.

End Loader.

Arguments meta_state text : clear implicits.
Arguments MetaState {text}.

(** ** Track data *)

(** Lines 96-97 and 213-215. *)
Definition TRACK_NAMES : list string :=
  ["SNUADC/ART"; "SNUADC/ECG_II"; "BIS/EEG1_WAV"].
Definition TRACK_SRATES : list Z := [500; 500; 128].

Definition ABP_TRACK_NAME : string := "SNUADC/ART".
Definition ECG_TRACK_NAME : string := "SNUADC/ECG_II".
Definition EEG_TRACK_NAME : string := "BIS/EEG1_WAV".

(** The cache key of a track of a case (line 233). *)
Definition cache_label (case : Z) (track_name : string) : string :=
  (format_d case ++ "|" ++ track_name)%string.

Section Tracks.

Context {vital array : Type}.

(** What is not embedded: reading a file with the three tracks selected,
    the samples of a track at a given interval, and the two filters of
    lines 201-209.  [USE_MEMORY_CACHING] is [False] in the module (line
    38); the function is modelled for both settings. *)
Variable VitalFile_tracks : vital -> vital.
Variable get_track_samples : vital -> string -> Q -> array.
Variable apply_bandpass_filter : array -> Q -> Q -> Z -> Z -> array.
Variable apply_zscore_normalization : array -> array.

Variable USE_MEMORY_CACHING : bool.

(** The files, which the function only reads. *)
Variable files : gmap string vital.

(** [TRACK_CACHE], and the files opened so far. *)
Record track_state : Type := TrackState {
  TRACK_CACHE : gmap string array;
  opened : list string
}.

(** The locals of a call. *)
Record track_locals : Type := TrackLocals {
  gt_parsedFile : option vital;
  gt_abp : option array;
  gt_ecg : option array;
  gt_eeg : option array
}.

(** Lines 235-239. *)
Definition parse_once (case : Z) (loc : track_locals) : io track_state vital :=
  match gt_parsedFile loc with
  | Some vf => ret vf
  | None =>
      fun s =>
        let file_path := mini_path case in
        match files !! file_path with
        | Some v =>
            (Ok (VitalFile_tracks v),
             TrackState (TRACK_CACHE s) (opened s ++ [file_path]))
        | None => (Raise (OpenFailed file_path), s)
        end
  end.

Definition cache_store (cache_label : string) (a : array)
    : io track_state unit :=
  fun s =>
    if USE_MEMORY_CACHING then
      (Ok tt, TrackState (<[cache_label := a]> (TRACK_CACHE s)) (opened s))
    else (Ok tt, s).

(** The body of the loop over the tracks (lines 232-266). *)
Definition get_track_body (case : Z) (tr : string * Z) (loc : track_locals)
    : io track_state track_locals :=
  fun s =>
    let track_name := tr.1 in
    let rate := tr.2 in
    let cache_label := cache_label case track_name in
    match TRACK_CACHE s !! cache_label with
    | None =>
        (let* vf := parse_once case loc in
         let loc := TrackLocals (Some vf) (gt_abp loc) (gt_ecg loc)
                      (gt_eeg loc) in
         let dataset := get_track_samples vf track_name (1 / inject_Z rate) in
         if String.eqb track_name ABP_TRACK_NAME then
           let abp := dataset in
           let* _ := cache_store cache_label abp in
           ret (TrackLocals (gt_parsedFile loc) (Some abp) (gt_ecg loc)
                  (gt_eeg loc))
         else if String.eqb track_name ECG_TRACK_NAME then
           let ecg := apply_bandpass_filter dataset 1 40 rate 2 in
           let ecg := apply_zscore_normalization ecg in
           let* _ := cache_store cache_label ecg in
           ret (TrackLocals (gt_parsedFile loc) (gt_abp loc) (Some ecg)
                  (gt_eeg loc))
         else if String.eqb track_name EEG_TRACK_NAME then
           let eeg := apply_bandpass_filter dataset (1 # 2) 50 rate 2 in
           let* _ := cache_store cache_label eeg in
           ret (TrackLocals (gt_parsedFile loc) (gt_abp loc) (gt_ecg loc)
                  (Some eeg))
         else ret loc)%io s
    | Some cached =>
        if String.eqb track_name ABP_TRACK_NAME then
          (Ok (TrackLocals (gt_parsedFile loc) (Some cached) (gt_ecg loc)
                 (gt_eeg loc)), s)
        else if String.eqb track_name ECG_TRACK_NAME then
          (Ok (TrackLocals (gt_parsedFile loc) (gt_abp loc) (Some cached)
                 (gt_eeg loc)), s)
        else if String.eqb track_name EEG_TRACK_NAME then
          (Ok (TrackLocals (gt_parsedFile loc) (gt_abp loc) (gt_ecg loc)
                 (Some cached)), s)
        else (Ok loc, s)
    end.

(** Lines 225-268. *)
Definition get_track_data (case : Z)
    : io track_state (option array * option array * option array) :=
  (let* loc := for_fold (zip TRACK_NAMES TRACK_SRATES) (get_track_body case)
                 (TrackLocals None None None None) in
   ret (gt_abp loc, gt_ecg loc, gt_eeg loc))%io.

End Tracks.

Arguments track_state array : clear implicits.
Arguments TrackState {array}.
Arguments track_locals vital array : clear implicits.
Arguments TrackLocals {vital array}.

(** ** Concrete files *)

(** Two full files on the disk, those of cases 1 and 2, and nothing else. *)
Definition two_full_files : prep_state Z :=
  PrepState (<[full_path 1 := 10]> (<[full_path 2 := 20]> ∅)) 0%nat 0%nat 0%nat.

(** A download that succeeds for the cases up to 5. *)
Definition download_upto_5 (idx : Z) : option Z :=
  if idx <=? 5 then Some (10 * idx) else None.


(** One small file, that of case 1. *)
Definition one_mini_file : gmap string Z := <[mini_path 1 := 7]> ∅.


(** * Properties *)

(** ** Sample rate independence *)

Section Expand.

Variable k : nat.
Hypothesis k_pos : (0 < k)%nat.

Abbreviation expand := (expand k).

Lemma expand_length l : length (expand l) = (k * length l)%nat.
Proof.
  induction l as [|x l IH]; simpl; [lia|].
  rewrite length_app, repeat_length, IH. lia.
Qed.

Lemma expand_skipn n l : skipn (k * n) (expand l) = expand (skipn n l).
Proof.
  revert l; induction n as [|n IH]; intros l.
  - rewrite Nat.mul_0_r. reflexivity.
  - destruct l as [|x l]; simpl.
    + apply skipn_nil.
    + rewrite skipn_app, repeat_length.
      rewrite (skipn_all2 (repeat x k)) by (rewrite repeat_length; lia).
      replace (k * S n - k)%nat with (k * n)%nat by lia.
      apply IH.
Qed.

Lemma expand_firstn n l : firstn (k * n) (expand l) = expand (firstn n l).
Proof.
  revert l; induction n as [|n IH]; intros l.
  - rewrite Nat.mul_0_r. reflexivity.
  - destruct l as [|x l]; simpl.
    + apply firstn_nil.
    + rewrite firstn_app, repeat_length.
      rewrite (firstn_all2 (repeat x k)) by (rewrite repeat_length; lia).
      replace (k * S n - k)%nat with (k * n)%nat by lia.
      now rewrite IH.
Qed.

Lemma slice_bound_scale len a :
  0 <= len ->
  slice_bound (Z.of_nat k * len) (a * Z.of_nat k)
  = Z.of_nat k * slice_bound len a.
Proof.
  intros Hlen. unfold slice_bound.
  destruct (Z.ltb_spec a 0), (Z.ltb_spec (a * Z.of_nat k) 0); try nia.
Qed.

Lemma expand_slice l a b :
  py_slice (expand l) (a * Z.of_nat k) (b * Z.of_nat k)
  = expand (py_slice l a b).
Proof.
  unfold py_slice. rewrite expand_length, Nat2Z.inj_mul.
  rewrite !slice_bound_scale by lia.
  set (a' := slice_bound _ a). set (b' := slice_bound _ b).
  assert (Ha : 0 <= a').
  { subst a'. unfold slice_bound. destruct (Z.ltb_spec a 0); lia. }
  replace (Z.to_nat (Z.of_nat k * b' - Z.of_nat k * a'))
    with (k * Z.to_nat (b' - a'))%nat by nia.
  replace (Z.to_nat (Z.of_nat k * a')) with (k * Z.to_nat a')%nat by nia.
  now rewrite expand_skipn, expand_firstn.
Qed.

Lemma nancount_app l1 l2 :
  nancount (l1 ++ l2) = (nancount l1 + nancount l2)%nat.
Proof.
  induction l1 as [|[q|] l1 IH]; simpl; lia.
Qed.

Lemma nansum_app l1 l2 :
  (nansum (l1 ++ l2) == nansum l1 + nansum l2)%Q.
Proof.
  induction l1 as [|[q|] l1 IH]; simpl.
  - ring.
  - rewrite IH. ring.
  - exact IH.
Qed.

Lemma nancount_repeat x n :
  nancount (repeat x n) = (n * nancount [x])%nat.
Proof.
  induction n as [|n IH]; [reflexivity|].
  destruct x as [q|]; simpl in *; lia.
Qed.

Lemma nansum_repeat x n :
  (nansum (repeat x n) == inject_Z (Z.of_nat n) * nansum [x])%Q.
Proof.
  induction n as [|n IH].
  - simpl. ring.
  - rewrite Nat2Z.inj_succ. unfold Z.succ. rewrite inject_Z_plus.
    destruct x as [q|]; simpl in *.
    + rewrite IH. ring.
    + rewrite IH. ring.
Qed.

Lemma expand_nancount l : nancount (expand l) = (k * nancount l)%nat.
Proof.
  induction l as [|x l IH]; simpl; [lia|].
  rewrite nancount_app, nancount_repeat, IH.
  destruct x; simpl; lia.
Qed.

Lemma expand_nansum l :
  (nansum (expand l) == inject_Z (Z.of_nat k) * nansum l)%Q.
Proof.
  induction l as [|x l IH]; simpl.
  - ring.
  - rewrite nansum_app, nansum_repeat, IH.
    destruct x; simpl; ring.
Qed.

Lemma expand_nanmean l : mean_equiv (nanmean (expand l)) (nanmean l).
Proof.
  unfold nanmean. rewrite expand_nancount.
  destruct (nancount l) as [|n] eqn:Hn.
  - rewrite Nat.mul_0_r. intros t; split; reflexivity.
  - destruct (k * S n)%nat as [|m] eqn:Hm; [lia|].
    rewrite <- Hm.
    assert (Heq : (nansum (expand l) / inject_Z (Z.of_nat (k * S n))
                   == nansum l / inject_Z (Z.of_nat (S n)))%Q).
    { rewrite expand_nansum, Nat2Z.inj_mul, inject_Z_mult.
      field. split.
      - change 0%Q with (inject_Z 0). rewrite inject_Z_injective. lia.
      - change 0%Q with (inject_Z 0). rewrite inject_Z_injective. lia. }
    intros t; split; simpl; now rewrite Heq.
Qed.

End Expand.

(** The passes see the track only through threshold tests on window
    means. *)

Section Extensionality.

Variable tls : Z.
Variables wm wm' : Z -> Z -> mean.
Hypothesis wm_equiv : forall a b, mean_equiv (wm a b) (wm' a b).

Lemma seek_end_ext n j jvar : seek_end wm n j jvar = seek_end wm' n j jvar.
Proof.
  revert j jvar; induction n as [|n IH]; intros j jvar; simpl; [reflexivity|].
  rewrite (proj1 (wm_equiv (j - 60) j 65%Q)).
  destruct (mean_ge _ _); [reflexivity|apply IH].
Qed.

Lemma first_pass_body_ext st :
  first_pass_body tls wm st = first_pass_body tls wm' st.
Proof.
  unfold first_pass_body.
  destruct (wm_equiv (fp_i st) (fp_i st + 60) 65%Q) as [-> ->].
  now rewrite seek_end_ext.
Qed.

Lemma first_pass_loop_ext fuel st :
  first_pass_loop tls wm fuel st = first_pass_loop tls wm' fuel st.
Proof.
  revert st; induction fuel as [|fuel IH]; intros st; simpl; [reflexivity|].
  rewrite first_pass_body_ext.
  destruct (fp_i st <? tls - 60); [|reflexivity].
  destruct (first_pass_body tls wm' st); [apply IH|reflexivity].
Qed.

Lemma second_pass_body_ext iohEvents jvar st :
  second_pass_body wm iohEvents jvar st = second_pass_body wm' iohEvents jvar st.
Proof.
  unfold second_pass_body. destruct st as [i cleanEvents].
  now rewrite (proj1 (wm_equiv i (i + 1800) 75%Q)).
Qed.

Lemma second_pass_loop_ext iohEvents jvar fuel st :
  second_pass_loop tls wm iohEvents jvar fuel st
  = second_pass_loop tls wm' iohEvents jvar fuel st.
Proof.
  revert st; induction fuel as [|fuel IH]; intros st; simpl; [reflexivity|].
  rewrite second_pass_body_ext.
  destruct (st.1 <? tls - 1800); [|reflexivity].
  destruct (second_pass_body wm' iohEvents jvar st); auto.
Qed.

Lemma run_passes_ext jvar : run_passes tls wm jvar = run_passes tls wm' jvar.
Proof.
  unfold run_passes, first_pass, second_pass.
  rewrite first_pass_loop_ext.
  destruct (first_pass_loop tls wm' _ _) as [fp|]; [|reflexivity].
  now rewrite second_pass_loop_ext.
Qed.

End Extensionality.

Lemma per_second_length l :
  track_length_seconds (per_second l) = Z.of_nat (length l).
Proof.
  unfold track_length_seconds, per_second.
  rewrite expand_length, Nat2Z.inj_mul, Z2Nat.id by (unfold ABP_ECG_SRATE_HZ; lia).
  rewrite Z.mul_comm. apply Z.div_mul. unfold ABP_ECG_SRATE_HZ; lia.
Qed.

Lemma per_second_window_mean l a b :
  mean_equiv (window_mean (per_second l) a b) (second_mean l a b).
Proof.
  unfold window_mean, second_mean, per_second.
  replace ABP_ECG_SRATE_HZ with (Z.of_nat (Z.to_nat ABP_ECG_SRATE_HZ)) at 2 3
    by (unfold ABP_ECG_SRATE_HZ; lia).
  rewrite expand_slice by (unfold ABP_ECG_SRATE_HZ; lia).
  apply expand_nanmean. unfold ABP_ECG_SRATE_HZ; lia.
Qed.

(** Processing a track that is constant over each second is running the
    passes on the per-second list. *)
Lemma process_case_per_second l jvar :
  process_case (per_second l) jvar
  = run_passes (Z.of_nat (length l)) (second_mean l) jvar.
Proof.
  unfold process_case. rewrite per_second_length.
  apply run_passes_ext. intros a b. apply per_second_window_mean.
Qed.

(** ** Threshold tests *)

Lemma mean_lt_not_ge m t : mean_lt m t = true -> mean_ge m t = false.
Proof.
  destruct m as [q|]; simpl; [|reflexivity].
  now destruct (Qle_bool t q).
Qed.

(** ** The overlap test *)

Lemma overlaps_true_iff a b :
  overlaps a b = true <->
  (b.1 <= a.1 < b.2) \/ (b.1 <= a.2 < b.2) \/ (a.1 < b.1 /\ b.2 < a.2).
Proof.
  unfold overlaps.
  destruct (Z.leb_spec b.1 a.1), (Z.ltb_spec a.1 b.2),
    (Z.leb_spec b.1 a.2), (Z.ltb_spec a.2 b.2),
    (Z.ltb_spec a.1 b.1), (Z.ltb_spec b.2 a.2); simpl;
    split; intros; try lia; try discriminate; reflexivity.
Qed.

Lemma overlaps_false_iff a b :
  overlaps a b = false <->
  ~ (b.1 <= a.1 < b.2) /\ ~ (b.1 <= a.2 < b.2) /\ ~ (a.1 < b.1 /\ b.2 < a.2).
Proof.
  rewrite <- not_true_iff_false, overlaps_true_iff. tauto.
Qed.

Lemma ends_before_no_overlap a b :
  a.1 < a.2 -> b.1 < b.2 -> ends_before a b ->
  overlaps a b = false /\ overlaps b a = false /\ ~ intersects a b.
Proof.
  unfold ends_before, intersects. intros Ha Hb Hab.
  rewrite !overlaps_false_iff. repeat split; try lia.
  intros [t Ht]. lia.
Qed.

Lemma scan_overlap_acc w l acc :
  fold_left (fun latestEnd event =>
               if overlaps w event then Some event.2 else latestEnd) l acc
  = match scan_overlap w l with
    | Some x => Some x
    | None => acc
    end.
Proof.
  unfold scan_overlap. revert acc.
  induction l as [|e l IH]; intros acc; simpl; [reflexivity|].
  rewrite IH, (IH (if overlaps w e then _ else _)).
  destruct (fold_left _ l None); [reflexivity|].
  destruct (overlaps w e); reflexivity.
Qed.

Lemma scan_overlap_cons w e l :
  scan_overlap w (e :: l)
  = match scan_overlap w l with
    | Some x => Some x
    | None => if overlaps w e then Some e.2 else None
    end.
Proof.
  unfold scan_overlap at 1. simpl. apply scan_overlap_acc.
Qed.

Lemma scan_overlap_None w l :
  scan_overlap w l = None <-> Forall (fun e => overlaps w e = false) l.
Proof.
  induction l as [|e l IH]; [split; [constructor|reflexivity]|].
  rewrite scan_overlap_cons, Forall_cons_iff, <- IH.
  destruct (scan_overlap w l), (overlaps w e); split; intros; try easy.
  all: try tauto; destruct H; congruence.
Qed.

Lemma scan_overlap_Some w l x :
  scan_overlap w l = Some x ->
  exists e, In e l /\ overlaps w e = true /\ x = e.2.
Proof.
  induction l as [|e l IH]; [discriminate|].
  rewrite scan_overlap_cons.
  destruct (scan_overlap w l) as [y|].
  - intros [= <-]. destruct (IH eq_refl) as (e' & ? & ? & ?).
    exists e'. simpl; auto.
  - destruct (overlaps w e) eqn:Ho; [|discriminate].
    intros [= <-]. exists e. simpl; auto.
Qed.

(** ** First pass *)

Section FirstPass.

Variable tls : Z.
Variable wm : Z -> Z -> mean.

(** The recovery search returns the first [j] of the range whose trailing
    minute has a mean of at least 65, and leaves [j] bound to it. *)
Lemma seek_end_found n j jvar e jvar' :
  seek_end wm n j jvar = (Some e, jvar') ->
  j <= e + 1 < j + Z.of_nat n /\ jvar' = Some (e + 1) /\
  mean_ge (wm (e + 1 - 60) (e + 1)) 65%Q = true /\
  forall j', j <= j' < e + 1 -> mean_ge (wm (j' - 60) j') 65%Q = false.
Proof.
  revert j jvar; induction n as [|n IH]; intros j jvar; simpl; [discriminate|].
  destruct (mean_ge (wm (j - 60) j) 65%Q) eqn:Hge.
  - intros [= <- <-]. replace (j - 1 + 1) with j by lia.
    repeat split; try lia; auto.
  - intros H. apply IH in H as (Hr & Hj & Hm & Hall).
    repeat split; try lia; auto.
    intros j' Hj'. destruct (Z.eq_dec j' j) as [->|]; [exact Hge|].
    apply Hall. lia.
Qed.

(** An exhausted search has seen no such [j], and leaves [j] bound to the
    last value of the range. *)
Lemma seek_end_exhausted n j jvar jvar' :
  seek_end wm n j jvar = (None, jvar') ->
  (forall j', j <= j' < j + Z.of_nat n -> mean_ge (wm (j' - 60) j') 65%Q = false) /\
  jvar' = match n with O => jvar | S _ => Some (j + Z.of_nat n - 1) end.
Proof.
  revert j jvar; induction n as [|n IH]; intros j jvar; simpl.
  - intros [= <-]. split; [intros; lia|reflexivity].
  - destruct (mean_ge (wm (j - 60) j) 65%Q) eqn:Hge; [discriminate|].
    intros H. apply IH in H as (Hall & Hj). split.
    + intros j' Hj'. destruct (Z.eq_dec j' j) as [->|]; [exact Hge|].
      apply Hall. lia.
    + rewrite Hj. destruct n; f_equal; lia.
Qed.

Lemma seek_end_no_recovery n j jvar :
  (forall j', j <= j' < j + Z.of_nat n -> mean_ge (wm (j' - 60) j') 65%Q = false) ->
  seek_end wm n j jvar
  = (None, match n with O => jvar | S _ => Some (j + Z.of_nat n - 1) end).
Proof.
  revert j jvar; induction n as [|n IH]; intros j jvar Hall; simpl;
    [reflexivity|].
  rewrite Hall by lia. rewrite IH by (intros; apply Hall; lia).
  destruct n; do 2 f_equal; lia.
Qed.

Lemma increasing_snoc l e :
  increasing l -> Forall (fun x => ends_before x e) l -> increasing (l ++ [e]).
Proof.
  unfold increasing. induction l as [|x l IH]; intros Hs Hf; simpl.
  - repeat constructor.
  - apply StronglySorted_inv in Hs as [Hs Hx].
    apply Forall_cons_iff in Hf as [Hxe Hf].
    constructor; [auto|]. apply Forall_app; split; [exact Hx|].
    constructor; [exact Hxe|constructor].
Qed.

(** One iteration keeps the invariant and moves the cursor forward. *)
Lemma first_pass_body_inv st :
  fp_inv st -> fp_i st < tls - 60 ->
  match first_pass_body tls wm st with
  | Continue st' | Break st' => fp_inv st' /\ fp_i st < fp_i st'
  end.
Proof.
  intros [Hi Hstart Hok Hincr Hpast Hj] Hlt.
  unfold first_pass_body.
  destruct (fp_started st) eqn:Hst; simpl.
  - destruct (fp_trackStartIndex st) as [s|] eqn:Hs;
      [|destruct Hstart; congruence].
    destruct (mean_lt (wm (fp_i st) (fp_i st + 60)) 65%Q) eqn:Hm.
    + destruct (seek_end wm _ _ _) as [[e|] jvar'] eqn:Hseek.
      * apply seek_end_found in Hseek as (Hr & Hj' & Hge & Hall).
        assert (He : fp_i st + 60 < e + 1).
        { destruct (Z.eq_dec (e + 1) (fp_i st + 60)) as [Heq|]; [|lia].
          apply mean_lt_not_ge in Hm.
          rewrite Heq in Hge.
          replace (fp_i st + 60 - 60) with (fp_i st) in Hge by lia.
          congruence. }
        split; [|simpl; lia].
        constructor; simpl; try rewrite Hs; auto; try lia.
        -- apply Forall_app; split; [auto|].
           constructor; [|constructor]. unfold event_ok; simpl; lia.
        -- apply increasing_snoc; [auto|].
           eapply Forall_impl; [exact Hpast|].
           unfold ends_before; simpl; intros; lia.
        -- apply Forall_app; split.
           ++ eapply Forall_impl; [exact Hpast|]. simpl; intros; lia.
           ++ constructor; [simpl; lia|constructor].
        -- intros _. eauto.
      * apply seek_end_exhausted in Hseek as (Hall & Hj').
        split; [|simpl; lia].
        constructor; simpl; try rewrite Hs; auto; try lia.
        -- eapply Forall_impl; [exact Hpast|]. simpl; intros; lia.
        -- intros Hne. subst jvar'.
           destruct (Z.to_nat _); eauto.
    + split; [|simpl; lia].
      constructor; simpl; try rewrite Hs; auto; try lia.
      eapply Forall_impl; [exact Hpast|]. simpl; intros; lia.
  - destruct (fp_trackStartIndex st) as [s|] eqn:Hs;
      [destruct Hstart; congruence|].
    destruct Hstart as [_ Hnil].
    destruct (mean_ge (wm (fp_i st) (fp_i st + 60)) 65%Q) eqn:Hm.
    + split; [|simpl; lia].
      constructor; simpl; rewrite ?Hnil; auto; try lia; try constructor.
    + split; [|simpl; lia].
      constructor; simpl; rewrite ?Hs, ?Hnil; auto; try lia;
        try constructor.
Qed.

(** The loop ends, with the invariant, as soon as the fuel covers the
    seconds left to scan. *)
Lemma first_pass_loop_inv fuel st :
  fp_inv st -> (Z.to_nat (tls - 60 - fp_i st) <= fuel)%nat ->
  exists st', first_pass_loop tls wm fuel st = Some st' /\ fp_inv st'.
Proof.
  revert st; induction fuel as [|fuel IH]; intros st Hinv Hfuel; simpl.
  - destruct (Z.ltb_spec (fp_i st) (tls - 60)); [lia|eauto].
  - destruct (Z.ltb_spec (fp_i st) (tls - 60)); [|eauto].
    pose proof (first_pass_body_inv st Hinv ltac:(assumption)) as Hbody.
    destruct (first_pass_body tls wm st) as [st'|st'];
      destruct Hbody as [Hinv' Hlt'].
    + apply IH; [assumption|lia].
    + eauto.
Qed.

Lemma first_pass_inv jvar :
  exists st, first_pass tls wm jvar = Some st /\ fp_inv st.
Proof.
  apply first_pass_loop_inv; [|simpl; lia].
  constructor; simpl; auto; try constructor; try lia. congruence.
Qed.

End FirstPass.

(** ** Second pass *)

Section SecondPass.

Variable tls : Z.
Variable wm : Z -> Z -> mean.
Variable iohEvents : list interval.
Variable jvar : option Z.

Hypothesis events_ok : Forall (fun e => e.1 < e.2) iohEvents.

Abbreviation clean_ok := (clean_ok wm iohEvents).
Abbreviation sp_inv := (sp_inv wm iohEvents).

(** An overlapping event ends after the start of the window. *)
Lemma scan_overlap_forward i x :
  scan_overlap (i, i + 1800) iohEvents = Some x -> i < x.
Proof.
  intros (e & Hin & Ho & ->)%scan_overlap_Some.
  rewrite Forall_forall in events_ok.
  apply list_elem_of_In, events_ok in Hin.
  apply overlaps_true_iff in Ho. simpl in Ho. lia.
Qed.

Lemma second_pass_body_inv st :
  sp_inv st ->
  match second_pass_body wm iohEvents jvar st with
  | Done st' => sp_inv st' /\ st.1 < st'.1
  | UnboundLocalError => jvar = None
  | OutOfFuel => False
  end.
Proof.
  destruct st as [i clean]. intros [Hok Hincr Hpast]. simpl in *.
  destruct (scan_overlap (i, i + 1800) iohEvents) as [x|] eqn:Hscan.
  - apply scan_overlap_forward in Hscan. split; [|simpl; lia].
    constructor; simpl; auto.
    eapply Forall_impl; [exact Hpast|]. simpl; intros; lia.
  - destruct (mean_ge (wm i (i + 1800)) 75%Q) eqn:Hm.
    + destruct jvar as [j|]; [|reflexivity].
      destruct (scan_overlap (j - 1800, j) iohEvents).
      * split; [|simpl; lia]. constructor; simpl; auto.
        eapply Forall_impl; [exact Hpast|]. simpl; intros; lia.
      * split; [|simpl; lia]. constructor; simpl.
        -- apply Forall_app; split; [auto|].
           constructor; [|constructor].
           repeat split; simpl; [lia| |exact Hm].
           now apply scan_overlap_None.
        -- apply increasing_snoc; [auto|].
           eapply Forall_impl; [exact Hpast|].
           unfold ends_before; simpl; intros; lia.
        -- apply Forall_app; split.
           ++ eapply Forall_impl; [exact Hpast|]. simpl; intros; lia.
           ++ constructor; [simpl; lia|constructor].
    + split; [|simpl; lia]. constructor; simpl; auto.
      eapply Forall_impl; [exact Hpast|]. simpl; intros; lia.
Qed.

Lemma second_pass_loop_inv fuel st :
  sp_inv st -> (Z.to_nat (tls - 1800 - st.1) <= fuel)%nat ->
  match second_pass_loop tls wm iohEvents jvar fuel st with
  | Done cleanEvents => Forall clean_ok cleanEvents /\ increasing cleanEvents
  | UnboundLocalError => jvar = None
  | OutOfFuel => False
  end.
Proof.
  revert st; induction fuel as [|fuel IH]; intros st Hinv Hfuel; simpl.
  - destruct (Z.ltb_spec st.1 (tls - 1800)); [lia|].
    destruct Hinv; auto.
  - destruct (Z.ltb_spec st.1 (tls - 1800)); [|destruct Hinv; auto].
    pose proof (second_pass_body_inv st Hinv) as Hbody.
    destruct (second_pass_body wm iohEvents jvar st) as [st'| |];
      [|assumption|assumption].
    destruct Hbody as [Hinv' Hlt]. apply IH; [assumption|lia].
Qed.

Lemma second_pass_inv trackStartIndex :
  0 <= trackStartIndex ->
  match second_pass tls wm iohEvents jvar trackStartIndex with
  | Done cleanEvents => Forall clean_ok cleanEvents /\ increasing cleanEvents
  | UnboundLocalError => jvar = None
  | OutOfFuel => False
  end.
Proof.
  intros Hts. apply second_pass_loop_inv; [|simpl; lia].
  constructor; simpl; constructor.
Qed.

End SecondPass.

(** ** Third and fourth pass *)

Lemma fold_left_pointwise {A B : Type} (f g : A -> B -> A) (l : list B) (a : A) :
  (forall a x, f a x = g a x) -> fold_left f l a = fold_left g l a.
Proof.
  intros Hfg. revert a; induction l as [|x l IH]; intros a; simpl;
    [reflexivity|].
  now rewrite Hfg, IH.
Qed.

(** A loop that appends what its body yields is a [flat_map]. *)
Lemma fold_left_append {A B : Type} (g : A -> list B) (l : list A) (acc : list B) :
  fold_left (fun acc x => acc ++ g x) l acc = acc ++ flat_map g l.
Proof.
  revert acc; induction l as [|x l IH]; intros acc; simpl.
  - now rewrite app_nil_r.
  - now rewrite IH, app_assoc.
Qed.

Lemma positive_for_event_spec trackStartIndex event previousEvent acc :
  positive_for_event trackStartIndex event previousEvent acc
  = acc ++ flat_map (fun predWindow =>
                       match positive_candidate trackStartIndex event
                                                previousEvent predWindow with
                       | Some seg => [seg]
                       | None => []
                       end) ALL_PREDICTION_WINDOWS.
Proof.
  unfold positive_for_event. rewrite <- fold_left_append.
  apply fold_left_pointwise. intros acc' w.
  destruct (positive_candidate _ _ _ _); [reflexivity|now rewrite app_nil_r].
Qed.

Lemma third_pass_spec iohEvents trackStartIndex :
  third_pass iohEvents trackStartIndex
  = flat_map (positive_at iohEvents trackStartIndex)
             (seq 0 (length iohEvents)).
Proof.
  unfold third_pass.
  rewrite <- (app_nil_l (flat_map _ _)), <- fold_left_append.
  apply fold_left_pointwise. intros acc i. unfold positive_at.
  destruct (iohEvents !! i); [|now rewrite app_nil_r].
  now rewrite !positive_for_event_spec.
Qed.

Lemma positive_candidate_Some trackStartIndex event previousEvent predWindow seg :
  positive_candidate trackStartIndex event previousEvent predWindow = Some seg
  <->
  seg = (event.1 - predWindow * 60, event.1 - predWindow * 60 + 60, predWindow)
  /\ 0 <= event.1 - predWindow * 60
  /\ trackStartIndex <= event.1 - predWindow * 60
  /\ forall previous, previousEvent = Some previous ->
       overlaps (event.1 - predWindow * 60, event.1 - predWindow * 60 + 60)
                previous = false.
Proof.
  unfold positive_candidate.
  destruct (Z.ltb_spec (event.1 - predWindow * 60) 0);
    [split; [discriminate|lia]|].
  destruct (Z.ltb_spec (event.1 - predWindow * 60) trackStartIndex);
    [split; [discriminate|lia]|].
  destruct previousEvent as [previous|].
  - destruct (overlaps _ previous) eqn:Ho.
    + split; [discriminate|]. intros (_ & _ & _ & Hp).
      specialize (Hp previous eq_refl). congruence.
    + split.
      * intros [= <-]. repeat split; try lia. now intros ? [= <-].
      * now intros [-> _].
  - split.
    + intros [= <-]. repeat split; try lia. discriminate.
    + now intros [-> _].
Qed.

Lemma third_pass_In iohEvents trackStartIndex seg :
  In seg (third_pass iohEvents trackStartIndex) <->
  exists i event predWindow,
    iohEvents !! i = Some event /\ In predWindow ALL_PREDICTION_WINDOWS /\
    positive_candidate trackStartIndex event (previous_event iohEvents i)
                       predWindow = Some seg.
Proof.
  rewrite third_pass_spec, in_flat_map. split.
  - intros (i & _ & Hin). unfold positive_at in Hin.
    destruct (iohEvents !! i) as [event|] eqn:Hi; [|destruct Hin].
    rewrite positive_for_event_spec, app_nil_l in Hin.
    apply in_flat_map in Hin as (w & Hw & Hin).
    exists i, event, w. repeat split; auto.
    destruct (positive_candidate _ _ _ _) as [seg'|]; [|destruct Hin].
    destruct Hin as [->|[]]. reflexivity.
  - intros (i & event & w & Hi & Hw & Hc). exists i. split.
    + apply in_seq. apply lookup_lt_Some in Hi. lia.
    + unfold positive_at. rewrite Hi, positive_for_event_spec, app_nil_l.
      apply in_flat_map. exists w. split; [exact Hw|].
      rewrite Hc. now left.
Qed.

Lemma flat_map_pointwise {A B : Type} (f g : A -> list B) (l : list A) :
  (forall a, In a l -> f a = g a) -> flat_map f l = flat_map g l.
Proof.
  induction l as [|x l IH]; intros Hfg; simpl; [reflexivity|].
  rewrite Hfg by now left. f_equal. apply IH. intros a Ha. apply Hfg. now right.
Qed.

Lemma flat_map_lookup_seq {A B : Type} (g : A -> list B) (l : list A) :
  flat_map (fun i => match l !! i with Some x => g x | None => [] end)
           (seq 0 (length l))
  = flat_map g l.
Proof.
  induction l as [|x l IH] using rev_ind; [reflexivity|].
  rewrite length_app. change (length [x]) with 1%nat.
  rewrite Nat.add_1_r, seq_S, !flat_map_app. simpl.
  rewrite list_lookup_middle by reflexivity. f_equal.
  rewrite <- IH. apply flat_map_pointwise. intros i Hi%in_seq.
  now rewrite lookup_app_l by lia.
Qed.

Lemma fourth_pass_spec cleanEvents :
  fourth_pass cleanEvents = flat_map negative_of cleanEvents.
Proof.
  unfold fourth_pass.
  rewrite <- (flat_map_lookup_seq negative_of).
  rewrite <- (app_nil_l (flat_map _ _)), <- fold_left_append.
  apply fold_left_pointwise. intros acc i.
  destruct (cleanEvents !! i); [|now rewrite app_nil_r].
  unfold negative_of. now rewrite <- !app_assoc.
Qed.

(** ** One case *)

Section Case.

Variable tls : Z.
Variable wm : Z -> Z -> mean.

(** The start-of-signal index never changes once it is set. *)
Lemma first_pass_loop_start_stable fuel st st' s :
  first_pass_loop tls wm fuel st = Some st' ->
  fp_trackStartIndex st = Some s -> fp_inv st ->
  fp_trackStartIndex st' = Some s.
Proof.
  revert st; induction fuel as [|fuel IH]; intros st; simpl.
  - destruct (fp_i st <? tls - 60); [discriminate|]. now intros [= <-].
  - destruct (Z.ltb_spec (fp_i st) (tls - 60)); [|now intros [= <-]].
    intros Hloop Hs Hinv.
    pose proof (first_pass_body_inv tls wm st Hinv ltac:(assumption)) as Hb.
    pose proof (fpi_start st Hinv) as Hst. rewrite Hs in Hst.
    destruct Hst as [Hst _].
    unfold first_pass_body in *. rewrite Hst in *. simpl in *.
    destruct (mean_lt _ _).
    + destruct (seek_end _ _ _ _) as [[e|] jv].
      * apply IH in Hloop; tauto.
      * now injection Hloop as <-.
    + apply IH in Hloop; tauto.
Qed.

(** A first pass that meets no minute below 65 after the track went live
    at [s] records no event and leaves [j] as it was. *)
Lemma first_pass_loop_quiet fuel st st' s :
  (forall i, s < i < tls - 60 -> mean_lt (wm i (i + 60)) 65%Q = false) ->
  first_pass_loop tls wm fuel st = Some st' ->
  fp_trackStartIndex st' = Some s ->
  fp_inv st ->
  (forall s', fp_trackStartIndex st = Some s' -> s' < fp_i st) ->
  fp_iohEvents st' = fp_iohEvents st /\ fp_j st' = fp_j st.
Proof.
  intros Hquiet.
  revert st; induction fuel as [|fuel IH]; intros st; simpl.
  - destruct (fp_i st <? tls - 60); [discriminate|]. now intros [= <-].
  - destruct (Z.ltb_spec (fp_i st) (tls - 60)); [|now intros [= <-]].
    intros Hloop Hs' Hinv Hlive.
    pose proof (first_pass_body_inv tls wm st Hinv ltac:(assumption)) as Hb.
    pose proof (fpi_start st Hinv) as Hst.
    destruct (fp_trackStartIndex st) as [s0|] eqn:Hs0.
    + destruct Hst as [Hst _].
      assert (s0 = s) as ->.
      { pose proof (first_pass_loop_start_stable (S fuel) st st' s0) as Hstable.
        simpl in Hstable.
        destruct (Z.ltb_spec (fp_i st) (tls - 60)); [|lia].
        specialize (Hstable Hloop Hs0 Hinv). congruence. }
      specialize (Hlive s eq_refl).
      unfold first_pass_body in *. rewrite Hst in *. simpl in *.
      rewrite Hquiet in * by lia.
      apply IH in Hloop; simpl in *; try tauto.
      rewrite Hs0. intros ? [= <-]. lia.
    + destruct Hst as [Hst _].
      unfold first_pass_body in *. rewrite Hst in *. simpl in *.
      destruct (mean_ge _ _).
      * apply IH in Hloop; simpl in *; try tauto.
        intros ? [= <-]. lia.
      * apply IH in Hloop; simpl in *; try tauto.
        rewrite Hs0. discriminate.
Qed.

(** A binding of [j] survives the first pass. *)
Lemma seek_end_bound n j jvar :
  is_Some (seek_end wm n j (Some jvar)).2.
Proof.
  revert j jvar; induction n as [|n IH]; intros j jvar; simpl; [eauto|].
  destruct (mean_ge _ _); simpl; eauto.
Qed.

Lemma first_pass_loop_bound fuel st st' :
  first_pass_loop tls wm fuel st = Some st' ->
  is_Some (fp_j st) -> is_Some (fp_j st').
Proof.
  revert st; induction fuel as [|fuel IH]; intros st; simpl.
  - destruct (fp_i st <? tls - 60); [discriminate|]. now intros [= <-].
  - destruct (fp_i st <? tls - 60); [|now intros [= <-]].
    intros Hloop [j0 Hj]. unfold first_pass_body in Hloop. rewrite Hj in Hloop.
    pose proof (seek_end_bound (Z.to_nat (tls - (fp_i st + 60)))
                  (fp_i st + 60) j0) as Hseek.
    destruct (negb (fp_started st)).
    + destruct (mean_ge _ _); apply IH in Hloop; simpl; eauto.
    + destruct (mean_lt _ _); [|apply IH in Hloop; simpl; eauto].
      destruct (seek_end _ _ _ _) as [[e|] jv]; simpl in *.
      * apply IH in Hloop; simpl; eauto.
      * now injection Hloop as <-.
Qed.

(** With no IOH event and [j] unbound, the second pass fails at the first
    candidate window whose mean reaches 75. *)
Lemma second_pass_loop_unbound k fuel i cleanEvents :
  i + 10 * Z.of_nat k < tls - 1800 ->
  mean_ge (wm (i + 10 * Z.of_nat k) (i + 10 * Z.of_nat k + 1800)) 75%Q = true ->
  (k < fuel)%nat ->
  second_pass_loop tls wm [] None fuel (i, cleanEvents) = UnboundLocalError.
Proof.
  revert fuel i; induction k as [|k IH]; intros fuel i Hlt Hm Hfuel;
    (destruct fuel as [|fuel]; [lia|]); simpl.
  - replace (i + 10 * Z.of_nat 0) with i in * by lia.
    destruct (Z.ltb_spec i (tls - 1800)); [|lia].
    now rewrite Hm.
  - destruct (Z.ltb_spec i (tls - 1800)); [|lia].
    destruct (mean_ge (wm i (i + 1800)) 75%Q); [reflexivity|].
    apply IH; [| |lia].
    + replace (i + 10 + 10 * Z.of_nat k) with (i + 10 * Z.of_nat (S k)) by lia.
      exact Hlt.
    + replace (i + 10 + 10 * Z.of_nat k) with (i + 10 * Z.of_nat (S k)) by lia.
      exact Hm.
Qed.

(** The passes always come to an end, and only an unbound [j] makes them
    fail. *)
Lemma run_passes_outcome jvar :
  match run_passes tls wm jvar with
  | Done r =>
      exists st, first_pass tls wm jvar = Some st /\ fp_inv st /\
        cr_iohEvents r = fp_iohEvents st /\ cr_j r = fp_j st /\
        cr_trackStartIndex r
        = match fp_trackStartIndex st with Some i => i | None => 0 end /\
        cr_positiveSegments r
        = third_pass (cr_iohEvents r) (cr_trackStartIndex r) /\
        cr_negativeSegments r = fourth_pass (cr_cleanEvents r) /\
        Forall (clean_ok wm (cr_iohEvents r)) (cr_cleanEvents r) /\
        increasing (cr_cleanEvents r)
  | UnboundLocalError =>
      exists st, first_pass tls wm jvar = Some st /\ fp_j st = None
  | OutOfFuel => False
  end.
Proof.
  unfold run_passes.
  destruct (first_pass_inv tls wm jvar) as (st & -> & Hinv).
  set (tsi := match fp_trackStartIndex st with Some i => i | None => 0 end).
  assert (Hts : 0 <= tsi).
  { subst tsi. pose proof (fpi_start st Hinv).
    destruct (fp_trackStartIndex st); lia. }
  assert (Hev : Forall (fun e => e.1 < e.2) (fp_iohEvents st)).
  { eapply Forall_impl; [exact (fpi_ok st Hinv)|].
    unfold event_ok. intros; lia. }
  pose proof (second_pass_inv tls wm (fp_iohEvents st) (fp_j st) Hev tsi Hts)
    as Hsp.
  destruct (second_pass tls wm (fp_iohEvents st) (fp_j st) tsi)
    as [cleanEvents| |]; [|eauto|assumption].
  destruct Hsp. exists st. simpl. split; [reflexivity|]. split; [exact Hinv|].
  repeat split; auto.
Qed.

Lemma run_passes_bound j0 : exists r, run_passes tls wm (Some j0) = Done r.
Proof.
  pose proof (run_passes_outcome (Some j0)) as H.
  destruct (run_passes tls wm (Some j0)) as [r| |]; [eauto| |destruct H].
  destruct H as (st & Hfp & Hj).
  apply first_pass_loop_bound in Hfp; [|simpl; eauto].
  rewrite Hj in Hfp. now destruct Hfp.
Qed.

End Case.

Lemma first_pass_per_second l jvar :
  first_pass_of (per_second l) jvar
  = first_pass (Z.of_nat (length l)) (second_mean l) jvar.
Proof.
  unfold first_pass_of, first_pass. rewrite per_second_length.
  apply first_pass_loop_ext. intros a b. apply per_second_window_mean.
Qed.

Lemma window_mean_per_second_ge l a b t :
  mean_ge (window_mean (per_second l) a b) t = mean_ge (second_mean l a b) t.
Proof. apply per_second_window_mean. Qed.

Lemma window_mean_per_second_lt l a b t :
  mean_lt (window_mean (per_second l) a b) t = mean_lt (second_mean l a b) t.
Proof. apply per_second_window_mean. Qed.

(** A test that holds on every element of a range of integers. *)
Lemma forall_range (P : Z -> bool) (lo : Z) (n : nat) :
  forallb P (map (fun k => lo + Z.of_nat k) (seq 0 n)) = true ->
  forall i, lo <= i < lo + Z.of_nat n -> P i = true.
Proof.
  rewrite forallb_forall. intros H i Hi. apply H.
  apply in_map_iff. exists (Z.to_nat (i - lo)). split; [lia|].
  apply in_seq. lia.
Qed.

Lemma scenario1_scan jvar :
  first_pass_of scenario1_track jvar
  = Some (FpState 3540 true (Some 0) [(256, 464)] (Some 465)).
Proof.
  unfold scenario1_track. rewrite first_pass_per_second.
  destruct jvar; vm_compute; reflexivity.
Qed.

Lemma extract_segments_loop_cons tracks caseid cases st :
  extract_segments_loop tracks (caseid :: cases) st
  = if areCaseSegmentsCached (rs_fs st) caseid then
      extract_segments_loop tracks cases st
    else
      match process_case (tracks caseid) (rs_j st) with
      | Done r =>
          extract_segments_loop tracks cases
            (RunState (cr_j r)
               (saveCaseSegments (rs_fs st) caseid (cr_positiveSegments r)
                                 (cr_negativeSegments r))
               (rs_scanned st ++ [caseid]))
      | UnboundLocalError =>
          Raised (RunState (rs_j st) (rs_fs st) (rs_scanned st ++ [caseid]))
      | OutOfFuel => Unfinished
      end.
Proof. reflexivity. Qed.

Lemma dip_case jvar :
  process_case dip_track jvar
  = Done (CaseResult 0 [(16, 174)] [] [] [] (Some 175)).
Proof.
  unfold dip_track. rewrite process_case_per_second.
  destruct jvar; vm_compute; reflexivity.
Qed.

Lemma steady_case_bound :
  process_case steady_track (Some 175)
  = Done (CaseResult 0 [] [(0, 1800)] []
            [(600, 660); (900, 960); (1200, 1260)] (Some 175)).
Proof.
  unfold steady_track. rewrite process_case_per_second.
  vm_compute; reflexivity.
Qed.

(** * The claims *)

Lemma increasing_lookup l m n a b :
  increasing l -> (m < n)%nat -> l !! m = Some a -> l !! n = Some b ->
  ends_before a b.
Proof.
  unfold increasing. intros Hs. revert m n.
  induction Hs as [|x l Hs IH Hx]; intros m n Hmn Hm Hn; [discriminate|].
  destruct n as [|n]; [lia|]. simpl in Hn.
  destruct m as [|m]; simpl in Hm.
  - injection Hm as ->. rewrite Forall_forall in Hx.
    apply Hx. eapply list_elem_of_lookup_2; eauto.
  - apply (IH m n); [lia|exact Hm|exact Hn].
Qed.

(** C1.  For every case (whatever [j] is on entry) the first pass ends,
    and its IOH events are in strictly increasing order, each ending
    before the next starts; no two of them overlap, under the overlap
    test of the code in either direction and as half-open intervals;
    every event has [end > start] and [end - start >= 60]. *)
Theorem C1_ioh_events_increasing (abp : list sample) (jvar : option Z) :
  exists st,
    first_pass_of abp jvar = Some st /\
    increasing (fp_iohEvents st) /\
    Forall event_ok (fp_iohEvents st) /\
    forall m n a b,
      (m < n)%nat ->
      fp_iohEvents st !! m = Some a -> fp_iohEvents st !! n = Some b ->
      a.2 < b.1 /\ overlaps a b = false /\ overlaps b a = false /\
      ~ intersects a b.
Proof.
  destruct (first_pass_inv (track_length_seconds abp) (window_mean abp) jvar)
    as (st & Hfp & Hinv).
  exists st. split; [exact Hfp|].
  split; [exact (fpi_incr st Hinv)|]. split; [exact (fpi_ok st Hinv)|].
  intros m n a b Hmn Ha Hb.
  pose proof (increasing_lookup _ _ _ _ _ (fpi_incr st Hinv) Hmn Ha Hb) as Hab.
  pose proof (fpi_ok st Hinv) as Hok. rewrite Forall_forall in Hok.
  assert (Hoka : event_ok a) by (apply Hok; eapply list_elem_of_lookup_2; eauto).
  assert (Hokb : event_ok b) by (apply Hok; eapply list_elem_of_lookup_2; eauto).
  split; [exact Hab|].
  apply ends_before_no_overlap; unfold event_ok in *; auto; lia.
Qed.

(** C2, as stated, fails: on the track of scenario 1 the first pass does
    not end with the single event (300, 419). *)
Lemma C2_scenario1_not_300_419 :
  ~ exists st,
      first_pass_of scenario1_track None = Some st /\
      fp_trackStartIndex st = Some 0 /\
      fp_iohEvents st = [(300, 419)].
Proof.
  intros (st & Hfp & _ & Hev).
  rewrite scenario1_scan in Hfp. injection Hfp as <-.
  discriminate Hev.
Qed.

(** C2, amended.  On the track of 3600 seconds that is 70 mmHg over
    [0,300), 50 mmHg over [300,420) and 70 mmHg over [420,3600), the first
    pass sets [trackStartIndex] to 0 and yields exactly one IOH event,
    (256, 464): the minute from second 256 is the first whose mean is
    below 65, and the minute up to second 465 the first whose mean is back
    at 65. *)
Theorem C2_scenario1_first_pass (jvar : option Z) :
  track_length_seconds scenario1_track = 3600 /\
  exists st,
    first_pass_of scenario1_track jvar = Some st /\
    fp_trackStartIndex st = Some 0 /\
    fp_iohEvents st = [(256, 464)].
Proof.
  split.
  - unfold scenario1_track. rewrite per_second_length. reflexivity.
  - rewrite scenario1_scan. eexists. repeat split.
Qed.

Lemma contained_case jvar :
  process_case contained_track jvar
  = Done (CaseResult 0 [(983, 1800)] [(0, 1800); (1801, 3601)]
            [(803, 863, 3); (683, 743, 5); (383, 443, 10); (83, 143, 15)]
            [(600, 660); (900, 960); (1200, 1260);
             (2401, 2461); (2701, 2761); (3001, 3061)]
            (Some 3899)).
Proof.
  unfold contained_track. rewrite process_case_per_second.
  destruct jvar; vm_compute; reflexivity.
Qed.

(** C5, evaluated where it fails.  A window that starts before an event
    and ends at the very second the event ends shares seconds with it, and
    the test says so with the event as first argument, but not with the
    window as first argument, which is how the passes call it.  On the
    track that is at 50 mmHg over [1000,1783) the event is (983, 1800), and
    the second pass records (0, 1800) as a clean window all the same: its
    third negative segment, (1200, 1260), lies inside the event. *)
Theorem C5_overlaps_not_symmetric :
  overlaps (0, 1800) (983, 1800) = false /\
  overlaps (983, 1800) (0, 1800) = true /\
  intersects (0, 1800) (983, 1800) /\
  process_case contained_track None
  = Done (CaseResult 0 [(983, 1800)] [(0, 1800); (1801, 3601)]
            [(803, 863, 3); (683, 743, 5); (383, 443, 10); (83, 143, 15)]
            [(600, 660); (900, 960); (1200, 1260);
             (2401, 2461); (2701, 2761); (3001, 3061)]
            (Some 3899)).
Proof.
  split; [reflexivity|]. split; [reflexivity|]. split.
  - exists 1000. simpl. lia.
  - apply contained_case.
Qed.

(** C7.  The fourth pass emits, for each clean window in turn, exactly the
    three segments that start 600, 900 and 1200 seconds after the start of
    the window, in that order; every negative segment and every positive
    segment is 60 seconds long. *)
Theorem C7_negative_segments (iohEvents cleanEvents : list interval)
    (trackStartIndex : Z) :
  fourth_pass cleanEvents
  = flat_map (fun w => [(w.1 + 600, w.1 + 660); (w.1 + 900, w.1 + 960);
                        (w.1 + 1200, w.1 + 1260)]) cleanEvents /\
  length (fourth_pass cleanEvents) = (3 * length cleanEvents)%nat /\
  (forall k w, cleanEvents !! k = Some w ->
     fourth_pass cleanEvents !! (3 * k)%nat = Some (w.1 + 600, w.1 + 660) /\
     fourth_pass cleanEvents !! (3 * k + 1)%nat = Some (w.1 + 900, w.1 + 960) /\
     fourth_pass cleanEvents !! (3 * k + 2)%nat = Some (w.1 + 1200, w.1 + 1260)) /\
  Forall (fun seg => seg.2 - seg.1 = 60) (fourth_pass cleanEvents) /\
  Forall (fun seg => seg.1.2 - seg.1.1 = 60)
         (third_pass iohEvents trackStartIndex).
Proof.
  rewrite fourth_pass_spec.
  assert (Hflat : flat_map negative_of cleanEvents
                  = flat_map (fun w => [(w.1 + 600, w.1 + 660);
                                        (w.1 + 900, w.1 + 960);
                                        (w.1 + 1200, w.1 + 1260)]) cleanEvents).
  { apply flat_map_ext. intros w. unfold negative_of.
    rewrite <- !Z.add_assoc. reflexivity. }
  split; [exact Hflat|]. rewrite Hflat. clear Hflat.
  split; [|split; [|split]].
  - induction cleanEvents as [|w l IH]; simpl; [reflexivity|].
    rewrite IH. lia.
  - induction cleanEvents as [|w' l IH]; intros k w Hk; [discriminate|].
    destruct k as [|k]; simpl in Hk.
    + injection Hk as ->. repeat split.
    + replace (3 * S k)%nat with (S (S (S (3 * k)))) by lia.
      simpl. apply IH. exact Hk.
  - apply Forall_flat_map, Forall_forall. intros w _.
    repeat constructor; simpl; lia.
  - apply Forall_forall. intros seg Hin.
    apply list_elem_of_In, third_pass_In in Hin as (i & e & w & _ & _ & Hc).
    apply positive_candidate_Some in Hc as [-> _]. simpl. lia.
Qed.






(** C8.  Whenever the scan is live at a second [i] before the last minute
    of the track, the minute from [i] has a mean below 65, and no [j] of
    [i+60 .. track_length_seconds-1] has a trailing minute with a mean of
    at least 65, the iteration at [i] breaks out of the first pass: the
    pass ends there, with the event list as it was (nothing is appended
    for [i], nothing later is recorded) and [j] left at the last second of
    the track. *)
Theorem C8_unbounded_event_abandoned (abp : list sample) (fuel : nat)
    (st : fp_state) :
  fp_started st = true ->
  fp_i st < track_length_seconds abp - 60 ->
  mean_lt (window_mean abp (fp_i st) (fp_i st + 60)) 65%Q = true ->
  (forall j, fp_i st + 60 <= j < track_length_seconds abp ->
     mean_ge (window_mean abp (j - 60) j) 65%Q = false) ->
  first_pass_body (track_length_seconds abp) (window_mean abp) st
  = Break (FpState (fp_i st + 1) true (fp_trackStartIndex st)
                   (fp_iohEvents st) (Some (track_length_seconds abp - 1))) /\
  first_pass_loop (track_length_seconds abp) (window_mean abp) (S fuel) st
  = Some (FpState (fp_i st + 1) true (fp_trackStartIndex st)
                  (fp_iohEvents st) (Some (track_length_seconds abp - 1))).
Proof.
  intros Hst Hi Hlt Hnone.
  assert (Hbody : first_pass_body (track_length_seconds abp) (window_mean abp) st
                  = Break (FpState (fp_i st + 1) true (fp_trackStartIndex st)
                             (fp_iohEvents st)
                             (Some (track_length_seconds abp - 1)))).
  { unfold first_pass_body. rewrite Hst, Hlt. simpl.
    rewrite seek_end_no_recovery by (intros j' Hj'; apply Hnone; lia).
    destruct (Z.to_nat (track_length_seconds abp - (fp_i st + 60))) eqn:Hn;
      [lia|].
    rewrite <- Hn. do 3 f_equal. lia. }
  split; [exact Hbody|].
  simpl. rewrite Hbody.
  destruct (Z.ltb_spec (fp_i st) (track_length_seconds abp - 60)); [|lia].
  reflexivity.
Qed.

Lemma mixed_case jvar :
  process_case mixed_track jvar
  = Done (CaseResult 0 [(16, 159)] [(160, 1960)] []
            [(760, 820); (1060, 1120); (1360, 1420)] (Some 2199)).
Proof.
  unfold mixed_track. rewrite process_case_per_second.
  destruct jvar; vm_compute; reflexivity.
Qed.

Lemma mixed_length : track_length_seconds mixed_track = 2200.
Proof. unfold mixed_track. rewrite per_second_length. reflexivity. Qed.

Lemma mixed_no_recovery j :
  2031 <= j < 2200 ->
  mean_ge (window_mean mixed_track (j - 60) j) 65%Q = false.
Proof.
  intros Hj. unfold mixed_track. rewrite window_mean_per_second_ge.
  apply negb_true_iff.
  apply (forall_range
           (fun j => negb (mean_ge (second_mean mixed_seconds (j - 60) j) 65%Q))
           2031 169); [vm_compute; reflexivity|lia].
Qed.

Lemma C8_unbounded_event_abandoned_witness :
  first_pass_loop (track_length_seconds mixed_track) (window_mean mixed_track)
    1 (FpState 1971 true (Some 0) [(16, 159)] (Some 160))
  = Some (FpState 1972 true (Some 0) [(16, 159)]
            (Some (track_length_seconds mixed_track - 1))).
Proof.
  apply (C8_unbounded_event_abandoned mixed_track 0
           (FpState 1971 true (Some 0) [(16, 159)] (Some 160))).
  - reflexivity.
  - rewrite mixed_length. simpl. lia.
  - unfold mixed_track. rewrite window_mean_per_second_lt.
    vm_compute. reflexivity.
  - rewrite mixed_length. simpl. exact mixed_no_recovery.
Defined.

(** The clean windows of a case whose scan completes: each is exactly 1800
    seconds long and the overlap test is false between it and every IOH
    event of the case, which leaves one way for the two to share a second,
    the window starting before the event and ending where it ends; the
    windows are in strictly increasing order, each ending before the next
    starts, so that no two of them share a second. *)
Lemma clean_windows_shape (abp : list sample) (jvar : option Z)
    (r : case_result) :
  process_case abp jvar = Done r ->
  Forall (fun w => w.2 - w.1 = 1800 /\
                   forall e, In e (cr_iohEvents r) ->
                     overlaps w e = false /\
                     (intersects w e -> w.1 < e.1 /\ w.2 = e.2))
         (cr_cleanEvents r) /\
  increasing (cr_cleanEvents r) /\
  forall m n a b,
    (m < n)%nat ->
    cr_cleanEvents r !! m = Some a -> cr_cleanEvents r !! n = Some b ->
    a.2 < b.1 /\ overlaps a b = false /\ overlaps b a = false /\
    ~ intersects a b.
Proof.
  intros Hr.
  pose proof (run_passes_outcome (track_length_seconds abp) (window_mean abp)
                jvar) as H.
  unfold process_case in Hr. rewrite Hr in H.
  destruct H as (st & _ & _ & _ & _ & _ & _ & _ & Hok & Hincr).
  split; [|split; [exact Hincr|]].
  - eapply Forall_impl; [exact Hok|].
    intros w (Hlen & Hno & _). split; [exact Hlen|].
    intros e He. rewrite Forall_forall in Hno.
    assert (Ho : overlaps w e = false) by now apply Hno, list_elem_of_In.
    split; [exact Ho|].
    intros [t Ht]. apply overlaps_false_iff in Ho. lia.
  - intros m n a b Hmn Ha Hb.
    pose proof (increasing_lookup _ _ _ _ _ Hincr Hmn Ha Hb) as Hab.
    rewrite Forall_forall in Hok.
    assert (Hoka : a.2 - a.1 = 1800)
      by (apply Hok; eapply list_elem_of_lookup_2; eauto).
    assert (Hokb : b.2 - b.1 = 1800)
      by (apply Hok; eapply list_elem_of_lookup_2; eauto).
    split; [exact Hab|].
    apply ends_before_no_overlap; auto; lia.
Qed.

(** C4, evaluated where it fails.  On the track that is at 50 mmHg over
    [1000,1783) the first pass finds the event (983, 1800) and the second
    pass records the clean window (0, 1800): the window is not disjoint
    from the event, the two share the seconds from 983 to 1799.  The
    overlap test is false on them, for it misses a window that starts
    before an event and ends at the very second the event ends.  The rest
    of the claim holds of every case whose scan completes: each clean
    window is exactly 1800 seconds long, the overlap test is false between
    it and every event (so that the two can share a second in that one way
    only), and the windows are in strictly increasing order, no two of
    them sharing a second. *)
Theorem C4_clean_window_meets_event :
  (exists r,
     process_case contained_track None = Done r /\
     In (983, 1800) (cr_iohEvents r) /\
     In (0, 1800) (cr_cleanEvents r) /\
     overlaps (0, 1800) (983, 1800) = false /\
     intersects (0, 1800) (983, 1800) /\
     forall t, 983 <= t < 1800 -> 0 <= t < 1800) /\
  (forall abp jvar r,
     process_case abp jvar = Done r ->
     Forall (fun w => w.2 - w.1 = 1800 /\
                      forall e, In e (cr_iohEvents r) ->
                        overlaps w e = false /\
                        (intersects w e -> w.1 < e.1 /\ w.2 = e.2))
            (cr_cleanEvents r) /\
     increasing (cr_cleanEvents r) /\
     forall m n a b,
       (m < n)%nat ->
       cr_cleanEvents r !! m = Some a -> cr_cleanEvents r !! n = Some b ->
       a.2 < b.1 /\ overlaps a b = false /\ overlaps b a = false /\
       ~ intersects a b).
Proof.
  split; [|exact clean_windows_shape].
  eexists. split; [apply contained_case|]. simpl.
  split; [auto|]. split; [auto|]. split; [reflexivity|].
  split; [exists 1000; simpl; lia|lia].
Qed.

Lemma recovered_case jvar :
  process_case recovered_track jvar
  = Done (CaseResult 0 [(16, 229)] [] [] [] (Some 230)).
Proof.
  unfold recovered_track. rewrite process_case_per_second.
  destruct jvar; vm_compute; reflexivity.
Qed.

(** C3, evaluated where it fails.  On the track that is 70 mmHg for a
    minute, 50 for 140 seconds and 80 for the 2100 seconds after, the first
    pass finds the event (16, 229) and leaves [j = 230].  The candidate
    window (230, 2030) overlaps no event and its mean is 80, yet the
    iteration at cursor 230 records nothing and moves the cursor to 240:
    the recheck looks at (j - 1800, j) = (-1570, 230), which contains the
    event.  The case ends without a single clean window.  The other half
    of the claim holds throughout: a candidate window that overlaps no
    event and whose mean is not at least 75 moves the cursor by 10. *)
Theorem C3_clean_window_not_recorded :
  (forall wm iohEvents jvar i cleanEvents,
     scan_overlap (i, i + 1800) iohEvents = None ->
     mean_ge (wm i (i + 1800)) 75%Q = false ->
     second_pass_body wm iohEvents jvar (i, cleanEvents)
     = Done (i + 10, cleanEvents)) /\
  process_case recovered_track None
  = Done (CaseResult 0 [(16, 229)] [] [] [] (Some 230)) /\
  track_length_seconds recovered_track = 2300 /\
  scan_overlap (230, 230 + 1800) [(16, 229)] = None /\
  mean_ge (window_mean recovered_track 230 (230 + 1800)) 75%Q = true /\
  second_pass_body (window_mean recovered_track) [(16, 229)] (Some 230)
                   (230, [])
  = Done (240, []).
Proof.
  split.
  { intros wm iohEvents jvar i cleanEvents Hscan Hm.
    unfold second_pass_body. now rewrite Hscan, Hm. }
  split; [apply recovered_case|].
  split; [unfold recovered_track; rewrite per_second_length; reflexivity|].
  split; [reflexivity|].
  unfold recovered_track. split.
  - rewrite window_mean_per_second_ge. vm_compute. reflexivity.
  - rewrite (second_pass_body_ext _ (second_mean recovered_seconds))
      by (intros a b; apply per_second_window_mean).
    vm_compute. reflexivity.
Qed.

(** ** Persistence *)

Lemma length_eqb_0 {A : Type} (l : list A) :
  (length l =? 0)%nat = true <-> l = [].
Proof.
  destruct l; simpl; split; intros; congruence.
Qed.

Lemma saveCaseSegments_empty fs caseid :
  saveCaseSegments fs caseid [] [] = fs.
Proof. reflexivity. Qed.

Lemma saveCaseSegments_cached fs caseid positiveSegments negativeSegments :
  areCaseSegmentsCached fs caseid = false ->
  positiveSegments <> [] \/ negativeSegments <> [] ->
  areCaseSegmentsCached
    (saveCaseSegments fs caseid positiveSegments negativeSegments) caseid
  = true.
Proof.
  unfold areCaseSegmentsCached, saveCaseSegments. intros Hfs Hne.
  destruct (fs !! caseid) eqn:Hl; [discriminate|].
  destruct ((length positiveSegments =? 0)%nat
            && (length negativeSegments =? 0)%nat) eqn:Hlen.
  - apply andb_true_iff in Hlen as [Hp%length_eqb_0 Hn%length_eqb_0].
    tauto.
  - now rewrite lookup_insert_eq.
Qed.

Lemma extract_segments_single tracks caseid fs :
  extract_segments tracks [caseid] fs
  = if areCaseSegmentsCached fs caseid then Finished (RunState None fs [])
    else
      match process_case (tracks caseid) None with
      | Done r =>
          Finished (RunState (cr_j r)
                      (saveCaseSegments fs caseid (cr_positiveSegments r)
                                        (cr_negativeSegments r))
                      [caseid])
      | UnboundLocalError => Raised (RunState None fs [caseid])
      | OutOfFuel => Unfinished
      end.
Proof.
  unfold extract_segments. rewrite extract_segments_loop_cons.
  cbn [rs_fs rs_j rs_scanned app].
  destruct (areCaseSegmentsCached fs caseid); [reflexivity|].
  destruct (process_case (tracks caseid) None); reflexivity.
Qed.

Lemma areCaseSegmentsCached_empty caseid :
  areCaseSegmentsCached ∅ caseid = false.
Proof. unfold areCaseSegmentsCached. now rewrite lookup_empty. Qed.

Lemma brief_case :
  process_case (brief_tracks 1) None = Done (CaseResult 0 [] [] [] [] None).
Proof.
  unfold brief_tracks, brief_track. rewrite process_case_per_second.
  vm_compute. reflexivity.
Qed.

Lemma brief_run :
  extract_segments brief_tracks [1] ∅ = Finished (RunState None ∅ [1]).
Proof.
  rewrite extract_segments_single, areCaseSegmentsCached_empty, brief_case.
  reflexivity.
Qed.

(** C9, as stated, fails for a case without segments: a steady track of
    62 seconds at 70 mmHg yields no segment, the first run leaves no folder
    for it, and the second run reads and scans the track again. *)
Lemma C9_zero_segment_case_rescanned :
  process_case (brief_tracks 1) None = Done (CaseResult 0 [] [] [] [] None) /\
  exists st1,
    extract_segments brief_tracks [1] ∅ = Finished st1 /\
    areCaseSegmentsCached (rs_fs st1) 1 = false /\
    exists st2,
      extract_segments brief_tracks [1] (rs_fs st1) = Finished st2 /\
      rs_scanned st2 = [1].
Proof.
  split; [exact brief_case|].
  exists (RunState None ∅ [1]). split; [exact brief_run|].
  split; [apply areCaseSegmentsCached_empty|].
  exists (RunState None ∅ [1]). split; [exact brief_run|reflexivity].
Qed.

(** C9, amended.  Running the pipeline twice on the same case persists
    nothing more on the second run: both runs end, and the second leaves
    the folders as the first left them.  If the first run left a folder for
    the case (it was there before, or the scan yielded at least one
    segment), the second run skips the case before reading its track.  If
    it left none, the scan had failed or had yielded no segment at all, and
    the second run reads and scans the track again. *)
Theorem C9_second_run (tracks : Z -> list sample) (caseid : Z)
    (fs0 : gmap Z case_folder) :
  exists st1 st2,
    final_state (extract_segments tracks [caseid] fs0) = Some st1 /\
    final_state (extract_segments tracks [caseid] (rs_fs st1)) = Some st2 /\
    rs_fs st2 = rs_fs st1 /\
    (areCaseSegmentsCached (rs_fs st1) caseid = true ->
       extract_segments tracks [caseid] (rs_fs st1) = Finished st2 /\
       rs_scanned st2 = []) /\
    (areCaseSegmentsCached (rs_fs st1) caseid = false ->
       rs_scanned st2 = [caseid] /\
       (process_case (tracks caseid) None = UnboundLocalError \/
        exists r, process_case (tracks caseid) None = Done r /\
                  cr_positiveSegments r = [] /\ cr_negativeSegments r = [])) /\
    (areCaseSegmentsCached (rs_fs st1) caseid = true <->
       areCaseSegmentsCached fs0 caseid = true \/
       exists r, process_case (tracks caseid) None = Done r /\
                 (cr_positiveSegments r <> [] \/ cr_negativeSegments r <> [])).
Proof.
  rewrite extract_segments_single.
  destruct (areCaseSegmentsCached fs0 caseid) eqn:Hc0.
  - exists (RunState None fs0 []), (RunState None fs0 []).
    cbn [rs_fs rs_scanned rs_j final_state].
    rewrite extract_segments_single, Hc0.
    repeat split; auto; congruence.
  - pose proof (run_passes_outcome (track_length_seconds (tracks caseid))
                  (window_mean (tracks caseid)) None) as Hout.
    fold (process_case (tracks caseid) None) in Hout.
    destruct (process_case (tracks caseid) None) as [r| |] eqn:Hr;
      [|clear Hout|destruct Hout].
    + destruct (cr_positiveSegments r) as [|p ps] eqn:Hp;
        [destruct (cr_negativeSegments r) as [|n ns] eqn:Hn|].
      * rewrite saveCaseSegments_empty.
        exists (RunState (cr_j r) fs0 [caseid]),
               (RunState (cr_j r) fs0 [caseid]).
        cbn [rs_fs rs_scanned rs_j final_state].
        rewrite extract_segments_single, Hc0, Hr, Hp, Hn,
          saveCaseSegments_empty.
        repeat split; auto; try congruence.
        -- right. exists r. auto.
        -- intros [?|(r' & [= <-] & [?|?])]; congruence.
      * pose proof (saveCaseSegments_cached fs0 caseid [] (n :: ns) Hc0
                      ltac:(right; discriminate)) as Hc1.
        exists (RunState (cr_j r) (saveCaseSegments fs0 caseid [] (n :: ns))
                         [caseid]),
               (RunState None (saveCaseSegments fs0 caseid [] (n :: ns)) []).
        cbn [rs_fs rs_scanned rs_j final_state].
        rewrite extract_segments_single, Hc1.
        repeat split; auto; try congruence.
        intros _. right. exists r. split; [reflexivity|]. right. congruence.
      * pose proof (saveCaseSegments_cached fs0 caseid (p :: ps)
                      (cr_negativeSegments r) Hc0
                      ltac:(left; discriminate)) as Hc1.
        exists (RunState (cr_j r)
                  (saveCaseSegments fs0 caseid (p :: ps) (cr_negativeSegments r))
                  [caseid]),
               (RunState None
                  (saveCaseSegments fs0 caseid (p :: ps) (cr_negativeSegments r))
                  []).
        cbn [rs_fs rs_scanned rs_j final_state].
        rewrite extract_segments_single, Hc1.
        repeat split; auto; try congruence.
        intros _. right. exists r. split; [reflexivity|]. left. congruence.
    + exists (RunState None fs0 [caseid]), (RunState None fs0 [caseid]).
      cbn [rs_fs rs_scanned rs_j final_state].
      rewrite extract_segments_single, Hc0, Hr.
      repeat split; auto; try congruence.
      intros [?|(r' & ? & _)]; congruence.
Qed.

(** One run on the track with a clean window leaves a folder. *)
Lemma mixed_run :
  extract_segments mixed_tracks [7] ∅
  = Finished (RunState (Some 2199)
                (saveCaseSegments ∅ 7 []
                   [(760, 820); (1060, 1120); (1360, 1420)])
                [7]).
Proof.
  rewrite extract_segments_single, areCaseSegmentsCached_empty.
  unfold mixed_tracks. rewrite mixed_case. reflexivity.
Qed.

(** ** The unbound [j] *)

Section Unbound.

Variable tls : Z.
Variable wm : Z -> Z -> mean.

(** The list of clean windows only grows. *)
Lemma second_pass_loop_grows iohEvents jvar fuel st cleanEvents :
  second_pass_loop tls wm iohEvents jvar fuel st = Done cleanEvents ->
  exists more, cleanEvents = st.2 ++ more.
Proof.
  revert st; induction fuel as [|fuel IH]; intros [i clean]; simpl.
  - destruct (i <? tls - 1800); [discriminate|].
    intros [= <-]. exists []. now rewrite app_nil_r.
  - destruct (i <? tls - 1800);
      [|intros [= <-]; exists []; now rewrite app_nil_r].
    destruct (scan_overlap (i, i + 1800) iohEvents).
    + apply IH.
    + destruct (mean_ge _ _); [|apply IH].
      destruct jvar as [j|]; [|discriminate].
      destruct (scan_overlap (j - 1800, j) iohEvents); [apply IH|].
      intros (more & ->)%IH. simpl. rewrite <- app_assoc. eauto.
Qed.

(** With no IOH event and [j] bound, the second pass records the first
    candidate window whose mean reaches 75. *)
Lemma second_pass_loop_bound k fuel i cleanEvents j result :
  i + 10 * Z.of_nat k < tls - 1800 ->
  mean_ge (wm (i + 10 * Z.of_nat k) (i + 10 * Z.of_nat k + 1800)) 75%Q = true ->
  second_pass_loop tls wm [] (Some j) fuel (i, cleanEvents) = Done result ->
  result <> [].
Proof.
  revert fuel i; induction k as [|k IH]; intros fuel i Hlt Hm;
    destruct fuel as [|fuel]; simpl.
  - destruct (Z.ltb_spec i (tls - 1800)); [discriminate|lia].
  - replace (i + 10 * Z.of_nat 0) with i in * by lia.
    destruct (Z.ltb_spec i (tls - 1800)); [|lia].
    rewrite Hm. intros (more & ->)%second_pass_loop_grows. simpl.
    now destruct cleanEvents.
  - destruct (Z.ltb_spec i (tls - 1800)); [discriminate|lia].
  - destruct (Z.ltb_spec i (tls - 1800)); [|lia].
    destruct (mean_ge (wm i (i + 1800)) 75%Q).
    + intros (more & ->)%second_pass_loop_grows. simpl.
      now destruct cleanEvents.
    + apply IH.
      * replace (i + 10 + 10 * Z.of_nat k) with (i + 10 * Z.of_nat (S k))
          by lia.
        exact Hlt.
      * replace (i + 10 + 10 * Z.of_nat k) with (i + 10 * Z.of_nat (S k))
          by lia.
        exact Hm.
Qed.

(** A first pass that goes live at [s] and meets no minute below 65
    afterwards, followed by a second pass that meets a candidate window
    with a mean of at least 75. *)
Lemma run_passes_quiet jvar st s k :
  first_pass tls wm jvar = Some st ->
  fp_trackStartIndex st = Some s ->
  (forall i, s < i < tls - 60 -> mean_lt (wm i (i + 60)) 65%Q = false) ->
  0 <= k -> s + 10 * k < tls - 1800 ->
  mean_ge (wm (s + 10 * k) (s + 10 * k + 1800)) 75%Q = true ->
  match jvar with
  | None => run_passes tls wm jvar = UnboundLocalError
  | Some _ => exists r, run_passes tls wm jvar = Done r /\
                        cr_iohEvents r = [] /\ cr_cleanEvents r <> []
  end.
Proof.
  intros Hfp Hs Hquiet Hk Hlt Hm.
  destruct (first_pass_inv tls wm jvar) as (st0 & Hfp0 & Hinv).
  assert (st0 = st) as -> by congruence.
  pose proof (first_pass_loop_quiet tls wm _ _ _ s Hquiet Hfp Hs) as Hq.
  destruct Hq as [Hev Hj]; simpl.
  { constructor; simpl; auto; try constructor; try lia. congruence. }
  { discriminate. }
  simpl in Hev, Hj.
  pose proof (fpi_start st Hinv) as Hstart. rewrite Hs in Hstart.
  replace k with (Z.of_nat (Z.to_nat k)) in Hlt, Hm by lia.
  destruct jvar as [j|].
  - pose proof (run_passes_outcome tls wm (Some j)) as Hout.
    destruct (run_passes_bound tls wm j) as (r & Hr).
    rewrite Hr in Hout.
    destruct Hout as (st' & Hfp' & _ & Hev' & _ & _).
    assert (st' = st) as -> by congruence.
    exists r. split; [exact Hr|]. split; [congruence|].
    unfold run_passes in Hr. rewrite Hfp, Hs, Hev, Hj in Hr.
    unfold second_pass in Hr.
    destruct (second_pass_loop tls wm [] (Some j) (Z.to_nat tls) (s, []))
      as [cleanEvents| |] eqn:Hsp; try discriminate.
    injection Hr as <-. simpl.
    eapply second_pass_loop_bound; eauto.
  - unfold run_passes. rewrite Hfp, Hs, Hev, Hj.
    unfold second_pass.
    rewrite (second_pass_loop_unbound tls wm (Z.to_nat k)); [reflexivity| | |];
      auto; lia.
Qed.

End Unbound.

Lemma seek_end_same wm n j jvar1 jvar2 :
  (seek_end wm n j jvar1).1 = (seek_end wm n j jvar2).1.
Proof.
  revert j jvar1 jvar2; induction n as [|n IH]; intros j jvar1 jvar2; simpl;
    [reflexivity|].
  destruct (mean_ge _ _); [reflexivity|apply IH].
Qed.

Lemma first_pass_loop_same tls wm fuel st1 st2 :
  same_scan st1 st2 ->
  match first_pass_loop tls wm fuel st1, first_pass_loop tls wm fuel st2 with
  | Some st1', Some st2' => same_scan st1' st2'
  | None, None => True
  | _, _ => False
  end.
Proof.
  revert st1 st2; induction fuel as [|fuel IH];
    intros [i1 b1 t1 e1 j1] [i2 b2 t2 e2 j2] (Hi & Hb & Ht & He);
    simpl in *; subst i2 b2 t2 e2.
  - destruct (i1 <? tls - 60); [exact I|]. repeat split.
  - destruct (i1 <? tls - 60); [|repeat split].
    unfold first_pass_body. simpl.
    destruct b1; simpl.
    + destruct (mean_lt _ _); [|apply IH; repeat split].
      pose proof (seek_end_same wm (Z.to_nat (tls - (i1 + 60))) (i1 + 60)
                    j1 j2) as Hseek.
      destruct (seek_end wm _ _ j1) as [[e|] jv1],
        (seek_end wm _ _ j2) as [[e'|] jv2]; simpl in Hseek;
        try discriminate.
      * injection Hseek as <-. apply IH. repeat split.
      * repeat split.
    + destruct (mean_ge _ _); apply IH; repeat split.
Qed.

Lemma first_pass_same tls wm jvar1 jvar2 st1 :
  first_pass tls wm jvar1 = Some st1 ->
  exists st2, first_pass tls wm jvar2 = Some st2 /\ same_scan st1 st2.
Proof.
  unfold first_pass. intros H1.
  pose proof (first_pass_loop_same tls wm (Z.to_nat tls)
                (FpState 0 false None [] jvar1)
                (FpState 0 false None [] jvar2)) as H.
  rewrite H1 in H.
  destruct (first_pass_loop tls wm _ (FpState 0 false None [] jvar2)) as [st2|].
  - exists st2. split; [reflexivity|]. apply H. repeat split.
  - destruct H. repeat split.
Qed.

Lemma two_case_tracks_1 : two_case_tracks 1 = dip_track.
Proof. reflexivity. Qed.

Lemma two_case_tracks_2 : two_case_tracks 2 = steady_track.
Proof. reflexivity. Qed.

Lemma steady_length : track_length_seconds steady_track = 1802.
Proof. unfold steady_track. rewrite per_second_length. reflexivity. Qed.

Lemma steady_first_pass jvar :
  first_pass_of steady_track jvar
  = Some (FpState 1742 true (Some 0) [] jvar).
Proof.
  unfold steady_track. rewrite first_pass_per_second.
  destruct jvar; vm_compute; reflexivity.
Qed.

Lemma steady_quiet i :
  0 < i < 1802 - 60 ->
  mean_lt (window_mean steady_track i (i + 60)) 65%Q = false.
Proof.
  intros Hi. unfold steady_track. rewrite window_mean_per_second_lt.
  apply negb_true_iff.
  apply (forall_range
           (fun i => negb (mean_lt (second_mean steady_seconds i (i + 60)) 65%Q))
           1 1741); [vm_compute; reflexivity|lia].
Qed.

Lemma steady_window :
  mean_ge (window_mean steady_track (0 + 10 * 0) (0 + 10 * 0 + 1800)) 75%Q
  = true.
Proof.
  unfold steady_track. rewrite window_mean_per_second_ge.
  vm_compute. reflexivity.
Qed.

Lemma two_case_run :
  extract_segments two_case_tracks [1; 2] ∅
  = Finished (RunState (Some 175)
                (saveCaseSegments ∅ 2 []
                   [(600, 660); (900, 960); (1200, 1260)])
                [1; 2]).
Proof.
  unfold extract_segments.
  rewrite extract_segments_loop_cons. cbn [rs_fs rs_j rs_scanned].
  rewrite areCaseSegmentsCached_empty, two_case_tracks_1, dip_case.
  cbn [cr_j cr_positiveSegments cr_negativeSegments].
  rewrite saveCaseSegments_empty.
  rewrite extract_segments_loop_cons. cbn [rs_fs rs_j rs_scanned].
  rewrite areCaseSegmentsCached_empty, two_case_tracks_2, steady_case_bound.
  reflexivity.
Qed.

(** C10, as stated, fails for a case that is not the first of its run: the
    variable [j] outlives the iteration of the loop over cases that bound
    it.  Case 1 has a dip, so its recovery search leaves [j = 175].  Case 2
    is steady at 80 mmHg: its first pass goes live at second 0 and enters no
    event search, its candidate window (0, 1800) has a mean of at least 75,
    and yet its second pass does not fail: it reads the stale [j] and
    records the window, whose three segments are persisted. *)
Lemma C10_stale_j_from_earlier_case :
  extract_segments two_case_tracks [1; 2] ∅
  = Finished (RunState (Some 175)
                (saveCaseSegments ∅ 2 []
                   [(600, 660); (900, 960); (1200, 1260)])
                [1; 2]) /\
  process_case (two_case_tracks 1) None
  = Done (CaseResult 0 [(16, 174)] [] [] [] (Some 175)) /\
  first_pass_of (two_case_tracks 2) (Some 175)
  = Some (FpState 1742 true (Some 0) [] (Some 175)) /\
  (forall i, 0 < i < track_length_seconds (two_case_tracks 2) - 60 ->
     mean_lt (window_mean (two_case_tracks 2) i (i + 60)) 65%Q = false) /\
  mean_ge (window_mean (two_case_tracks 2) (0 + 10 * 0) (0 + 10 * 0 + 1800))
          75%Q = true /\
  process_case (two_case_tracks 2) (Some 175)
  = Done (CaseResult 0 [] [(0, 1800)] []
            [(600, 660); (900, 960); (1200, 1260)] (Some 175)).
Proof.
  split; [exact two_case_run|].
  rewrite two_case_tracks_1, two_case_tracks_2, steady_length.
  split; [apply dip_case|].
  split; [apply steady_first_pass|].
  split; [exact steady_quiet|].
  split; [exact steady_window|exact steady_case_bound].
Qed.

(** C10, amended.  Take a case that is processed while [j] is still
    unbound (no earlier case of the same run entered a recovery search).
    If its first pass goes live at [s] and no minute after [s] has a mean
    below 65 (so that no recovery search is entered), and some candidate
    window of the second pass, [s + 10*k] seconds in, has a mean of at
    least 75, then the second pass reads the unbound [j] and the scan fails
    instead of recording a clean window.  Entered with [j] bound, the same
    case completes and records a clean window. *)
Theorem C10_unbound_j_fails (abp : list sample) (st : fp_state) (s k : Z) :
  first_pass_of abp None = Some st ->
  fp_trackStartIndex st = Some s ->
  (forall i, s < i < track_length_seconds abp - 60 ->
     mean_lt (window_mean abp i (i + 60)) 65%Q = false) ->
  0 <= k -> s + 10 * k < track_length_seconds abp - 1800 ->
  mean_ge (window_mean abp (s + 10 * k) (s + 10 * k + 1800)) 75%Q = true ->
  process_case abp None = UnboundLocalError /\
  forall j, exists r,
    process_case abp (Some j) = Done r /\
    cr_iohEvents r = [] /\ cr_cleanEvents r <> [].
Proof.
  intros Hfp Hs Hquiet Hk Hlt Hm. split.
  - exact (run_passes_quiet _ _ None st s k Hfp Hs Hquiet Hk Hlt Hm).
  - intros j.
    destruct (first_pass_same _ _ None (Some j) st Hfp)
      as (st' & Hfp' & _ & _ & Hs' & _).
    rewrite Hs in Hs'. symmetry in Hs'.
    exact (run_passes_quiet _ _ (Some j) st' s k Hfp' Hs' Hquiet Hk Hlt Hm).
Qed.

Lemma C10_unbound_j_fails_witness :
  process_case steady_track None = UnboundLocalError /\
  forall j, exists r,
    process_case steady_track (Some j) = Done r /\
    cr_iohEvents r = [] /\ cr_cleanEvents r <> [].
Proof.
  apply (C10_unbound_j_fails steady_track
           (FpState 1742 true (Some 0) [] None) 0 0).
  - apply steady_first_pass.
  - reflexivity.
  - rewrite steady_length. exact steady_quiet.
  - lia.
  - rewrite steady_length. lia.
  - exact steady_window.
Defined.

(** * Further properties *)

(** ** What the first pass finds *)

Section FirstPassSeen.

Variable tls : Z.
Variable wm : Z -> Z -> mean.

(** A property kept by every iteration that continues holds when the loop
    ends, or held at the iteration that broke out of it. *)
Lemma first_pass_loop_run (P : fp_state -> Prop) :
  (forall st st', P st -> fp_i st < tls - 60 ->
     first_pass_body tls wm st = Continue st' -> P st') ->
  forall fuel st st',
    P st -> first_pass_loop tls wm fuel st = Some st' ->
    exists st0, P st0 /\
      ((tls - 60 <= fp_i st0 /\ st' = st0) \/
       (fp_i st0 < tls - 60 /\ first_pass_body tls wm st0 = Break st')).
Proof.
  intros Hstep. induction fuel as [|fuel IH]; intros st st' HP; simpl.
  - destruct (Z.ltb_spec (fp_i st) (tls - 60)); [discriminate|].
    intros [= <-]. exists st. auto.
  - destruct (Z.ltb_spec (fp_i st) (tls - 60));
      [|intros [= <-]; exists st; auto].
    destruct (first_pass_body tls wm st) as [st1|st1] eqn:Hbody.
    + apply IH. eapply Hstep; eauto.
    + intros [= <-]. exists st. auto.
Qed.

Lemma last_snoc {A : Type} (l : list A) (x : A) : last (l ++ [x]) = Some x.
Proof.
  induction l as [|y l IH]; [reflexivity|].
  simpl. destruct (l ++ [x]) eqn:Hl; [now destruct l|exact IH].
Qed.

Lemma first_pass_body_seen jvar st st' :
  fp_seen tls wm jvar st -> fp_i st < tls - 60 ->
  first_pass_body tls wm st = Continue st' ->
  fp_seen tls wm jvar st'.
Proof.
  intros [Hinv Hev Hlive Hscan Hj] Hlt Hbody.
  pose proof (first_pass_body_inv tls wm st Hinv Hlt) as Hinv'.
  rewrite Hbody in Hinv'. destruct Hinv' as [Hinv' _].
  pose proof (fpi_start st Hinv) as Hstart.
  pose proof (fpi_past st Hinv) as Hpast.
  pose proof (fpi_i st Hinv) as Hi.
  unfold first_pass_body in Hbody.
  destruct (fp_trackStartIndex st) as [s|] eqn:Hs.
  - destruct Hstart as [Hst _]. rewrite Hst in Hbody. simpl in Hbody.
    destruct Hlive as (Hs0 & Hs1 & Hsge & Hbefore & Hafter).
    destruct (mean_lt (wm (fp_i st) (fp_i st + 60)) 65%Q) eqn:Hm.
    + destruct (seek_end wm _ _ _) as [[e|] jv] eqn:Hseek; [|discriminate].
      injection Hbody as <-.
      apply seek_end_found in Hseek as (Hr & -> & Hge & Hall).
      assert (He : fp_i st + 60 < e + 1).
      { destruct (Z.eq_dec (e + 1) (fp_i st + 60)) as [Heq|]; [|lia].
        apply mean_lt_not_ge in Hm. rewrite Heq in Hge.
        replace (fp_i st + 60 - 60) with (fp_i st) in Hge by lia.
        congruence. }
      constructor; simpl; [exact Hinv'| | | |].
      * apply Forall_app; split; [exact Hev|].
        constructor; [|constructor].
        repeat split; simpl; auto; [|lia].
        intros j Hj'. apply Hall. lia.
      * repeat split; auto; try lia.
        apply Forall_app; split; [exact Hafter|].
        constructor; [simpl; lia|constructor].
      * intros s' i [= <-] Hi' Hlt'.
        destruct (Z.lt_ge_cases i (fp_i st)) as [Hbefore'|Hin].
        -- destruct (Hscan s i eq_refl ltac:(lia) Hlt') as (e' & He' & Hie).
           exists e'. split; [apply in_or_app; now left|exact Hie].
        -- exists (fp_i st, e). split; [apply in_or_app; right; now left|].
           simpl. lia.
      * right. exists (fp_i st, e). split; [apply last_snoc|reflexivity].
    + injection Hbody as <-.
      constructor; simpl; [exact Hinv'|exact Hev| | |exact Hj].
      * repeat split; auto; lia.
      * intros s' i [= <-] Hi' Hlt'.
        destruct (Z.eq_dec i (fp_i st)) as [->|]; [congruence|].
        apply (Hscan s i eq_refl); [lia|exact Hlt'].
  - destruct Hstart as [Hst Hnil]. rewrite Hst in Hbody. simpl in Hbody.
    destruct (mean_ge (wm (fp_i st) (fp_i st + 60)) 65%Q) eqn:Hm;
      injection Hbody as <-;
      (constructor; simpl; [exact Hinv'|exact Hev| | |exact Hj]).
    + repeat split; auto; try lia. rewrite Hnil. constructor.
    + intros s' i [= <-] Hi'. lia.
    + intros i Hi'.
      destruct (Z.eq_dec i (fp_i st)) as [->|]; [exact Hm|].
      apply Hlive. lia.
    + discriminate.
Qed.

(** What the first pass leaves: the scanned part of the track up to the
    end of the loop, or up to the second at which the pass broke off. *)
Lemma first_pass_seen jvar st :
  first_pass tls wm jvar = Some st ->
  exists st0, fp_seen tls wm jvar st0 /\
    ((tls - 60 <= fp_i st0 /\ st = st0) \/
     (unrecovered tls wm (fp_i st0) /\
      fp_started st0 = true /\
      st = FpState (fp_i st0 + 1) true (fp_trackStartIndex st0)
                   (fp_iohEvents st0) (Some (tls - 1)))).
Proof.
  intros Hfp.
  apply (first_pass_loop_run (fp_seen tls wm jvar)) in Hfp
    as (st0 & Hseen & Hend).
  - exists st0. split; [exact Hseen|].
    destruct Hend as [Hend|[Hlt Hbody]]; [now left|right].
    pose proof (fpi_i st0 (fps_inv _ _ _ _ Hseen)) as Hi.
    unfold first_pass_body in Hbody.
    destruct (fp_started st0) eqn:Hst; simpl in Hbody;
      [|destruct (mean_ge _ _); discriminate].
    destruct (mean_lt (wm (fp_i st0) (fp_i st0 + 60)) 65%Q) eqn:Hm;
      [|discriminate].
    destruct (seek_end wm _ _ _) as [[e|] jv] eqn:Hseek; [discriminate|].
    injection Hbody as <-.
    apply seek_end_exhausted in Hseek as (Hall & ->).
    split; [|split; [reflexivity|]].
    + repeat split; auto; try lia. intros j Hj. apply Hall. lia.
    + destruct (Z.to_nat (tls - (fp_i st0 + 60))) eqn:Hn; [lia|].
      rewrite <- Hn. do 2 f_equal. lia.
  - intros st1 st2. apply first_pass_body_seen.
  - constructor; simpl; auto.
    + constructor; simpl; auto; try constructor; try lia. congruence.
    + intros i Hi. lia.
    + intros s i [=].
Qed.

End FirstPassSeen.

(** X1.  The first pass always ends, and the start-of-signal index it
    leaves is the first second of the scanned range whose minute has a mean
    of at least 65: no earlier second has one.  When it leaves none, no
    second of the range has one and no event was recorded (the later passes
    then start from 0). *)
Theorem X1_track_start_is_first_live_second (abp : list sample)
    (jvar : option Z) :
  exists st,
    first_pass_of abp jvar = Some st /\
    match fp_trackStartIndex st with
    | Some s =>
        0 <= s < track_length_seconds abp - 60 /\
        mean_ge (window_mean abp s (s + 60)) 65%Q = true /\
        forall i, 0 <= i < s ->
          mean_ge (window_mean abp i (i + 60)) 65%Q = false
    | None =>
        fp_iohEvents st = [] /\
        forall i, 0 <= i < track_length_seconds abp - 60 ->
          mean_ge (window_mean abp i (i + 60)) 65%Q = false
    end.
Proof.
  destruct (first_pass_inv (track_length_seconds abp) (window_mean abp) jvar)
    as (st & Hfp & _).
  exists st. split; [exact Hfp|].
  apply first_pass_seen in Hfp as (st0 & Hseen & Hend).
  pose proof (fps_live _ _ _ _ Hseen) as Hlive.
  pose proof (fpi_start _ (fps_inv _ _ _ _ Hseen)) as Hstart.
  destruct Hend as [[Hend ->]|(_ & Hst & ->)]; simpl.
  - destruct (fp_trackStartIndex st0) as [s|].
    + destruct Hlive as (? & ? & ? & ? & _). repeat split; auto; lia.
    + destruct Hstart as [_ Hnil]. split; [exact Hnil|].
      intros i Hi. apply Hlive. lia.
  - destruct (fp_trackStartIndex st0) as [s|].
    + destruct Hlive as (? & ? & ? & ? & _). repeat split; auto; lia.
    + destruct Hstart; congruence.
Qed.

(** X2.  Every IOH event the first pass records is borne out by the track:
    it starts after the start of signal at a second whose minute has a mean
    below 65, the minute up to the second after its end has a mean of at
    least 65, no earlier second of the search has such a minute, and that
    second is inside the track. *)
Theorem X2_events_are_sound (abp : list sample) (jvar : option Z) :
  exists st,
    first_pass_of abp jvar = Some st /\
    forall e, In e (fp_iohEvents st) ->
      (exists s, fp_trackStartIndex st = Some s /\ s < e.1) /\
      mean_lt (window_mean abp e.1 (e.1 + 60)) 65%Q = true /\
      mean_ge (window_mean abp (e.2 + 1 - 60) (e.2 + 1)) 65%Q = true /\
      (forall j, e.1 + 60 <= j <= e.2 ->
         mean_ge (window_mean abp (j - 60) j) 65%Q = false) /\
      e.2 + 1 < track_length_seconds abp.
Proof.
  destruct (first_pass_inv (track_length_seconds abp) (window_mean abp) jvar)
    as (st & Hfp & _).
  exists st. split; [exact Hfp|].
  apply first_pass_seen in Hfp as (st0 & Hseen & Hend).
  pose proof (fps_live _ _ _ _ Hseen) as Hlive.
  pose proof (fps_events _ _ _ _ Hseen) as Hev.
  assert (Hsame : fp_iohEvents st = fp_iohEvents st0 /\
                  fp_trackStartIndex st = fp_trackStartIndex st0).
  { destruct Hend as [[_ ->]|(_ & _ & ->)]; auto. }
  destruct Hsame as [-> ->].
  intros e He. rewrite Forall_forall in Hev.
  pose proof (Hev e ltac:(now apply list_elem_of_In)) as Hsound.
  unfold event_sound in Hsound.
  destruct Hsound as (H1 & H2 & H3 & H4).
  repeat split; auto.
  pose proof (fpi_start _ (fps_inv _ _ _ _ Hseen)) as Hstart.
  destruct (fp_trackStartIndex st0) as [s|].
  - destruct Hlive as (_ & _ & _ & _ & Hafter).
    rewrite Forall_forall in Hafter. exists s. split; [reflexivity|].
    now apply Hafter, list_elem_of_In.
  - destruct Hstart as [_ Hnil]. rewrite Hnil in He. destruct He.
Qed.

(** X3.  No hypotensive minute is passed over: every second after the
    start of signal whose minute has a mean below 65 lies within a recorded
    event, from its start to its end, unless the pass broke off at or
    before that second on a search that found no recovery before the end
    of the track, all recorded events ending before that search began. *)
Theorem X3_no_onset_is_missed (abp : list sample) (jvar : option Z) :
  exists st,
    first_pass_of abp jvar = Some st /\
    forall s i,
      fp_trackStartIndex st = Some s ->
      s < i < track_length_seconds abp - 60 ->
      mean_lt (window_mean abp i (i + 60)) 65%Q = true ->
      (exists e, In e (fp_iohEvents st) /\ e.1 <= i <= e.2) \/
      (exists i0, i0 <= i /\
         unrecovered (track_length_seconds abp) (window_mean abp) i0 /\
         Forall (fun e => e.2 < i0) (fp_iohEvents st)).
Proof.
  destruct (first_pass_inv (track_length_seconds abp) (window_mean abp) jvar)
    as (st & Hfp & _).
  exists st. split; [exact Hfp|].
  apply first_pass_seen in Hfp as (st0 & Hseen & Hend).
  pose proof (fps_scanned _ _ _ _ Hseen) as Hscan.
  pose proof (fpi_past _ (fps_inv _ _ _ _ Hseen)) as Hpast.
  intros s i Hs Hi Hlt.
  destruct Hend as [[Hend ->]|(Hun & _ & ->)]; simpl in *.
  - left. apply (Hscan s i Hs); [lia|exact Hlt].
  - destruct (Z.lt_ge_cases i (fp_i st0)) as [Hbefore|Hafter].
    + left. apply (Hscan s i Hs); [lia|exact Hlt].
    + right. exists (fp_i st0). split; [lia|]. split; [exact Hun|exact Hpast].
Qed.

(** ** What the second pass records *)

Section SecondPassSeen.

Variable tls : Z.
Variable wm : Z -> Z -> mean.

Lemma second_pass_loop_S iohEvents jvar fuel st :
  second_pass_loop tls wm iohEvents jvar (S fuel) st
  = if st.1 <? tls - 1800 then
      match second_pass_body wm iohEvents jvar st with
      | Done st' => second_pass_loop tls wm iohEvents jvar fuel st'
      | UnboundLocalError => UnboundLocalError
      | OutOfFuel => OutOfFuel
      end
    else Done st.2.
Proof. reflexivity. Qed.

Lemma second_pass_loop_run (P : Z * list interval -> Prop)
    iohEvents jvar :
  (forall st st', P st -> st.1 < tls - 1800 ->
     second_pass_body wm iohEvents jvar st = Done st' -> P st') ->
  forall fuel st cleanEvents,
    P st ->
    second_pass_loop tls wm iohEvents jvar fuel st = Done cleanEvents ->
    exists i, P (i, cleanEvents).
Proof.
  intros Hstep. induction fuel as [|fuel IH]; intros [i clean] c HP.
  - simpl. destruct (i <? tls - 1800); [discriminate|].
    intros [= <-]. eauto.
  - rewrite second_pass_loop_S. cbn [fst snd].
    destruct (Z.ltb_spec i (tls - 1800)); [|intros [= <-]; eauto].
    destruct (second_pass_body wm iohEvents jvar (i, clean)) as [st'| |]
      eqn:Hbody; try discriminate.
    apply IH. eapply Hstep; eauto.
Qed.

(** The cursor never moves back before the start of signal, and a
    recorded window ends inside the track. *)
Lemma second_pass_in_track iohEvents jvar trackStartIndex cleanEvents :
  Forall (fun e => e.1 < e.2) iohEvents ->
  second_pass tls wm iohEvents jvar trackStartIndex = Done cleanEvents ->
  Forall (fun w => trackStartIndex <= w.1 /\ w.2 < tls) cleanEvents.
Proof.
  intros Hev Hsp. unfold second_pass in Hsp.
  apply (second_pass_loop_run
           (fun st => trackStartIndex <= st.1 /\
                      Forall (fun w => trackStartIndex <= w.1 /\ w.2 < tls)
                             st.2)) in Hsp.
  - destruct Hsp as (i & _ & H). exact H.
  - intros [i clean] st' [Hi Hall] Hlt Hbody. simpl in *.
    destruct (scan_overlap (i, i + 1800) iohEvents) as [x|] eqn:Hscan.
    + injection Hbody as <-. simpl.
      apply scan_overlap_forward in Hscan; [|exact Hev]. split; [lia|auto].
    + destruct (mean_ge _ _).
      * destruct jvar as [j|]; [|discriminate].
        destruct (scan_overlap (j - 1800, j) iohEvents);
          injection Hbody as <-; simpl; (split; [lia|]); auto.
        apply Forall_app; split; [exact Hall|].
        constructor; [simpl; lia|constructor].
      * injection Hbody as <-. simpl. split; [lia|auto].
  - simpl. split; [lia|constructor].
Qed.

(** When the window [(j - 1800, j)] of the recheck overlaps an event, the
    second pass records nothing. *)
Lemma second_pass_loop_blocked iohEvents j x fuel st cleanEvents :
  scan_overlap (j - 1800, j) iohEvents = Some x ->
  second_pass_loop tls wm iohEvents (Some j) fuel st = Done cleanEvents ->
  cleanEvents = st.2.
Proof.
  intros Hfwd. revert st; induction fuel as [|fuel IH]; intros [i clean]; simpl.
  - destruct (i <? tls - 1800); [discriminate|]. now intros [= <-].
  - destruct (i <? tls - 1800); [|now intros [= <-]].
    destruct (scan_overlap (i, i + 1800) iohEvents).
    + intros H. now apply IH in H.
    + destruct (mean_ge _ _); [rewrite Hfwd|]; intros H; now apply IH in H.
Qed.

(** The window that ends a second after an event ends overlaps it. *)
Lemma recheck_overlaps_event iohEvents e :
  In e iohEvents -> e.1 < e.2 ->
  exists x, scan_overlap (e.2 + 1 - 1800, e.2 + 1) iohEvents = Some x.
Proof.
  intros Hin He.
  destruct (scan_overlap (e.2 + 1 - 1800, e.2 + 1) iohEvents) as [x|] eqn:Hs;
    [eauto|].
  rewrite scan_overlap_None, Forall_forall in Hs.
  specialize (Hs e ltac:(now apply list_elem_of_In)).
  apply overlaps_false_iff in Hs. simpl in Hs. lia.
Qed.

(** The binding of [j] the first pass leaves: the one it was entered with
    if no search was made, the second after the end of the last event if
    the last search found a recovery, the last second of the track if it
    did not. *)
Lemma first_pass_j jvar st :
  first_pass tls wm jvar = Some st ->
  (fp_iohEvents st = [] /\ fp_j st = jvar) \/
  (exists e, In e (fp_iohEvents st) /\ fp_j st = Some (e.2 + 1)) \/
  (exists i0, unrecovered tls wm i0 /\ fp_j st = Some (tls - 1)).
Proof.
  intros (st0 & Hseen & Hend)%first_pass_seen.
  destruct Hend as [[_ ->]|(Hun & _ & ->)]; simpl.
  - destruct (fps_j _ _ _ _ Hseen) as [?|(e & Hlast & Hj)]; [now left|].
    right; left. exists e. split; [|exact Hj].
    apply last_Some in Hlast as (l' & ->).
    apply in_or_app. right. now left.
  - right; right. eauto.
Qed.

Lemma run_passes_Done jvar r :
  run_passes tls wm jvar = Done r ->
  exists st,
    first_pass tls wm jvar = Some st /\ fp_inv st /\
    let tsi := match fp_trackStartIndex st with Some i => i | None => 0 end in
    second_pass tls wm (fp_iohEvents st) (fp_j st) tsi
    = Done (cr_cleanEvents r) /\
    r = CaseResult tsi (fp_iohEvents st) (cr_cleanEvents r)
          (third_pass (fp_iohEvents st) tsi)
          (fourth_pass (cr_cleanEvents r)) (fp_j st).
Proof.
  unfold run_passes.
  destruct (first_pass_inv tls wm jvar) as (st & -> & Hinv).
  destruct (second_pass tls wm _ _ _) as [clean| |] eqn:Hsp; try discriminate.
  intros [= <-]. exists st. simpl. auto.
Qed.

End SecondPassSeen.

(** X4.  In every case whose scan completes, each clean window starts at
    or after the start-of-signal index (which is never negative), ends
    before the last second of the track, and has a mean pressure of at
    least 75 over its 1800 seconds. *)
Theorem X4_clean_windows_in_track (abp : list sample) (jvar : option Z)
    (r : case_result) :
  process_case abp jvar = Done r ->
  0 <= cr_trackStartIndex r /\
  Forall (fun w => cr_trackStartIndex r <= w.1 /\
                   w.2 < track_length_seconds abp /\
                   mean_ge (window_mean abp w.1 w.2) 75%Q = true)
         (cr_cleanEvents r).
Proof.
  intros Hr. unfold process_case in Hr.
  pose proof (run_passes_outcome (track_length_seconds abp) (window_mean abp)
                jvar) as Hout.
  rewrite Hr in Hout.
  destruct Hout as (st' & _ & _ & _ & _ & _ & _ & _ & Hok & _).
  apply run_passes_Done in Hr as (st & Hfp & Hinv & Hsp & Heq).
  assert (Hts : 0 <= cr_trackStartIndex r).
  { rewrite Heq. simpl. pose proof (fpi_start st Hinv).
    destruct (fp_trackStartIndex st); lia. }
  split; [exact Hts|].
  apply second_pass_in_track in Hsp.
  - rewrite Forall_forall in Hsp, Hok. apply Forall_forall. intros w Hw.
    destruct (Hsp w Hw) as [H1 H2]. destruct (Hok w Hw) as (_ & _ & H3).
    rewrite Heq at 1. simpl. auto.
  - eapply Forall_impl; [exact (fpi_ok st Hinv)|].
    unfold event_ok. intros; lia.
Qed.

Lemma X4_clean_windows_in_track_witness :
  0 <= 0 /\
  Forall (fun w => 0 <= w.1 /\
                   w.2 < track_length_seconds mixed_track /\
                   mean_ge (window_mean mixed_track w.1 w.2) 75%Q = true)
         [(160, 1960)].
Proof.
  exact (X4_clean_windows_in_track mixed_track None _ (mixed_case None)).
Defined.

(** X5.  A case yields clean windows (and so negative segments) only if
    it has no IOH event at all, or if its first pass broke off on a search
    that found no recovery, leaving [j] at the last second of the track.
    When the last search of the first pass found a recovery, the recheck
    window [(j - 1800, j)] ends a second after the last event and overlaps
    it, and nothing is recorded. *)
Theorem X5_clean_windows_need_no_event_or_unrecovered_end
    (abp : list sample) (jvar : option Z) (r : case_result) :
  process_case abp jvar = Done r ->
  cr_cleanEvents r <> [] ->
  cr_iohEvents r = [] \/
  exists i0,
    unrecovered (track_length_seconds abp) (window_mean abp) i0 /\
    cr_j r = Some (track_length_seconds abp - 1).
Proof.
  intros Hr Hne. unfold process_case in Hr.
  apply run_passes_Done in Hr as (st & Hfp & Hinv & Hsp & Heq).
  rewrite Heq. simpl.
  destruct (first_pass_j _ _ _ _ Hfp) as [[Hnil _]|[(e & He & Hj)|Hun]];
    [now left| |now right].
  exfalso. apply Hne.
  pose proof (fpi_ok st Hinv) as Hok. rewrite Forall_forall in Hok.
  assert (Hlt : e.1 < e.2).
  { specialize (Hok e ltac:(now apply list_elem_of_In)).
    unfold event_ok in Hok. lia. }
  destruct (recheck_overlaps_event _ e He Hlt) as (x & Hx).
  rewrite Hj in Hsp. unfold second_pass in Hsp.
  apply (second_pass_loop_blocked _ _ _ _ x) in Hsp; [exact Hsp|].
  exact Hx.
Qed.

Lemma X5_clean_windows_need_no_event_or_unrecovered_end_witness :
  [(16, 159)] = [] \/
  exists i0,
    unrecovered (track_length_seconds mixed_track) (window_mean mixed_track) i0 /\
    Some 2199 = Some (track_length_seconds mixed_track - 1).
Proof.
  apply (X5_clean_windows_need_no_event_or_unrecovered_end mixed_track None
           _ (mixed_case None)).
  discriminate.
Defined.

(** ** Where the segments lie *)

Lemma increasing_app l1 l2 :
  increasing l1 -> increasing l2 ->
  (forall a b, In a l1 -> In b l2 -> ends_before a b) ->
  increasing (l1 ++ l2).
Proof.
  unfold increasing. induction l1 as [|x l1 IH]; intros H1 H2 H12; simpl;
    [exact H2|].
  apply StronglySorted_inv in H1 as [H1 Hx].
  constructor.
  - apply IH; auto. intros a b Ha Hb. apply H12; [now right|exact Hb].
  - apply Forall_app; split; [exact Hx|].
    apply Forall_forall. intros b Hb. apply H12; [now left|].
    now apply list_elem_of_In.
Qed.

Lemma negative_segments_increasing cleanEvents :
  Forall (fun w => w.2 - w.1 = 1800) cleanEvents ->
  increasing cleanEvents ->
  increasing (flat_map negative_of cleanEvents).
Proof.
  induction cleanEvents as [|w l IH]; intros Hlen Hincr; simpl.
  - constructor.
  - apply Forall_cons_iff in Hlen as [Hw Hlen].
    apply StronglySorted_inv in Hincr as [Hincr Hwl].
    change (increasing (negative_of w ++ flat_map negative_of l)).
    apply increasing_app; [|auto|].
    + unfold negative_of, increasing.
      repeat constructor; unfold ends_before; simpl; lia.
    + intros a b Ha (w' & Hw' & Hb)%in_flat_map.
      rewrite Forall_forall in Hwl.
      specialize (Hwl w' ltac:(now apply list_elem_of_In)).
      unfold ends_before in *. unfold negative_of in Ha, Hb. simpl in Ha, Hb.
      destruct Ha as [<-|[<-|[<-|[]]]], Hb as [<-|[<-|[<-|[]]]];
        simpl; lia.
Qed.

(** X6.  In every case whose scan completes, each negative segment lies
    inside a recorded clean window, between its 10th and its 21st minute,
    and the negative segments are in strictly increasing order, each
    ending before the next starts. *)
Theorem X6_negative_segments_inside_clean_windows (abp : list sample)
    (jvar : option Z) (r : case_result) :
  process_case abp jvar = Done r ->
  (forall seg, In seg (cr_negativeSegments r) ->
     exists w, In w (cr_cleanEvents r) /\
       w.1 + 600 <= seg.1 /\ seg.2 <= w.1 + 1260 /\ seg.2 < w.2) /\
  increasing (cr_negativeSegments r).
Proof.
  intros Hr. unfold process_case in Hr.
  pose proof (run_passes_outcome (track_length_seconds abp) (window_mean abp)
                jvar) as Hout.
  rewrite Hr in Hout.
  destruct Hout as (st & _ & _ & _ & _ & _ & _ & -> & Hok & Hincr).
  assert (Hlen : Forall (fun w => w.2 - w.1 = 1800) (cr_cleanEvents r)).
  { eapply Forall_impl; [exact Hok|]. now intros w [? _]. }
  rewrite fourth_pass_spec. split.
  - intros seg (w & Hw & Hseg)%in_flat_map. exists w. split; [exact Hw|].
    rewrite Forall_forall in Hlen.
    specialize (Hlen w ltac:(now apply list_elem_of_In)).
    unfold negative_of in Hseg. simpl in Hseg.
    destruct Hseg as [<-|[<-|[<-|[]]]]; simpl; lia.
  - now apply negative_segments_increasing.
Qed.

Lemma X6_negative_segments_inside_clean_windows_witness :
  (forall seg, In seg [(760, 820); (1060, 1120); (1360, 1420)] ->
     exists w, In w [(160, 1960)] /\
       w.1 + 600 <= seg.1 /\ seg.2 <= w.1 + 1260 /\ seg.2 < w.2) /\
  increasing [(760, 820); (1060, 1120); (1360, 1420)].
Proof.
  exact (X6_negative_segments_inside_clean_windows mixed_track None _
           (mixed_case None)).
Defined.

(** X7.  In every case whose scan completes, each positive segment comes
    from a recorded event, starts at or after the start-of-signal index,
    ends at least two minutes before that event starts, and, when the
    event has a predecessor, shares no second with it. *)
Theorem X7_positive_segments_precede_their_event (abp : list sample)
    (jvar : option Z) (r : case_result) :
  process_case abp jvar = Done r ->
  forall seg, In seg (cr_positiveSegments r) ->
    exists k event,
      cr_iohEvents r !! k = Some event /\
      0 <= cr_trackStartIndex r <= seg.1.1 /\
      seg.1.2 = seg.1.1 + 60 /\
      seg.1.2 + 120 <= event.1 /\
      forall previous,
        (0 < k)%nat -> cr_iohEvents r !! (k - 1)%nat = Some previous ->
        ~ intersects (seg.1.1, seg.1.2) previous.
Proof.
  intros Hr seg Hseg. unfold process_case in Hr.
  apply run_passes_Done in Hr as (st & _ & Hinv & _ & Heq).
  rewrite Heq in Hseg |- *. simpl in *.
  set (tsi := match fp_trackStartIndex st with Some i => i | None => 0 end)
    in *.
  assert (Hts : 0 <= tsi).
  { subst tsi. pose proof (fpi_start st Hinv).
    destruct (fp_trackStartIndex st); lia. }
  apply third_pass_In in Hseg as (k & event & L & Hk & HL & Hc).
  apply positive_candidate_Some in Hc as (-> & H0 & Htsi & Hprev).
  exists k, event. simpl. split; [exact Hk|].
  assert (HL3 : 3 <= L).
  { unfold ALL_PREDICTION_WINDOWS in HL. simpl in HL.
    destruct HL as [<-|[<-|[<-|[<-|[]]]]]; lia. }
  repeat split; try lia.
  intros previous Hpos Hp [t [Ht1 Ht2]]. simpl in Ht1.
  assert (Ho : overlaps (event.1 - L * 60, event.1 - L * 60 + 60) previous
               = false).
  { apply Hprev. unfold previous_event.
    destruct (Nat.ltb_spec 0 k); [exact Hp|lia]. }
  pose proof (fpi_ok st Hinv) as Hok. rewrite Forall_forall in Hok.
  specialize (Hok previous ltac:(eapply list_elem_of_lookup_2; eauto)).
  unfold event_ok in Hok.
  apply overlaps_false_iff in Ho. simpl in Ho. lia.
Qed.

Lemma X7_positive_segments_precede_their_event_witness :
  exists k event,
    [(983, 1800)] !! k = Some event /\
    0 <= 0 <= 803 /\ 863 = 803 + 60 /\ 863 + 120 <= event.1 /\
    forall previous,
      (0 < k)%nat -> [(983, 1800)] !! (k - 1)%nat = Some previous ->
      ~ intersects (803, 863) previous.
Proof.
  apply (X7_positive_segments_precede_their_event contained_track None _
           (contained_case None) (803, 863, 3)).
  simpl. auto.
Defined.

(** ** The binding of [j] a case is entered with *)

Section Sync.

Variable tls : Z.
Variable wm : Z -> Z -> mean.

(** A search over a range that is not empty rebinds [j] whatever it was. *)
Lemma seek_end_rebinds n j jvar1 jvar2 :
  seek_end wm (S n) j jvar1 = seek_end wm (S n) j jvar2.
Proof.
  simpl. destruct (mean_ge _ _); [reflexivity|].
  revert j. induction n as [|n IH]; intros j; simpl; [reflexivity|].
  destruct (mean_ge _ _); [reflexivity|apply IH].
Qed.

Lemma first_pass_loop_in_step j1 j2 fuel st1 st2 :
  in_step j1 j2 st1 st2 ->
  match first_pass_loop tls wm fuel st1, first_pass_loop tls wm fuel st2 with
  | Some st1', Some st2' => in_step j1 j2 st1' st2'
  | None, None => True
  | _, _ => False
  end.
Proof.
  revert st1 st2; induction fuel as [|fuel IH];
    intros [i1 b1 t1 e1 a1] [i2 b2 t2 e2 a2] [(Hi & Hb & Ht & He) Hj];
    simpl in *; subst i2 b2 t2 e2.
  - destruct (i1 <? tls - 60); [exact I|]. repeat split; auto.
  - destruct (Z.ltb_spec i1 (tls - 60)); [|repeat split; auto].
    unfold first_pass_body. simpl.
    destruct b1; simpl.
    + destruct (mean_lt _ _); [|apply IH; repeat split; auto].
      destruct (Z.to_nat (tls - (i1 + 60))) as [|n] eqn:Hn; [lia|].
      rewrite (seek_end_rebinds n (i1 + 60) a1 a2).
      destruct (seek_end wm (S n) (i1 + 60) a2) as [[e|] jv].
      * apply IH. repeat split; auto.
      * repeat split; auto.
    + destruct (mean_ge _ _); apply IH; repeat split; auto.
Qed.

Lemma first_pass_in_step j1 j2 st1 :
  first_pass tls wm j1 = Some st1 ->
  exists st2, first_pass tls wm j2 = Some st2 /\ in_step j1 j2 st1 st2.
Proof.
  unfold first_pass. intros H1.
  pose proof (first_pass_loop_in_step j1 j2 (Z.to_nat tls)
                (FpState 0 false None [] j1)
                (FpState 0 false None [] j2)) as H.
  rewrite H1 in H.
  destruct (first_pass_loop tls wm _ (FpState 0 false None [] j2)) as [st2|].
  - exists st2. split; [reflexivity|]. apply H. repeat split; auto.
  - destruct H. repeat split; auto.
Qed.

(** With no IOH event, a second pass that ends without a window met no
    candidate window with a mean of at least 75, and does the same
    whatever [j] is. *)
Lemma second_pass_loop_idle jvar1 jvar2 fuel st :
  second_pass_loop tls wm [] jvar1 fuel st = Done st.2 ->
  second_pass_loop tls wm [] jvar2 fuel st = Done st.2.
Proof.
  revert st; induction fuel as [|fuel IH]; intros [i clean]; simpl;
    [auto|].
  destruct (i <? tls - 1800); [|auto].
  destruct (mean_ge _ _); [|apply IH].
  destruct jvar1 as [j|]; [|discriminate].
  intros (more & Hmore)%second_pass_loop_grows. simpl in Hmore.
  rewrite <- app_assoc in Hmore.
  apply (f_equal (@length interval)) in Hmore.
  rewrite length_app in Hmore. simpl in Hmore. lia.
Qed.

(** A case that completes without a segment completes without a segment
    whatever [j] it is entered with. *)
Lemma run_passes_idle j1 j2 r1 :
  run_passes tls wm j1 = Done r1 ->
  cr_positiveSegments r1 = [] -> cr_negativeSegments r1 = [] ->
  exists r2, run_passes tls wm j2 = Done r2 /\
             cr_positiveSegments r2 = [] /\ cr_negativeSegments r2 = [].
Proof.
  intros Hr Hp Hn.
  apply run_passes_Done in Hr as (st1 & Hfp1 & Hinv & Hsp & Heq).
  destruct (first_pass_in_step j1 j2 st1 Hfp1)
    as (st2 & Hfp2 & (_ & _ & Hts & Hev) & Hj).
  rewrite Heq in Hp, Hn. simpl in Hp, Hn.
  assert (Hclean : cr_cleanEvents r1 = []).
  { apply (f_equal (@length interval)) in Hn.
    rewrite fourth_pass_spec in Hn.
    destruct (cr_cleanEvents r1); [reflexivity|discriminate]. }
  rewrite Hclean in Hsp. cbv zeta in Hsp.
  unfold run_passes. rewrite Hfp2, <- Hts, <- Hev.
  destruct Hj as [<-|(Hj1 & Hj2 & Hnil)].
  - rewrite Hsp. eexists. split; [reflexivity|]. simpl. auto.
  - rewrite Hnil in Hsp |- *. unfold second_pass in *.
    rewrite (second_pass_loop_idle (fp_j st1) (fp_j st2)) by exact Hsp.
    eexists. split; [reflexivity|]. simpl. rewrite Hnil in Hp. auto.
Qed.

End Sync.

(** X8.  What a case yields depends on the binding of [j] it is entered
    with only through the clean windows, and only when its first pass
    records no event: two completed scans of the same track agree on the
    IOH events, the start-of-signal index and the positive segments, and
    agree on everything as soon as an event is recorded. *)
Theorem X8_stale_j_touches_clean_windows_only (abp : list sample)
    (j1 j2 : option Z) (r1 r2 : case_result) :
  process_case abp j1 = Done r1 ->
  process_case abp j2 = Done r2 ->
  cr_iohEvents r1 = cr_iohEvents r2 /\
  cr_trackStartIndex r1 = cr_trackStartIndex r2 /\
  cr_positiveSegments r1 = cr_positiveSegments r2 /\
  (cr_iohEvents r1 <> [] -> r1 = r2).
Proof.
  unfold process_case. intros H1 H2.
  apply run_passes_Done in H1 as (st1 & Hfp1 & _ & Hsp1 & Heq1).
  apply run_passes_Done in H2 as (st2 & Hfp2 & _ & Hsp2 & Heq2).
  destruct (first_pass_in_step _ _ j1 j2 st1 Hfp1)
    as (st2' & Hfp2' & (_ & _ & Hts & Hev) & Hj).
  assert (st2' = st2) as -> by congruence.
  rewrite Heq1, Heq2. simpl. rewrite <- Hts, <- Hev.
  repeat split; auto.
  intros Hne. destruct Hj as [Hj|(_ & _ & Hnil)]; [|congruence].
  cbv zeta in Hsp1, Hsp2. rewrite <- Hts, <- Hev, <- Hj in Hsp2.
  rewrite Hsp1 in Hsp2. injection Hsp2 as <-. now rewrite Hj.
Qed.

Lemma X8_stale_j_touches_clean_windows_only_witness :
  [(16, 159)] = [(16, 159)] /\ 0 = 0 /\
  ([] : list positive_segment) = [] /\
  ([(16, 159)] <> [] ->
   CaseResult 0 [(16, 159)] [(160, 1960)] []
     [(760, 820); (1060, 1120); (1360, 1420)] (Some 2199)
   = CaseResult 0 [(16, 159)] [(160, 1960)] []
       [(760, 820); (1060, 1120); (1360, 1420)] (Some 2199)).
Proof.
  exact (X8_stale_j_touches_clean_windows_only mixed_track None (Some 7) _ _
           (mixed_case None) (mixed_case (Some 7))).
Defined.

(** ** Short and empty tracks, gaps *)

(** X9.  A track of at most 1800 seconds never fails and yields no clean
    window and no negative segment, whatever [j] is; a track of at most 60
    seconds (the empty track among them) yields nothing at all and leaves
    [j] as it was. *)
Theorem X9_short_tracks (abp : list sample) (jvar : option Z) :
  (track_length_seconds abp <= 1800 ->
   exists r, process_case abp jvar = Done r /\
             cr_cleanEvents r = [] /\ cr_negativeSegments r = []) /\
  (track_length_seconds abp <= 60 ->
   process_case abp jvar = Done (CaseResult 0 [] [] [] [] jvar)).
Proof.
  assert (Hsp : forall iohEvents j tsi,
            track_length_seconds abp <= 1800 -> 0 <= tsi ->
            second_pass (track_length_seconds abp) (window_mean abp)
                        iohEvents j tsi = Done []).
  { intros iohEvents j tsi Hlen Hts. unfold second_pass.
    destruct (Z.to_nat (track_length_seconds abp)); simpl;
      destruct (Z.ltb_spec tsi (track_length_seconds abp - 1800));
      try lia; reflexivity. }
  split; intros Hlen.
  - unfold process_case, run_passes.
    destruct (first_pass_inv (track_length_seconds abp) (window_mean abp) jvar)
      as (st & -> & Hinv).
    rewrite Hsp; [eauto|exact Hlen|].
    pose proof (fpi_start st Hinv). destruct (fp_trackStartIndex st); lia.
  - unfold process_case, run_passes, first_pass.
    assert (Hfp : first_pass_loop (track_length_seconds abp) (window_mean abp)
                    (Z.to_nat (track_length_seconds abp))
                    (FpState 0 false None [] jvar)
                  = Some (FpState 0 false None [] jvar)).
    { destruct (Z.to_nat (track_length_seconds abp)); simpl;
        destruct (Z.ltb_spec 0 (track_length_seconds abp - 60));
        try lia; reflexivity. }
    rewrite Hfp. simpl. rewrite Hsp by lia. reflexivity.
Qed.

Lemma nancount_all_nan (l : list sample) :
  Forall (fun x => x = None) l -> nancount l = O.
Proof.
  induction 1 as [|x l -> _ IH]; [reflexivity|exact IH].
Qed.

Lemma window_mean_all_nan (abp : list sample) a b :
  Forall (fun x => x = None) abp -> window_mean abp a b = None.
Proof.
  intros Hnan. unfold window_mean, nanmean, py_slice.
  rewrite nancount_all_nan; [reflexivity|].
  apply Forall_take, Forall_drop, Hnan.
Qed.

Section Gaps.

Variable tls : Z.
Variable wm : Z -> Z -> mean.

(** A track none of whose minutes reaches 65 never goes live. *)
Lemma first_pass_never_live jvar :
  (forall i, 0 <= i < tls - 60 -> mean_ge (wm i (i + 60)) 65%Q = false) ->
  exists i, first_pass tls wm jvar = Some (FpState i false None [] jvar).
Proof.
  intros Hlow.
  destruct (first_pass_inv tls wm jvar) as (st & Hfp & _).
  rewrite Hfp.
  apply (first_pass_loop_run tls wm
           (fun st => 0 <= fp_i st /\ fp_started st = false /\
                      fp_trackStartIndex st = None /\
                      fp_iohEvents st = [] /\ fp_j st = jvar)) in Hfp.
  - destruct Hfp as (st0 & (_ & Hst & Hts & Hev & Hj) & [[_ ->]|[_ Hbody]]).
    + destruct st0; simpl in *; subst. eauto.
    + unfold first_pass_body in Hbody. rewrite Hst in Hbody. simpl in Hbody.
      destruct (mean_ge _ _); discriminate.
  - intros st1 st2 (Hi & Hst & Hts & Hev & Hj) Hlt Hbody.
    unfold first_pass_body in Hbody. rewrite Hst in Hbody. simpl in Hbody.
    rewrite Hlow in Hbody by lia. injection Hbody as <-. simpl.
    repeat split; auto; lia.
  - simpl. repeat split; auto; lia.
Qed.

(** A track none of whose candidate windows reaches 75 yields no clean
    window and never reads [j]. *)
Lemma second_pass_never_clean iohEvents jvar tsi :
  Forall (fun e => e.1 < e.2) iohEvents -> 0 <= tsi ->
  (forall i, tsi <= i < tls - 1800 ->
     mean_ge (wm i (i + 1800)) 75%Q = false) ->
  second_pass tls wm iohEvents jvar tsi = Done [].
Proof.
  intros Hev Hts Hlow.
  pose proof (second_pass_inv tls wm iohEvents jvar Hev tsi Hts) as Hinv.
  unfold second_pass in *.
  assert (Hloop : forall fuel st,
            tsi <= st.1 ->
            match second_pass_loop tls wm iohEvents jvar fuel st with
            | Done c => c = st.2
            | UnboundLocalError => False
            | OutOfFuel => True
            end).
  { induction fuel as [|fuel IH]; intros [i clean] Hi.
    - simpl. destruct (i <? tls - 1800); auto.
    - rewrite second_pass_loop_S. cbn [fst snd] in *.
      destruct (Z.ltb_spec i (tls - 1800)); [|reflexivity].
      unfold second_pass_body.
      destruct (scan_overlap (i, i + 1800) iohEvents) as [x|] eqn:Hscan.
      + apply scan_overlap_forward in Hscan; [|exact Hev].
        apply (IH (x + 1, clean)). simpl. lia.
      + rewrite Hlow by lia. apply (IH (i + 10, clean)). simpl. lia. }
  specialize (Hloop (Z.to_nat tls) (tsi, []) ltac:(simpl; lia)).
  destruct (second_pass_loop tls wm iohEvents jvar (Z.to_nat tls) (tsi, []));
    [now subst|destruct Hloop|destruct Hinv].
Qed.

End Gaps.

(** What holds of every second holds of every sample. *)
Lemma per_second_Forall (P : sample -> Prop) l :
  Forall P l -> Forall P (per_second l).
Proof.
  intros Hl. unfold per_second, expand. apply Forall_flat_map.
  eapply Forall_impl; [exact Hl|].
  intros x Hx. apply Forall_forall.
  intros y Hy%list_elem_of_In. apply repeat_spec in Hy. now subst.
Qed.

(** X10.  A track that is one gap (every sample NaN) is treated as a
    track on which no threshold is ever met: the scan completes, the
    start-of-signal index is 0, and there is no event, no clean window and
    no segment; [j] is left as it was. *)
Theorem X10_all_nan_track (abp : list sample) (jvar : option Z) :
  Forall (fun x => x = None) abp ->
  process_case abp jvar = Done (CaseResult 0 [] [] [] [] jvar).
Proof.
  intros Hnan. unfold process_case, run_passes.
  destruct (first_pass_never_live (track_length_seconds abp) (window_mean abp)
              jvar) as (i & ->).
  { intros k _. now rewrite window_mean_all_nan. }
  simpl.
  rewrite second_pass_never_clean; [reflexivity|constructor|lia|].
  intros k _. now rewrite window_mean_all_nan.
Qed.

Lemma X10_all_nan_track_witness :
  track_length_seconds gap_track = 2000 /\
  process_case gap_track None = Done (CaseResult 0 [] [] [] [] None).
Proof.
  split.
  - unfold gap_track. rewrite per_second_length. reflexivity.
  - apply (X10_all_nan_track gap_track None).
    apply per_second_Forall, Forall_forall.
    intros x Hx%list_elem_of_In. now apply repeat_spec in Hx.
Defined.

(** ** Runs over several cases *)

Lemma saveCaseSegments_keeps fs caseid positiveSegments negativeSegments c f :
  fs !! c = Some f ->
  saveCaseSegments fs caseid positiveSegments negativeSegments !! c = Some f.
Proof.
  intros Hc. unfold saveCaseSegments.
  destruct (_ && _); [exact Hc|].
  destruct (fs !! caseid) eqn:Hl; [exact Hc|].
  rewrite lookup_insert_ne; [exact Hc|]. intros ->. congruence.
Qed.

Lemma saveCaseSegments_other fs caseid positiveSegments negativeSegments c :
  c <> caseid ->
  saveCaseSegments fs caseid positiveSegments negativeSegments !! c = fs !! c.
Proof.
  intros Hc. unfold saveCaseSegments.
  destruct (_ && _); [reflexivity|].
  destruct (fs !! caseid); [reflexivity|].
  now rewrite lookup_insert_ne.
Qed.

Lemma process_case_ends abp jvar : process_case abp jvar <> OutOfFuel.
Proof.
  intros H.
  pose proof (run_passes_outcome (track_length_seconds abp) (window_mean abp)
                jvar) as Hout.
  unfold process_case in H. now rewrite H in Hout.
Qed.

Section Runs.

Variable tracks : Z -> list sample.

(** A run ends, leaves the folders it found as they were, creates folders
    for listed cases only, and reads the track of a case only if the case
    is listed and has no folder. *)
Lemma extract_segments_loop_frame cases st :
  exists st',
    final_state (extract_segments_loop tracks cases st) = Some st' /\
    (forall c f, rs_fs st !! c = Some f -> rs_fs st' !! c = Some f) /\
    (forall c, ~ In c cases -> rs_fs st' !! c = rs_fs st !! c) /\
    (exists more, rs_scanned st' = rs_scanned st ++ more /\
       forall c, In c more -> In c cases /\ rs_fs st !! c = None).
Proof.
  revert st; induction cases as [|caseid cases IH]; intros st.
  - exists st. simpl. repeat split; auto.
    exists []. rewrite app_nil_r. split; [reflexivity|]. intros c [].
  - rewrite extract_segments_loop_cons.
    unfold areCaseSegmentsCached.
    destruct (rs_fs st !! caseid) as [f0|] eqn:Hl.
    + destruct (IH st) as (st' & Hfin & Hkeep & Hout & more & Hsc & Hmore).
      exists st'. split; [exact Hfin|]. split; [exact Hkeep|].
      split; [intros c Hc; apply Hout; simpl in Hc; tauto|].
      exists more. split; [exact Hsc|].
      intros c Hc. destruct (Hmore c Hc). split; [now right|assumption].
    + pose proof (process_case_ends (tracks caseid) (rs_j st)) as Hends.
      destruct (process_case (tracks caseid) (rs_j st)) as [r| |];
        [|clear Hends|congruence].
      * destruct (IH (RunState (cr_j r)
                        (saveCaseSegments (rs_fs st) caseid
                           (cr_positiveSegments r) (cr_negativeSegments r))
                        (rs_scanned st ++ [caseid])))
          as (st' & Hfin & Hkeep & Hout & more & Hsc & Hmore).
        simpl in *.
        exists st'. split; [exact Hfin|].
        split; [intros c f Hc; apply Hkeep;
                now apply saveCaseSegments_keeps|].
        split.
        -- intros c Hc. rewrite Hout by tauto.
           apply saveCaseSegments_other. intros ->. tauto.
        -- exists (caseid :: more).
           split; [rewrite Hsc, <- app_assoc; reflexivity|].
           intros c [<-|Hc]; [split; [now left|exact Hl]|].
           destruct (Hmore c Hc) as [Hin Hnone]. split; [now right|].
           destruct (rs_fs st !! c) as [f|] eqn:Hf; [|reflexivity].
           erewrite saveCaseSegments_keeps in Hnone by exact Hf.
           discriminate.
      * exists (RunState (rs_j st) (rs_fs st) (rs_scanned st ++ [caseid])).
        simpl. repeat split; auto.
        exists [caseid]. split; [reflexivity|].
        intros c [<-|[]]. split; [now left|exact Hl].
Qed.

Lemma areCaseSegmentsCached_keeps (fs fs' : gmap Z case_folder) c :
  (forall c f, fs !! c = Some f -> fs' !! c = Some f) ->
  areCaseSegmentsCached fs c = true -> areCaseSegmentsCached fs' c = true.
Proof.
  unfold areCaseSegmentsCached. intros Hkeep.
  destruct (fs !! c) as [f|] eqn:Hf; [|discriminate].
  now rewrite (Hkeep c f Hf).
Qed.

(** A run that finishes leaves every listed case settled. *)
Lemma extract_segments_loop_settles cases st st' :
  extract_segments_loop tracks cases st = Finished st' ->
  forall c, In c cases -> settled tracks (rs_fs st') c.
Proof.
  revert st; induction cases as [|caseid cases IH]; intros st Hrun c Hc;
    [destruct Hc|].
  rewrite extract_segments_loop_cons in Hrun.
  destruct (areCaseSegmentsCached (rs_fs st) caseid) eqn:Hcached.
  - destruct Hc as [<-|Hc]; [|eapply IH; eauto].
    left.
    destruct (extract_segments_loop_frame cases st) as (st0 & Hfin & Hkeep & _).
    rewrite Hrun in Hfin. injection Hfin as <-.
    eapply areCaseSegmentsCached_keeps; eauto.
  - destruct (process_case (tracks caseid) (rs_j st)) as [r| |] eqn:Hr;
      try discriminate.
    destruct Hc as [<-|Hc]; [|eapply IH; eauto].
    destruct (extract_segments_loop_frame cases
                (RunState (cr_j r)
                   (saveCaseSegments (rs_fs st) caseid (cr_positiveSegments r)
                      (cr_negativeSegments r))
                   (rs_scanned st ++ [caseid])))
      as (st0 & Hfin & Hkeep & _).
    rewrite Hrun in Hfin. injection Hfin as <-. simpl in Hkeep.
    destruct (cr_positiveSegments r) as [|p ps] eqn:Hp;
      [destruct (cr_negativeSegments r) as [|n ns] eqn:Hn|].
    + right. exists (rs_j st), r. auto.
    + left. eapply areCaseSegmentsCached_keeps; [exact Hkeep|].
      apply saveCaseSegments_cached; [exact Hcached|right; discriminate].
    + left. eapply areCaseSegmentsCached_keeps; [exact Hkeep|].
      apply saveCaseSegments_cached; [exact Hcached|left; discriminate].
Qed.

(** A run over settled cases finishes and leaves the folders alone. *)
Lemma extract_segments_loop_settled cases st :
  (forall c, In c cases -> settled tracks (rs_fs st) c) ->
  exists st', extract_segments_loop tracks cases st = Finished st' /\
              rs_fs st' = rs_fs st.
Proof.
  revert st; induction cases as [|caseid cases IH]; intros st Hall;
    [simpl; eauto|].
  rewrite extract_segments_loop_cons.
  destruct (areCaseSegmentsCached (rs_fs st) caseid) eqn:Hcached.
  - apply IH. intros c Hc. apply Hall. now right.
  - destruct (Hall caseid ltac:(now left)) as [Hc|(j1 & r1 & Hr1 & Hp & Hn)];
      [congruence|].
    destruct (run_passes_idle _ _ j1 (rs_j st) r1 Hr1 Hp Hn)
      as (r2 & Hr2 & Hp2 & Hn2).
    fold (process_case (tracks caseid) (rs_j st)) in Hr2.
    rewrite Hr2, Hp2, Hn2, saveCaseSegments_empty.
    destruct (IH (RunState (cr_j r2) (rs_fs st) (rs_scanned st ++ [caseid])))
      as (st' & Hrun & Hfs).
    + intros c Hc. apply Hall. now right.
    + eauto.
Qed.

End Runs.

(** X11.  Whatever the cases and the folders it starts on, a run of
    [extract_segments] ends (normally or on the failure of one scan) and
    then: every folder that existed is still there with the same files;
    only listed cases have got a folder; and a track was read only for a
    listed case that had no folder. *)
Theorem X11_run_frame (tracks : Z -> list sample) (cases : list Z)
    (fs : gmap Z case_folder) :
  exists st,
    final_state (extract_segments tracks cases fs) = Some st /\
    (forall c f, fs !! c = Some f -> rs_fs st !! c = Some f) /\
    (forall c, ~ In c cases -> rs_fs st !! c = fs !! c) /\
    (forall c, In c (rs_scanned st) -> In c cases /\ fs !! c = None).
Proof.
  destruct (extract_segments_loop_frame tracks cases (RunState None fs []))
    as (st & Hfin & Hkeep & Hout & more & Hsc & Hmore).
  exists st. repeat split; auto; simpl in Hsc; subst more; now apply Hmore.
Qed.

(** X12.  When a run over a list of cases finishes, any later run over
    cases of that list, in any order and with repetitions, on the folders
    the first run left, finishes too and persists nothing: the folders are
    left exactly as they were. *)
Theorem X12_rerun_persists_nothing (tracks : Z -> list sample)
    (cases cases' : list Z) (fs : gmap Z case_folder) (st : run_state) :
  extract_segments tracks cases fs = Finished st ->
  (forall c, In c cases' -> In c cases) ->
  exists st',
    extract_segments tracks cases' (rs_fs st) = Finished st' /\
    rs_fs st' = rs_fs st.
Proof.
  intros Hrun Hsub.
  apply (extract_segments_loop_settled tracks cases'
           (RunState None (rs_fs st) [])).
  intros c Hc. simpl.
  eapply extract_segments_loop_settles; [exact Hrun|auto].
Qed.

Lemma X12_rerun_persists_nothing_witness :
  exists st',
    extract_segments two_case_tracks [2; 1; 2]
      (saveCaseSegments ∅ 2 [] [(600, 660); (900, 960); (1200, 1260)])
    = Finished st' /\
    rs_fs st'
    = saveCaseSegments ∅ 2 [] [(600, 660); (900, 960); (1200, 1260)].
Proof.
  apply (X12_rerun_persists_nothing two_case_tracks [1; 2] [2; 1; 2] ∅ _
           two_case_run).
  simpl. tauto.
Defined.

Lemma dip_first_pass jvar :
  first_pass_of dip_track jvar
  = Some (FpState 175 true (Some 0) [(16, 174)] (Some 175)).
Proof.
  unfold dip_track. rewrite first_pass_per_second.
  destruct jvar; vm_compute; reflexivity.
Qed.

(** X13.  What a run persists depends on the order of the cases.  Take a
    case [a] whose first pass makes a recovery search, and another case [b]
    whose first pass goes live and makes none while one of its candidate
    windows has a mean of at least 75.  Starting without folders, the run
    over [b] then [a] fails on [b] before anything is persisted; the run
    over [a] then [b] finishes and leaves a folder for [b]. *)
Theorem X13_outcome_depends_on_case_order (tracks : Z -> list sample)
    (a b : Z) (sta stb : fp_state) (j s k : Z) :
  a <> b ->
  first_pass_of (tracks a) None = Some sta ->
  fp_j sta = Some j ->
  first_pass_of (tracks b) None = Some stb ->
  fp_trackStartIndex stb = Some s ->
  (forall i, s < i < track_length_seconds (tracks b) - 60 ->
     mean_lt (window_mean (tracks b) i (i + 60)) 65%Q = false) ->
  0 <= k -> s + 10 * k < track_length_seconds (tracks b) - 1800 ->
  mean_ge (window_mean (tracks b) (s + 10 * k) (s + 10 * k + 1800)) 75%Q
  = true ->
  extract_segments tracks [b; a] ∅ = Raised (RunState None ∅ [b]) /\
  exists st,
    extract_segments tracks [a; b] ∅ = Finished st /\
    areCaseSegmentsCached (rs_fs st) b = true.
Proof.
  intros Hab Hfa Hja Hfb Hsb Hquiet Hk Hlt Hm. split.
  - unfold extract_segments. rewrite extract_segments_loop_cons.
    cbn [rs_fs rs_j rs_scanned]. rewrite areCaseSegmentsCached_empty.
    unfold process_case.
    rewrite (run_passes_quiet _ _ None stb s k Hfb Hsb Hquiet Hk Hlt Hm).
    reflexivity.
  - unfold extract_segments. rewrite extract_segments_loop_cons.
    cbn [rs_fs rs_j rs_scanned]. rewrite areCaseSegmentsCached_empty.
    pose proof (run_passes_outcome (track_length_seconds (tracks a))
                  (window_mean (tracks a)) None) as Hout.
    fold (process_case (tracks a) None) in Hout.
    destruct (process_case (tracks a) None) as [ra| |];
      [|destruct Hout as (st' & Hfa' & Hnone);
        unfold first_pass_of in Hfa; congruence
       |destruct Hout].
    destruct Hout as (st' & Hfa' & _ & _ & Hj & _).
    assert (st' = sta) as -> by (unfold first_pass_of in Hfa; congruence).
    rewrite extract_segments_loop_cons. cbn [rs_fs rs_j rs_scanned].
    assert (Hnb : areCaseSegmentsCached
                    (saveCaseSegments ∅ a (cr_positiveSegments ra)
                       (cr_negativeSegments ra)) b = false).
    { unfold areCaseSegmentsCached.
      rewrite saveCaseSegments_other by congruence.
      now rewrite lookup_empty. }
    rewrite Hnb, Hj, Hja.
    destruct (first_pass_same _ _ None (Some j) stb Hfb)
      as (stb' & Hfb' & _ & _ & Hsb' & _).
    rewrite Hsb in Hsb'. symmetry in Hsb'.
    destruct (run_passes_quiet _ _ (Some j) stb' s k Hfb' Hsb' Hquiet Hk
                Hlt Hm) as (rb & Hrb & _ & Hclean).
    fold (process_case (tracks b) (Some j)) in Hrb. rewrite Hrb.
    eexists. split; [reflexivity|]. cbn [rs_fs].
    apply saveCaseSegments_cached; [exact Hnb|]. right.
    unfold process_case in Hrb.
    apply run_passes_Done in Hrb as (st0 & _ & _ & _ & Heq).
    rewrite Heq. simpl. rewrite fourth_pass_spec.
    destruct (cr_cleanEvents rb); [congruence|discriminate].
Qed.

Lemma X13_outcome_depends_on_case_order_witness :
  extract_segments two_case_tracks [2; 1] ∅ = Raised (RunState None ∅ [2]) /\
  exists st,
    extract_segments two_case_tracks [1; 2] ∅ = Finished st /\
    areCaseSegmentsCached (rs_fs st) 2 = true.
Proof.
  apply (X13_outcome_depends_on_case_order two_case_tracks 1 2
           (FpState 175 true (Some 0) [(16, 174)] (Some 175))
           (FpState 1742 true (Some 0) [] None) 175 0 0).
  - discriminate.
  - rewrite two_case_tracks_1. apply dip_first_pass.
  - reflexivity.
  - rewrite two_case_tracks_2. apply steady_first_pass.
  - reflexivity.
  - rewrite two_case_tracks_2, steady_length. exact steady_quiet.
  - lia.
  - rewrite two_case_tracks_2, steady_length. lia.
  - rewrite two_case_tracks_2. exact steady_window.
Defined.

(** ** The files of a case *)

Section Writes.

Context {A : Type}.
Variable key : A -> file_name.
Variable val : A -> interval.

Abbreviation write := (write_files key val).

Lemma write_cons x l folder :
  write folder (x :: l) = write (<[key x := val x]> folder) l.
Proof. reflexivity. Qed.

Lemma write_other l folder k :
  ~ In k (map key l) -> write folder l !! k = folder !! k.
Proof.
  revert folder; induction l as [|x l IH]; intros folder Hk;
    [reflexivity|].
  rewrite write_cons, IH by (simpl in Hk; tauto).
  apply lookup_insert_ne. simpl in Hk. intros Heq. tauto.
Qed.

Lemma write_lookup l folder x :
  NoDup (map key l) -> In x l -> write folder l !! key x = Some (val x).
Proof.
  revert folder; induction l as [|y l IH]; intros folder Hnd Hx;
    [destruct Hx|].
  simpl in Hnd. apply NoDup_cons in Hnd as [Hy Hnd].
  rewrite write_cons. destruct Hx as [->|Hx].
  - rewrite write_other by (now rewrite <- list_elem_of_In).
    apply lookup_insert_eq.
  - now apply IH.
Qed.

Lemma write_size l folder :
  NoDup (map key l) -> (forall x, In x l -> folder !! key x = None) ->
  size (write folder l) = (size folder + length l)%nat.
Proof.
  revert folder; induction l as [|y l IH]; intros folder Hnd Hfresh;
    [simpl; lia|].
  simpl in Hnd. apply NoDup_cons in Hnd as [Hy Hnd].
  rewrite write_cons, IH; [|exact Hnd|].
  - unfold case_folder in *.
    rewrite map_size_insert_None by (apply Hfresh; now left). simpl. lia.
  - intros x Hx. unfold case_folder in *.
    rewrite lookup_insert_ne; [apply Hfresh; now right|].
    intros Heq. apply Hy. apply list_elem_of_In.
    replace (key y) with (key x) by congruence. now apply in_map.
Qed.

Lemma write_from l folder k v :
  write folder l !! k = Some v ->
  folder !! k = Some v \/ exists x, In x l /\ key x = k /\ val x = v.
Proof.
  revert folder; induction l as [|y l IH]; intros folder; [auto|].
  rewrite write_cons. intros [H|(x & Hx & Hk & Hv)]%IH.
  all: unfold case_folder in *.
  - destruct (decide (key y = k)) as [<-|Hne].
    + rewrite lookup_insert_eq in H. injection H as <-.
      right. exists y. split; [now left|auto].
    + rewrite lookup_insert_ne in H by exact Hne. now left.
  - right. exists x. split; [now right|auto].
Qed.

End Writes.

Lemma NoDup_flat_map {A B : Type} (g : A -> list B) (l : list A) :
  NoDup l -> (forall x, In x l -> NoDup (g x)) ->
  (forall x x' y, In x l -> In x' l -> In y (g x) -> In y (g x') -> x = x') ->
  NoDup (flat_map g l).
Proof.
  induction l as [|x l IH]; intros Hnd Hin Hcross; simpl; [constructor|].
  apply NoDup_cons in Hnd as [Hx Hnd].
  apply NoDup_app. split; [apply Hin; now left|]. split.
  - intros y Hy (x' & Hx' & Hy')%list_elem_of_In%in_flat_map.
    apply Hx. rewrite list_elem_of_In.
    rewrite (Hcross x x' y); auto; [now left|now right|].
    now apply list_elem_of_In.
  - apply IH; auto.
    + intros x' Hx'. apply Hin. now right.
    + intros x1 x2 y H1 H2. apply Hcross; now right.
Qed.

(** No two positive segments of a case share a start and a lead time. *)
Lemma positive_names_NoDup iohEvents trackStartIndex :
  increasing iohEvents -> Forall event_ok iohEvents ->
  NoDup (map positive_name (third_pass iohEvents trackStartIndex)).
Proof.
  intros Hincr Hok. rewrite third_pass_spec.
  rewrite flat_map_concat_map, concat_map, map_map, <- flat_map_concat_map.
  apply NoDup_flat_map.
  - apply NoDup_ListNoDup, seq_NoDup.
  - intros k _. unfold positive_at.
    destruct (iohEvents !! k) as [event|]; [|constructor].
    rewrite positive_for_event_spec, app_nil_l.
    rewrite flat_map_concat_map, concat_map, map_map, <- flat_map_concat_map.
    apply NoDup_flat_map.
    + unfold ALL_PREDICTION_WINDOWS. repeat constructor;
        rewrite ?list_elem_of_In; simpl; intuition lia.
    + intros L _. destruct (positive_candidate _ _ _ _); repeat constructor.
      now intros ?%list_elem_of_In.
    + intros L L' y _ _ Hy Hy'.
      destruct (positive_candidate _ _ _ L) as [seg|] eqn:Hc; [|destruct Hy].
      destruct (positive_candidate _ _ _ L') as [seg'|] eqn:Hc'; [|destruct Hy'].
      apply positive_candidate_Some in Hc as [-> _].
      apply positive_candidate_Some in Hc' as [-> _].
      destruct Hy as [<-|[]], Hy' as [Heq|[]].
      unfold positive_name in Heq. simpl in Heq. congruence.
  - intros k k' y Hk Hk' Hy Hy'.
    apply in_map_iff in Hy as (seg & <- & Hseg).
    apply in_map_iff in Hy' as (seg' & Heq & Hseg').
    unfold positive_at in Hseg, Hseg'.
    destruct (iohEvents !! k) as [event|] eqn:Hev; [|destruct Hseg].
    destruct (iohEvents !! k') as [event'|] eqn:Hev'; [|destruct Hseg'].
    rewrite positive_for_event_spec, app_nil_l in Hseg, Hseg'.
    apply in_flat_map in Hseg as (L & _ & Hseg).
    apply in_flat_map in Hseg' as (L' & _ & Hseg').
    destruct (positive_candidate _ _ _ L) as [c|] eqn:Hc; [|destruct Hseg].
    destruct (positive_candidate _ _ _ L') as [c'|] eqn:Hc'; [|destruct Hseg'].
    apply positive_candidate_Some in Hc as [-> _].
    apply positive_candidate_Some in Hc' as [-> _].
    destruct Hseg as [<-|[]], Hseg' as [<-|[]].
    unfold positive_name in Heq. simpl in Heq.
    assert (Hstart : event.1 = event'.1) by (injection Heq; lia).
    rewrite Forall_forall in Hok.
    pose proof (Hok event ltac:(eapply list_elem_of_lookup_2; eauto)) as Ho.
    pose proof (Hok event' ltac:(eapply list_elem_of_lookup_2; eauto)) as Ho'.
    unfold event_ok in Ho, Ho'.
    destruct (Nat.lt_trichotomy k k') as [Hlt|[->|Hlt]]; [|reflexivity|].
    + pose proof (increasing_lookup _ _ _ _ _ Hincr Hlt Hev Hev') as Hb.
      unfold ends_before in Hb. lia.
    + pose proof (increasing_lookup _ _ _ _ _ Hincr Hlt Hev' Hev) as Hb.
      unfold ends_before in Hb. lia.
Qed.

Lemma increasing_starts_NoDup l :
  Forall (fun w => w.1 < w.2) l -> increasing l ->
  NoDup (map negative_name l).
Proof.
  induction l as [|w l IH]; intros Hlt Hincr; simpl; [constructor|].
  apply Forall_cons_iff in Hlt as [Hw Hlt].
  apply StronglySorted_inv in Hincr as [Hincr Hwl].
  constructor; [|auto].
  intros (w' & Heq & Hw')%list_elem_of_In%in_map_iff.
  rewrite Forall_forall in Hwl, Hlt.
  specialize (Hwl w' ltac:(now apply list_elem_of_In)).
  unfold ends_before in Hwl. unfold negative_name in Heq.
  injection Heq as Heq. lia.
Qed.

(** X14.  When a case that has no folder yet yields at least one segment,
    [saveCaseSegments] creates its folder with exactly one file per
    segment: the file named by the start and lead time of a positive
    segment (label True), or by the start of a negative segment (lead 0,
    label False), holds the crop to that segment's bounds; the folder holds
    nothing else; and no file is written twice, so that the number of
    files is the number of segments. *)
Theorem X14_one_file_per_segment (abp : list sample) (jvar : option Z)
    (r : case_result) (fs : gmap Z case_folder) (caseid : Z) :
  process_case abp jvar = Done r ->
  fs !! caseid = None ->
  cr_positiveSegments r <> [] \/ cr_negativeSegments r <> [] ->
  exists folder : gmap file_name interval,
    saveCaseSegments fs caseid (cr_positiveSegments r) (cr_negativeSegments r)
      !! caseid = Some folder /\
    (forall s e L, In (s, e, L) (cr_positiveSegments r) ->
       folder !! (s, L, true) = Some (s, e)) /\
    (forall s e, In (s, e) (cr_negativeSegments r) ->
       folder !! (s, 0, false) = Some (s, e)) /\
    (forall name crop, folder !! name = Some crop ->
       (exists L, name = (crop.1, L, true) /\
                  In (crop.1, crop.2, L) (cr_positiveSegments r)) \/
       (name = (crop.1, 0, false) /\ In crop (cr_negativeSegments r))) /\
    size folder
    = (length (cr_positiveSegments r) + length (cr_negativeSegments r))%nat.
Proof.
  intros Hr Hnone Hne.
  pose proof (run_passes_outcome (track_length_seconds abp) (window_mean abp)
                jvar) as Hout.
  unfold process_case in Hr. rewrite Hr in Hout.
  destruct Hout as (st & _ & Hinv & Hev & _ & _ & Hpos & Hneg & Hok & Hincr).
  set (pos := cr_positiveSegments r) in *.
  set (neg := cr_negativeSegments r) in *.
  set (pval := fun e : positive_segment => (e.1.1, e.1.2)).
  set (nval := fun e : interval => (e.1, e.2)).
  assert (Hpn : NoDup (map positive_name pos)).
  { subst pos. rewrite Hpos, Hev.
    apply positive_names_NoDup; [exact (fpi_incr st Hinv)|exact (fpi_ok st Hinv)]. }
  assert (Hlen : Forall (fun w => w.2 - w.1 = 1800) (cr_cleanEvents r)).
  { eapply Forall_impl; [exact Hok|]. now intros w [? _]. }
  assert (Hni : increasing neg).
  { subst neg. rewrite Hneg, fourth_pass_spec.
    now apply negative_segments_increasing. }
  assert (Hn60 : Forall (fun w => w.1 < w.2) neg).
  { subst neg. rewrite Hneg, fourth_pass_spec.
    apply Forall_flat_map, Forall_forall. intros w _.
    unfold negative_of. repeat constructor; simpl; lia. }
  assert (Hnn : NoDup (map negative_name neg))
    by now apply increasing_starts_NoDup.
  exists (write_files negative_name nval
            (write_files positive_name pval ∅ pos) neg).
  split.
  { unfold saveCaseSegments. rewrite Hnone.
    destruct ((length pos =? 0)%nat && (length neg =? 0)%nat) eqn:Hz.
    - apply andb_true_iff in Hz as [Hp%length_eqb_0 Hn%length_eqb_0]. tauto.
    - rewrite lookup_insert_eq. reflexivity. }
  assert (Hdisj : forall x, ~ In (positive_name x) (map negative_name neg)).
  { intros x (w & Heq & _)%in_map_iff. discriminate Heq. }
  split; [|split; [|split]].
  - intros s e L Hin.
    rewrite write_other by (apply (Hdisj (s, e, L))).
    apply (write_lookup positive_name pval pos ∅ (s, e, L) Hpn Hin).
  - intros s e Hin.
    apply (write_lookup negative_name nval neg _ (s, e) Hnn Hin).
  - intros name crop [H|(w & Hw & <- & <-)]%write_from.
    + apply write_from in H as [H|(x & Hx & <- & <-)].
      * unfold case_folder in *. rewrite lookup_empty in H. discriminate.
      * left. exists x.2. destruct x as [[s e] L]. simpl. auto.
    + right. destruct w as [s e]. simpl. auto.
  - rewrite write_size; [|exact Hnn|].
    + rewrite write_size; [|exact Hpn|].
      * unfold case_folder. rewrite map_size_empty. lia.
      * intros x _. apply lookup_empty.
    + intros w _. rewrite write_other; [apply lookup_empty|].
      intros (x & Heq & _)%in_map_iff. discriminate Heq.
Qed.

Lemma X14_one_file_per_segment_witness :
  exists folder : gmap file_name interval,
    saveCaseSegments ∅ 7 [] [(760, 820); (1060, 1120); (1360, 1420)] !! 7
    = Some folder /\
    size folder = 3%nat.
Proof.
  destruct (X14_one_file_per_segment mixed_track None _ ∅ 7 (mixed_case None))
    as (folder & Hf & _ & _ & _ & Hsize).
  - apply lookup_empty.
  - right. discriminate.
  - exists folder. split; [exact Hf|exact Hsize].
Defined.

(** ** File and folder names *)

Lemma lacks_app c s1 s2 : lacks c s1 -> lacks c s2 -> lacks c (s1 ++ s2)%string.
Proof. induction s1 as [|a s1 IH]; simpl; [auto|]. intros [? ?] ?. auto. Qed.

Lemma split_on_lacks c s : lacks c s -> split_on c s = [s].
Proof.
  induction s as [|a s IH]; simpl; [reflexivity|].
  intros [Ha Hs]. rewrite IH by exact Hs.
  destruct (Ascii.eqb_spec a c); [contradiction|reflexivity].
Qed.

Lemma split_on_app c s1 s2 :
  lacks c s1 -> split_on c (s1 ++ String c s2)%string = s1 :: split_on c s2.
Proof.
  induction s1 as [|a s1 IH]; simpl.
  - intros _. now rewrite Ascii.eqb_refl.
  - intros [Ha Hs]. rewrite IH by exact Hs.
    destruct (Ascii.eqb_spec a c); [contradiction|reflexivity].
Qed.


(** The digits of a number hold neither an underscore nor a minus sign. *)
Lemma uint_lacks c u :
  (c <> "0" /\ c <> "1" /\ c <> "2" /\ c <> "3" /\ c <> "4" /\ c <> "5" /\
   c <> "6" /\ c <> "7" /\ c <> "8" /\ c <> "9")%char ->
  lacks c (NilEmpty.string_of_uint u).
Proof.
  intros Hc. induction u; simpl; intuition congruence.
Qed.

Lemma zeros_lacks c k : c <> "0"%char -> lacks c (zeros k).
Proof. intros Hc. induction k; simpl; auto. Qed.

Lemma numeral_nonnil n : numeral n <> Decimal.Nil.
Proof.
  unfold numeral. destruct (Z.to_N n); simpl; [discriminate|].
  apply Unsigned.to_uint_nonnil.
Qed.

Lemma numeral_value n : 0 <= n -> Z.of_uint (numeral n) = n.
Proof.
  intros Hn. unfold Z.of_uint, numeral.
  change (Pos.of_uint ?u) with (N.of_uint u).
  rewrite DecimalN.Unsigned.of_to. lia.
Qed.

Lemma string_of_uint_nonnil u :
  u <> Decimal.Nil -> NilZero.string_of_uint u = NilEmpty.string_of_uint u.
Proof. destruct u; [congruence|reflexivity..]. Qed.

Lemma format_d_nonneg n :
  0 <= n -> format_d n = NilEmpty.string_of_uint (numeral n).
Proof.
  intros Hn. unfold format_d, numeral.
  destruct n as [|p|p]; [reflexivity| |lia].
  simpl. apply string_of_uint_nonnil, Unsigned.to_uint_nonnil.
Qed.

Lemma format_d_neg n :
  n < 0 -> format_d n = String "-" (NilEmpty.string_of_uint (numeral (- n))).
Proof.
  intros Hn. unfold format_d, numeral.
  destruct n as [|p|p]; [lia|lia|].
  simpl. f_equal. apply string_of_uint_nonnil, Unsigned.to_uint_nonnil.
Qed.

Lemma uint_of_zeros k s :
  NilEmpty.uint_of_string (zeros k ++ s)
  = option_map (Nat.iter k Decimal.D0) (NilEmpty.uint_of_string s).
Proof.
  induction k as [|k IH].
  - change (zeros 0 ++ s)%string with s.
    destruct (NilEmpty.uint_of_string s); reflexivity.
  - change (zeros (S k) ++ s)%string with (String "0" (zeros k ++ s)).
    change (NilEmpty.uint_of_string (String "0" (zeros k ++ s)))
      with (uint_of_char "0" (NilEmpty.uint_of_string (zeros k ++ s))).
    rewrite IH. destruct (NilEmpty.uint_of_string s); reflexivity.
Qed.

Lemma of_uint_zeros k u : Z.of_uint (Nat.iter k Decimal.D0 u) = Z.of_uint u.
Proof. induction k as [|k IH]; [reflexivity|exact IH]. Qed.

(** Reading zeros and digits. *)
Lemma parse_padded k u :
  u <> Decimal.Nil ->
  parse_int (zeros k ++ NilEmpty.string_of_uint u) = Some (Z.of_uint u).
Proof.
  intros Hu. unfold parse_int.
  assert (Hread : NilEmpty.uint_of_string
                    (zeros k ++ NilEmpty.string_of_uint u)
                  = Some (Nat.iter k Decimal.D0 u)).
  { now rewrite uint_of_zeros, NilEmpty.usu. }
  assert (Hlacks : lacks "-" (zeros k ++ NilEmpty.string_of_uint u)).
  { apply lacks_app; [apply zeros_lacks; discriminate|].
    apply uint_lacks. repeat split; discriminate. }
  destruct (zeros k ++ NilEmpty.string_of_uint u)%string as [|a s] eqn:Hs.
  - destruct k; [|discriminate]. destruct u; try discriminate. congruence.
  - unfold NilZero.int_of_string. destruct Hlacks as [Ha _].
    destruct (Ascii.eqb_spec a "-"); [contradiction|].
    unfold NilZero.uint_of_string. rewrite Hread. simpl.
    now rewrite of_uint_zeros.
Qed.

Lemma parse_minus_padded k u :
  u <> Decimal.Nil ->
  parse_int (String "-" (zeros k ++ NilEmpty.string_of_uint u))
  = Some (- Z.of_uint u).
Proof.
  intros Hu. unfold parse_int, NilZero.int_of_string.
  rewrite Ascii.eqb_refl.
  assert (Hread : NilEmpty.uint_of_string
                    (zeros k ++ NilEmpty.string_of_uint u)
                  = Some (Nat.iter k Decimal.D0 u)).
  { now rewrite uint_of_zeros, NilEmpty.usu. }
  unfold NilZero.uint_of_string.
  destruct (zeros k ++ NilEmpty.string_of_uint u)%string as [|a s] eqn:Hs.
  - destruct k; [|discriminate]. destruct u; try discriminate. congruence.
  - rewrite Hread. simpl. now rewrite of_uint_zeros.
Qed.

Lemma parse_format_d n : parse_int (format_d n) = Some n.
Proof.
  destruct (Z.lt_ge_cases n 0) as [Hn|Hn].
  - rewrite format_d_neg by exact Hn.
    pose proof (parse_minus_padded 0 _ (numeral_nonnil (- n))) as H.
    change (zeros 0 ++ ?x)%string with x in H.
    rewrite H, numeral_value by lia. f_equal. lia.
  - rewrite format_d_nonneg by exact Hn.
    pose proof (parse_padded 0 _ (numeral_nonnil n)) as H.
    change (zeros 0 ++ ?x)%string with x in H.
    now rewrite H, numeral_value.
Qed.

Lemma parse_format_0d w n : parse_int (format_0d w n) = Some n.
Proof.
  unfold format_0d. destruct (Z.ltb_spec n 0) as [Hn|Hn].
  - rewrite (format_d_nonneg (- n)) by lia.
    rewrite parse_minus_padded by apply numeral_nonnil.
    rewrite numeral_value by lia. f_equal. lia.
  - rewrite format_d_nonneg by exact Hn.
    rewrite parse_padded by apply numeral_nonnil.
    now rewrite numeral_value.
Qed.

Lemma format_d_lacks n : lacks "_" (format_d n).
Proof.
  destruct (Z.lt_ge_cases n 0) as [Hn|Hn].
  - rewrite format_d_neg by exact Hn. split; [discriminate|].
    apply uint_lacks. repeat split; discriminate.
  - rewrite format_d_nonneg by exact Hn.
    apply uint_lacks. repeat split; discriminate.
Qed.

Lemma format_0d_lacks w n : lacks "_" (format_0d w n).
Proof.
  unfold format_0d. destruct (n <? 0).
  - split; [discriminate|].
    apply lacks_app; [apply zeros_lacks; discriminate|apply format_d_lacks].
  - apply lacks_app; [apply zeros_lacks; discriminate|apply format_d_lacks].
Qed.

Lemma positive_filename_fields caseid (event : positive_segment) :
  positive_filename caseid event
  = (format_0d 4 caseid
       ++ String "_" (format_d event.1.1
            ++ String "_" (format_0d 2 event.2 ++ String "_" "True.track")))%string.
Proof. reflexivity. Qed.

Lemma negative_filename_fields caseid (event : interval) :
  negative_filename caseid event
  = (format_0d 4 caseid
       ++ String "_" (format_d event.1
            ++ String "_" ("0" ++ String "_" "False.track")))%string.
Proof. reflexivity. Qed.

(** X15.  The names under which segments are stored can be read back:
    the folder name of a case gives its case id, and the name of a segment
    file gives the case id, the start second, the lead time (0 for a
    negative segment) and the label.  So no two cases share a folder, no two
    segments that differ in start, lead time or label share a file name,
    and a positive and a negative segment never do. *)
Theorem X15_names_read_back (caseid : Z) :
  parse_int (seg_folder_name caseid) = Some caseid /\
  (forall event : positive_segment,
     parse_filename (positive_filename caseid event)
     = Some (caseid, positive_name event)) /\
  (forall event : interval,
     parse_filename (negative_filename caseid event)
     = Some (caseid, negative_name event)) /\
  (forall caseid', seg_folder_name caseid = seg_folder_name caseid' ->
     caseid = caseid') /\
  (forall caseid' (event event' : positive_segment),
     positive_filename caseid event = positive_filename caseid' event' ->
     caseid = caseid' /\ event.1.1 = event'.1.1 /\ event.2 = event'.2) /\
  (forall caseid' (event event' : interval),
     negative_filename caseid event = negative_filename caseid' event' ->
     caseid = caseid' /\ event.1 = event'.1) /\
  (forall caseid' (event : positive_segment) (event' : interval),
     positive_filename caseid event <> negative_filename caseid' event').
Proof.
  assert (Hpos : forall c (event : positive_segment),
            parse_filename (positive_filename c event)
            = Some (c, positive_name event)).
  { intros c event. unfold parse_filename.
    rewrite positive_filename_fields.
    rewrite split_on_app by apply format_0d_lacks.
    rewrite split_on_app by apply format_d_lacks.
    rewrite split_on_app by apply format_0d_lacks.
    rewrite split_on_lacks by (simpl; repeat split; discriminate).
    rewrite !parse_format_0d, parse_format_d. reflexivity. }
  assert (Hneg : forall c (event : interval),
            parse_filename (negative_filename c event)
            = Some (c, negative_name event)).
  { intros c event. unfold parse_filename.
    rewrite negative_filename_fields.
    rewrite split_on_app by apply format_0d_lacks.
    rewrite split_on_app by apply format_d_lacks.
    rewrite split_on_app by (simpl; repeat split; discriminate).
    rewrite split_on_lacks by (simpl; repeat split; discriminate).
    rewrite parse_format_0d, parse_format_d. reflexivity. }
  split; [apply parse_format_0d|].
  split; [apply Hpos|]. split; [apply Hneg|].
  split; [|split; [|split]].
  - intros c' Heq. apply (f_equal parse_int) in Heq.
    unfold seg_folder_name in Heq. rewrite !parse_format_0d in Heq.
    congruence.
  - intros c' event event' Heq. apply (f_equal parse_filename) in Heq.
    rewrite !Hpos in Heq. unfold positive_name in Heq.
    injection Heq. auto.
  - intros c' event event' Heq. apply (f_equal parse_filename) in Heq.
    rewrite !Hneg in Heq. unfold negative_name in Heq.
    injection Heq. auto.
  - intros c' event event' Heq. apply (f_equal parse_filename) in Heq.
    rewrite Hpos, Hneg in Heq. discriminate.
Qed.

(** ** Tracks that stay on one side of a threshold *)

Lemma nansum_never_below t l :
  never_below t l -> (t * inject_Z (Z.of_nat (nancount l)) <= nansum l)%Q.
Proof.
  induction 1 as [|[q|] l Hq _ IH]; simpl nansum; simpl nancount.
  - simpl. rewrite Qmult_0_r. apply Qle_refl.
  - rewrite Nat2Z.inj_succ. unfold Z.succ. rewrite inject_Z_plus.
    rewrite Qmult_plus_distr_r, Qmult_1_r, Qplus_comm.
    now apply Qplus_le_compat.
  - exact IH.
Qed.



Lemma count_positive l :
  nancount l <> O -> (0 < inject_Z (Z.of_nat (nancount l)))%Q.
Proof.
  intros Hc. change 0%Q with (inject_Z 0). rewrite <- Zlt_Qlt. lia.
Qed.

(** A slice none of whose numbers is below [t] has no mean below [t]; a
    slice all of whose numbers are below [t] has no mean of at least [t]. *)
Lemma nanmean_never_below t l :
  never_below t l -> mean_lt (nanmean l) t = false.
Proof.
  intros Hl. unfold nanmean.
  destruct (nancount l) as [|n] eqn:Hn; [reflexivity|]. rewrite <- Hn.
  simpl. apply negb_false_iff, Qle_bool_iff.
  apply Qle_shift_div_l; [apply count_positive; lia|].
  now apply nansum_never_below.
Qed.


Lemma window_never_below t abp a b :
  never_below t abp -> mean_lt (window_mean abp a b) t = false.
Proof.
  intros Hl. apply nanmean_never_below.
  unfold py_slice. apply Forall_take, Forall_drop, Hl.
Qed.


(** A first pass that meets no minute below 65 records nothing and leaves
    [j] alone. *)
Lemma first_pass_no_onset tls wm jvar :
  (forall i, mean_lt (wm i (i + 60)) 65%Q = false) ->
  exists st, first_pass tls wm jvar = Some st /\
             fp_iohEvents st = [] /\ fp_j st = jvar.
Proof.
  intros Hquiet.
  destruct (first_pass_inv tls wm jvar) as (st & Hfp & _).
  exists st. split; [exact Hfp|].
  apply (first_pass_loop_run tls wm
           (fun st => fp_iohEvents st = [] /\ fp_j st = jvar)) in Hfp.
  - destruct Hfp as (st0 & [Hev Hj] & [[_ ->]|[_ Hbody]]); [auto|].
    unfold first_pass_body in Hbody. rewrite Hquiet in Hbody.
    destruct (negb (fp_started st0)); [|discriminate].
    destruct (mean_ge _ _); discriminate.
  - intros st1 st2 [Hev Hj] _ Hbody.
    unfold first_pass_body in Hbody. rewrite Hquiet in Hbody.
    destruct (negb (fp_started st1)); [destruct (mean_ge _ _)|];
      injection Hbody as <-; auto.
  - auto.
Qed.

(** X16.  On a track none of whose samples is below 65 (gaps aside), the
    first pass records no IOH event and makes no recovery search, so that
    [j] is left as it was; the case then has no positive segment. *)
Theorem X16_no_sample_below_65 (abp : list sample) (jvar : option Z) :
  never_below 65 abp ->
  (exists st, first_pass_of abp jvar = Some st /\
              fp_iohEvents st = [] /\ fp_j st = jvar) /\
  (forall r, process_case abp jvar = Done r ->
     cr_iohEvents r = [] /\ cr_positiveSegments r = [] /\ cr_j r = jvar).
Proof.
  intros Hl.
  destruct (first_pass_no_onset (track_length_seconds abp) (window_mean abp)
              jvar) as (st & Hfp & Hev & Hj).
  { intros i. now apply window_never_below. }
  split; [eauto|].
  intros r Hr. unfold process_case in Hr.
  apply run_passes_Done in Hr as (st' & Hfp' & _ & _ & ->).
  assert (st' = st) as -> by congruence.
  simpl. rewrite Hev. auto.
Qed.

Lemma X16_no_sample_below_65_witness :
  track_length_seconds steady_track = 1802 /\
  first_pass_of steady_track (Some 175)
  = Some (FpState 1742 true (Some 0) [] (Some 175)) /\
  (exists st, first_pass_of steady_track (Some 175) = Some st /\
              fp_iohEvents st = [] /\ fp_j st = Some 175) /\
  (forall r, process_case steady_track (Some 175) = Done r ->
     cr_iohEvents r = [] /\ cr_positiveSegments r = [] /\
     cr_j r = Some 175).
Proof.
  split; [exact steady_length|]. split; [apply steady_first_pass|].
  apply (X16_no_sample_below_65 steady_track (Some 175)).
  apply per_second_Forall, Forall_forall.
  intros x Hx%list_elem_of_In. unfold steady_seconds, seconds_of in Hx.
  apply in_map_iff in Hx as (q & <- & Hq). apply repeat_spec in Hq.
  subst q. discriminate.
Defined.


(** ** Paths and cache keys *)

Lemma string_app_inv_head (s t1 t2 : string) :
  (s ++ t1 = s ++ t2)%string -> t1 = t2.
Proof. induction s as [|a s IH]; simpl; [auto|]. intros [= H]. auto. Qed.

Lemma format_d_without c n :
  (c <> "-" /\ c <> "0" /\ c <> "1" /\ c <> "2" /\ c <> "3" /\ c <> "4" /\
   c <> "5" /\ c <> "6" /\ c <> "7" /\ c <> "8" /\ c <> "9")%char ->
  lacks c (format_d n).
Proof.
  intros Hc. destruct Hc as (Hm & Hc).
  destruct (Z.lt_ge_cases n 0) as [Hn|Hn].
  - rewrite format_d_neg by exact Hn. split; [congruence|].
    now apply uint_lacks.
  - rewrite format_d_nonneg by exact Hn. now apply uint_lacks.
Qed.

Lemma format_0d_without c w n :
  (c <> "-" /\ c <> "0" /\ c <> "1" /\ c <> "2" /\ c <> "3" /\ c <> "4" /\
   c <> "5" /\ c <> "6" /\ c <> "7" /\ c <> "8" /\ c <> "9")%char ->
  lacks c (format_0d w n).
Proof.
  intros Hc. pose proof Hc as (Hm & H0 & _).
  unfold format_0d. destruct (n <? 0).
  - split; [congruence|].
    apply lacks_app; [now apply zeros_lacks|now apply format_d_without].
  - apply lacks_app; [now apply zeros_lacks|now apply format_d_without].
Qed.

Lemma format_0d_suffix_inj w n m s :
  (format_0d w n ++ String "." s = format_0d w m ++ String "." s)%string ->
  n = m.
Proof.
  intros H. apply (f_equal (split_on ".")) in H.
  rewrite !split_on_app in H
    by (apply format_0d_without; repeat split; discriminate).
  injection H as H. apply (f_equal parse_int) in H.
  rewrite !parse_format_0d in H. congruence.
Qed.

Lemma full_path_inj i j : full_path i = full_path j -> i = j.
Proof.
  unfold full_path. intros H.
  apply string_app_inv_head, string_app_inv_head in H.
  now apply format_0d_suffix_inj in H.
Qed.

Lemma mini_path_inj i j : mini_path i = mini_path j -> i = j.
Proof.
  unfold mini_path. intros H.
  apply string_app_inv_head, string_app_inv_head in H.
  apply (f_equal (split_on "_")) in H.
  rewrite !split_on_app in H by apply format_0d_lacks.
  injection H as H. apply (f_equal parse_int) in H.
  rewrite !parse_format_0d in H. congruence.
Qed.

Lemma full_path_not_mini i j : full_path i <> mini_path j.
Proof. unfold full_path, mini_path. simpl. discriminate. Qed.

Lemma cache_label_name_inj case n1 n2 :
  cache_label case n1 = cache_label case n2 -> n1 = n2.
Proof.
  unfold cache_label. intros H.
  now apply string_app_inv_head, string_app_inv_head in H.
Qed.

Lemma cache_label_case_inj case1 case2 n1 n2 :
  cache_label case1 n1 = cache_label case2 n2 -> case1 = case2.
Proof.
  unfold cache_label. intros H. apply (f_equal (split_on "|")) in H.
  change ("|" ++ n1)%string with (String "|" n1) in H.
  change ("|" ++ n2)%string with (String "|" n2) in H.
  rewrite !split_on_app in H
    by (apply format_d_without; repeat split; discriminate).
  injection H as H _. apply (f_equal parse_int) in H.
  rewrite !parse_format_d in H. congruence.
Qed.


(** ** Loops *)

Lemma for_each_cons {S A : Type} (x : A) l (body : A -> io S unit) s :
  for_each (x :: l) body s
  = match body x s with
    | (Ok _, s') => for_each l body s'
    | (Raise e, s') => (Raise e, s')
    end.
Proof.
  unfold for_each. simpl. unfold bind.
  destruct (body x s) as [[[]|e] s']; reflexivity.
Qed.

Lemma for_each_app {S A : Type} (l1 l2 : list A) (body : A -> io S unit) s :
  for_each (l1 ++ l2) body s
  = match for_each l1 body s with
    | (Ok _, s') => for_each l2 body s'
    | (Raise e, s') => (Raise e, s')
    end.
Proof.
  revert s. induction l1 as [|x l1 IH]; intros s; [reflexivity|].
  rewrite <- app_comm_cons, !for_each_cons.
  destruct (body x s) as [[[]|e] s']; [apply IH|reflexivity].
Qed.

Lemma isfile_true {V : Type} (d : gmap string V) p :
  isfile d p = true <-> is_Some (d !! p).
Proof.
  unfold isfile. destruct (d !! p); split; eauto; try discriminate.
  intros [? ?]; discriminate.
Qed.

(** *** The download loop *)

Section Download.

Context {vital : Type}.
Variable download : Z -> option vital.

Abbreviation download_one := (download_body download).

Lemma download_body_cases idx s :
  (is_Some (disk s !! full_path idx) /\
   download_one idx s
   = (Ok tt, PrepState (disk s) (count_downloaded s) (count_minified s)
               (S (count_present s)))) \/
  (exists vf, disk s !! full_path idx = None /\ download idx = Some vf /\
     download_one idx s
     = (Ok tt, PrepState (<[full_path idx := vf]> (disk s))
                 (S (count_downloaded s)) (count_minified s)
                 (count_present s))) \/
  (disk s !! full_path idx = None /\ download idx = None /\
   download_one idx s = (Raise (RequestFailed (format_d idx)), s)).
Proof.
  unfold download_body, isfile.
  destruct (disk s !! full_path idx) as [v|] eqn:Hf; simpl; [eauto|].
  destruct (download idx) as [vf|]; eauto 10.
Qed.

Lemma download_loop_spec l : forall s,
  let out := for_each l download_one s in
  (forall p v, disk s !! p = Some v -> disk out.2 !! p = Some v) /\
  (forall p v, disk out.2 !! p = Some v -> disk s !! p = None ->
     exists idx, idx ∈ l /\ p = full_path idx /\ download idx = Some v) /\
  count_minified out.2 = count_minified s /\
  (size (disk out.2) + count_downloaded s
   = size (disk s) + count_downloaded out.2)%nat /\
  match out.1 with
  | Ok _ =>
      (count_downloaded out.2 + count_present out.2
       = count_downloaded s + count_present s + length l)%nat /\
      forall idx, idx ∈ l -> is_Some (disk out.2 !! full_path idx)
  | Raise e =>
      exists idx, idx ∈ l /\ e = RequestFailed (format_d idx) /\
                  disk out.2 !! full_path idx = None /\ download idx = None
  end.
Proof.
  induction l as [|idx l IH]; intros s.
  - simpl. repeat split; auto.
    + intros p v H1 H2. congruence.
    + intros idx H. inversion H.
  - cbv zeta. rewrite for_each_cons.
    destruct (download_body_cases idx s)
      as [(Hf & ->)|[(vf & Hf & Hd & ->)|(Hf & Hd & ->)]].
    + specialize (IH (PrepState (disk s) (count_downloaded s)
                        (count_minified s) (S (count_present s)))).
      cbv zeta in IH. simpl in IH.
      destruct IH as (H1 & H2 & H3 & H4 & H5).
      repeat split; auto.
      * intros p v Hp Hn. destruct (H2 p v Hp Hn) as (i & Hi & ? & ?).
        exists i. rewrite elem_of_cons. auto.
      * destruct (for_each l download_one _).1.
        -- destruct H5 as (H5 & H6). split; [cbn [length]; lia|].
           intros i [->|Hi]%elem_of_cons; [|auto].
           destruct Hf as (v & Hv). eauto.
        -- destruct H5 as (i & Hi & ?). exists i. rewrite elem_of_cons. auto.
    + specialize (IH (PrepState (<[full_path idx := vf]> (disk s))
                        (S (count_downloaded s)) (count_minified s)
                        (count_present s))).
      cbv zeta in IH. simpl in IH.
      destruct IH as (H1 & H2 & H3 & H4 & H5).
      rewrite map_size_insert_None in H4 by exact Hf.
      repeat split; auto.
      * intros p v Hp. apply H1.
        rewrite lookup_insert_ne; [exact Hp|congruence].
      * intros p v Hp Hn.
        destruct (decide (p = full_path idx)) as [->|Hne].
        -- exists idx. rewrite elem_of_cons. repeat split; auto.
           specialize (H1 (full_path idx) vf).
           rewrite lookup_insert_eq in H1. specialize (H1 eq_refl).
           congruence.
        -- destruct (H2 p v Hp) as (i & Hi & ? & ?).
           { rewrite lookup_insert_ne; [exact Hn|congruence]. }
           exists i. rewrite elem_of_cons. auto.
      * lia.
      * destruct (for_each l download_one _).1.
        -- destruct H5 as (H5 & H6). split; [cbn [length]; lia|].
           intros i [->|Hi]%elem_of_cons; [|auto].
           exists vf. apply H1. apply lookup_insert_eq.
        -- destruct H5 as (i & Hi & ?). exists i. rewrite elem_of_cons. auto.
    + simpl. repeat split; auto.
      * intros p v H1 H2. congruence.
      * exists idx. rewrite elem_of_cons. auto.
Qed.

Lemma download_loop_completes l : forall s,
  (forall idx, idx ∈ l ->
     is_Some (disk s !! full_path idx) \/ is_Some (download idx)) ->
  (for_each l download_one s).1 = Ok tt.
Proof.
  induction l as [|idx l IH]; intros s Hl; [reflexivity|].
  rewrite for_each_cons.
  destruct (download_body_cases idx s)
    as [(Hf & ->)|[(vf & Hf & Hd & ->)|(Hf & Hd & ->)]].
  - apply IH. intros i Hi. simpl. apply Hl. rewrite elem_of_cons. auto.
  - apply IH. intros i Hi. simpl.
    destruct (Hl i) as [(v & Hv)|?]; [rewrite elem_of_cons; auto| |auto].
    left. destruct (decide (full_path i = full_path idx)) as [->|Hne].
    + rewrite lookup_insert_eq. eauto.
    + rewrite lookup_insert_ne by congruence. eauto.
  - destruct (Hl idx) as [(v & Hv)|(v & Hv)]; [rewrite elem_of_cons; auto| |];
      congruence.
Qed.

End Download.

(** *** The conversion loop *)

Section Minify.

Context {vital : Type}.
Variable tracks : vital -> vital.

Abbreviation minify_one := (minify_body tracks).

Lemma minify_body_cases idx s :
  (is_Some (disk s !! mini_path idx) /\
   minify_one idx s
   = (Ok tt, PrepState (disk s) (count_downloaded s) (count_minified s)
               (S (count_present s)))) \/
  (exists v, disk s !! mini_path idx = None /\
     disk s !! full_path idx = Some v /\
     minify_one idx s
     = (Ok tt, PrepState (<[mini_path idx := tracks v]> (disk s))
                 (count_downloaded s) (S (count_minified s))
                 (count_present s))) \/
  (disk s !! mini_path idx = None /\ disk s !! full_path idx = None /\
   minify_one idx s = (Raise (OpenFailed (full_path idx)), s)).
Proof.
  unfold minify_body, isfile.
  destruct (disk s !! mini_path idx) as [m|] eqn:Hm; simpl; [eauto|].
  destruct (disk s !! full_path idx) as [v|]; eauto 10.
Qed.

Lemma minify_loop_spec l : forall s,
  let out := for_each l minify_one s in
  (forall p v, disk s !! p = Some v -> disk out.2 !! p = Some v) /\
  (forall idx, disk out.2 !! full_path idx = disk s !! full_path idx) /\
  (forall p m, disk out.2 !! p = Some m -> disk s !! p = None ->
     exists idx v, idx ∈ l /\ p = mini_path idx /\
                   disk s !! full_path idx = Some v /\ m = tracks v) /\
  count_downloaded out.2 = count_downloaded s /\
  (size (disk out.2) + count_minified s
   = size (disk s) + count_minified out.2)%nat /\
  match out.1 with
  | Ok _ =>
      (count_minified out.2 + count_present out.2
       = count_minified s + count_present s + length l)%nat /\
      forall idx, idx ∈ l -> is_Some (disk out.2 !! mini_path idx)
  | Raise e =>
      exists idx, idx ∈ l /\ e = OpenFailed (full_path idx) /\
                  disk out.2 !! mini_path idx = None /\
                  disk out.2 !! full_path idx = None
  end.
Proof.
  induction l as [|idx l IH]; intros s.
  - simpl. repeat split; auto.
    + intros p v H1 H2. congruence.
    + intros idx H. inversion H.
  - cbv zeta. rewrite for_each_cons.
    destruct (minify_body_cases idx s)
      as [(Hf & ->)|[(v0 & Hm & Hf & ->)|(Hm & Hf & ->)]].
    + specialize (IH (PrepState (disk s) (count_downloaded s)
                        (count_minified s) (S (count_present s)))).
      cbv zeta in IH. simpl in IH.
      destruct IH as (H1 & H2 & H3 & H4 & H5 & H6).
      repeat split; auto.
      * intros p v Hp Hn. destruct (H3 p v Hp Hn) as (i & w & Hi & ?).
        exists i, w. rewrite elem_of_cons. auto.
      * destruct (for_each l minify_one _).1.
        -- destruct H6 as (H6 & H7). split; [cbn [length]; lia|].
           intros i [->|Hi]%elem_of_cons; [|auto].
           destruct Hf as (v & Hv). eauto.
        -- destruct H6 as (i & Hi & ?). exists i. rewrite elem_of_cons. auto.
    + specialize (IH (PrepState (<[mini_path idx := tracks v0]> (disk s))
                        (count_downloaded s) (S (count_minified s))
                        (count_present s))).
      cbv zeta in IH. simpl in IH.
      destruct IH as (H1 & H2 & H3 & H4 & H5 & H6).
      rewrite map_size_insert_None in H5 by exact Hm.
      assert (Hfull : forall i, <[mini_path idx := tracks v0]> (disk s)
                                  !! full_path i = disk s !! full_path i).
      { intros i. apply lookup_insert_ne.
        intros H. symmetry in H. now apply full_path_not_mini in H. }
      repeat split; auto.
      * intros p v Hp. apply H1.
        rewrite lookup_insert_ne; [exact Hp|congruence].
      * intros i. rewrite H2. apply Hfull.
      * intros p v Hp Hn.
        destruct (decide (p = mini_path idx)) as [->|Hne].
        -- exists idx, v0. rewrite elem_of_cons. repeat split; auto.
           specialize (H1 (mini_path idx) (tracks v0)).
           rewrite lookup_insert_eq in H1. specialize (H1 eq_refl).
           congruence.
        -- destruct (H3 p v Hp) as (i & w & Hi & ? & Hw & ?).
           { rewrite lookup_insert_ne; [exact Hn|congruence]. }
           exists i, w. rewrite elem_of_cons. rewrite Hfull in Hw. auto.
      * lia.
      * destruct (for_each l minify_one _).1.
        -- destruct H6 as (H6 & H7). split; [cbn [length]; lia|].
           intros i [->|Hi]%elem_of_cons; [|auto].
           exists (tracks v0). apply H1. apply lookup_insert_eq.
        -- destruct H6 as (i & Hi & ?). exists i. rewrite elem_of_cons. auto.
    + simpl. repeat split; auto.
      * intros p v H1 H2. congruence.
      * exists idx. rewrite elem_of_cons. auto.
Qed.

Lemma minify_loop_completes l : forall s,
  (forall idx, idx ∈ l ->
     is_Some (disk s !! mini_path idx) \/ is_Some (disk s !! full_path idx)) ->
  (for_each l minify_one s).1 = Ok tt.
Proof.
  induction l as [|idx l IH]; intros s Hl; [reflexivity|].
  rewrite for_each_cons.
  assert (Hl' : forall i, i ∈ l ->
            is_Some (disk s !! mini_path i) \/ is_Some (disk s !! full_path i)).
  { intros i Hi. apply Hl. rewrite elem_of_cons. auto. }
  destruct (minify_body_cases idx s)
    as [(Hf & ->)|[(v0 & Hm & Hf & ->)|(Hm & Hf & ->)]].
  - apply IH. exact Hl'.
  - apply IH. intros i Hi. simpl.
    destruct (Hl' i Hi) as [(v & Hv)|(v & Hv)].
    + left. destruct (decide (mini_path i = mini_path idx)) as [->|Hne].
      * rewrite lookup_insert_eq. eauto.
      * rewrite lookup_insert_ne by congruence. eauto.
    + right. rewrite lookup_insert_ne; [eauto|].
      intros H. symmetry in H. now apply full_path_not_mini in H.
  - destruct (Hl idx) as [(v & Hv)|(v & Hv)]; [rewrite elem_of_cons; auto| |];
      congruence.
Qed.

(** A pass over cases that all have their small file only counts them. *)
Lemma minify_loop_present l : forall s,
  (forall idx, idx ∈ l -> is_Some (disk s !! mini_path idx)) ->
  for_each l minify_one s
  = (Ok tt, PrepState (disk s) (count_downloaded s) (count_minified s)
              (count_present s + length l)).
Proof.
  induction l as [|idx l IH]; intros s Hl.
  - simpl. unfold for_each, for_fold, ret. destruct s; simpl.
    now rewrite Nat.add_0_r.
  - rewrite for_each_cons.
    destruct (minify_body_cases idx s)
      as [(Hf & ->)|[(v0 & Hm & Hf & ->)|(Hm & Hf & ->)]].
    + rewrite IH; simpl.
      * do 2 f_equal. lia.
      * intros i Hi. apply Hl. rewrite elem_of_cons. auto.
    + destruct (Hl idx) as (v & Hv); [rewrite elem_of_cons; auto|congruence].
    + destruct (Hl idx) as (v & Hv); [rewrite elem_of_cons; auto|congruence].
Qed.

(** The loop looks at the files only: from two states with the same files
    it does the same, and the counters move on by the same amounts. *)
Lemma minify_loop_same_disk l : forall s t,
  disk s = disk t ->
  let out := for_each l minify_one s in
  let out' := for_each l minify_one t in
  out.1 = out'.1 /\ disk out.2 = disk out'.2 /\
  (count_minified out.2 + count_minified t
   = count_minified out'.2 + count_minified s)%nat /\
  (count_present out.2 + count_present t
   = count_present out'.2 + count_present s)%nat.
Proof.
  induction l as [|idx l IH]; intros s t Hd.
  - simpl. repeat split; auto; lia.
  - cbv zeta. rewrite !for_each_cons.
    destruct (minify_body_cases idx s)
      as [(Hf & ->)|[(v0 & Hm & Hf & ->)|(Hm & Hf & ->)]];
    destruct (minify_body_cases idx t)
      as [(Hf' & ->)|[(v1 & Hm' & Hf' & ->)|(Hm' & Hf' & ->)]];
    rewrite Hd in *;
    try (destruct Hf as (? & ?); congruence);
    try (destruct Hf' as (? & ?); congruence);
    try congruence.
    + match goal with
      | |- context [for_each l _ ?a] =>
          match goal with
          | |- context [(for_each l _ ?b).1 = (for_each l _ ?c).1] =>
              specialize (IH b c eq_refl)
          end
      end.
      cbv zeta in IH. simpl in IH. intuition lia.
    + assert (v1 = v0) as -> by congruence.
      match goal with
      | |- context [(for_each l _ ?b).1 = (for_each l _ ?c).1] =>
          specialize (IH b c eq_refl)
      end.
      cbv zeta in IH. simpl in IH. intuition lia.
    + simpl. repeat split; auto; lia.
Qed.

End Minify.


(** ** The download and the conversion of the files *)

(** X18.  The download loop (lines 154-167) removes and overwrites no
    file; every file it adds is the full file of a case of the list and
    holds what the server sent for that case; the number of files grows by
    [count_downloaded].  It completes exactly when every case of the list
    has its full file already or can be downloaded; every case of the list
    then has its full file, and [count_downloaded + count_present] is the
    length of the list. *)
Theorem X18_download_loop {vital : Type} (download : Z -> option vital)
    (cases : list Z) (s : prep_state vital) :
  let out := download_all download cases s in
  (forall p v, disk s !! p = Some v -> disk out.2 !! p = Some v) /\
  (forall p v, disk out.2 !! p = Some v -> disk s !! p = None ->
     exists idx, idx ∈ cases /\ p = full_path idx /\ download idx = Some v) /\
  size (disk out.2) = (size (disk s) + count_downloaded out.2)%nat /\
  (out.1 = Ok tt <->
   forall idx, idx ∈ cases ->
     is_Some (disk s !! full_path idx) \/ is_Some (download idx)) /\
  (out.1 = Ok tt ->
   (count_downloaded out.2 + count_present out.2 = length cases)%nat /\
   forall idx, idx ∈ cases -> isfile (disk out.2) (full_path idx) = true).
Proof.
  cbv zeta. unfold download_all.
  pose proof (download_loop_spec download cases
                (PrepState (disk s) 0 (count_minified s) 0)) as H.
  cbv zeta in H. simpl in H. destruct H as (H1 & H2 & _ & H4 & H5).
  split; [exact H1|]. split; [exact H2|]. split; [lia|]. split; [split|].
  - intros Hok idx Hi. rewrite Hok in H5. destruct H5 as (_ & H5).
    destruct (disk s !! full_path idx) as [v|] eqn:Hs; [eauto|]. right.
    destruct (H5 idx Hi) as (v & Hv).
    destruct (H2 _ _ Hv Hs) as (i & _ & Hp & Hd).
    apply full_path_inj in Hp as ->. eauto.
  - intros Hl.
    apply (download_loop_completes download cases
             (PrepState (disk s) 0 (count_minified s) 0)) in Hl.
    destruct (for_each cases _ _).1 as [[]|]; [reflexivity|discriminate].
  - intros Hok. rewrite Hok in H5. destruct H5 as (H5 & H6).
    split; [lia|]. intros idx Hi. now apply isfile_true, H6.
Qed.


(** X19.  The note at line 177, for an interruption between two
    iterations: when the conversion loop (lines 178-190) has run over a
    first part [l1] of the list and is started again over the whole list,
    it ends as the uninterrupted run over the whole list ends, with the
    same files.  It converts no case of [l1] again: its [count_minified] is
    that of the uninterrupted run less the conversions already made, and
    these are counted as present. *)
Theorem X19_minify_restart {vital : Type} (tracks : vital -> vital)
    (l1 l2 : list Z) (s : prep_state vital) :
  (minify_all tracks l1 s).1 = Ok tt ->
  let s1 := (minify_all tracks l1 s).2 in
  let whole := minify_all tracks (l1 ++ l2) s in
  let again := minify_all tracks (l1 ++ l2) s1 in
  again.1 = whole.1 /\ disk again.2 = disk whole.2 /\
  (count_minified again.2 + count_minified s1 = count_minified whole.2)%nat /\
  (count_present again.2 = count_present whole.2 + count_minified s1)%nat.
Proof.
  intros Hok. cbv zeta. unfold minify_all in *.
  set (s0 := PrepState (disk s) (count_downloaded s) 0 0) in *.
  pose proof (minify_loop_spec tracks l1 s0) as H.
  cbv zeta in H. rewrite Hok in H.
  destruct H as (_ & _ & _ & _ & _ & Hc & Hm).
  destruct (for_each l1 (minify_body tracks) s0) as [r s1] eqn:H1.
  simpl in Hok, Hc, Hm |- *. subst r.
  rewrite !for_each_app, H1.
  rewrite minify_loop_present by (simpl; exact Hm). simpl.
  pose proof (minify_loop_same_disk tracks l2
                (PrepState (disk s1) (count_downloaded s1) 0 (0 + length l1))
                s1 eq_refl) as H.
  cbv zeta in H. simpl in H. simpl in Hc. intuition lia.
Qed.

Lemma X19_minify_restart_witness :
  (minify_all Z.succ [1] two_full_files).1 = Ok tt /\
  (minify_all Z.succ ([1] ++ [2])
     (minify_all Z.succ [1] two_full_files).2).1
  = (minify_all Z.succ ([1] ++ [2]) two_full_files).1 /\
  disk (minify_all Z.succ ([1] ++ [2])
          (minify_all Z.succ [1] two_full_files).2).2
  = disk (minify_all Z.succ ([1] ++ [2]) two_full_files).2 /\
  Nat.add
    (count_minified (minify_all Z.succ ([1] ++ [2])
                       (minify_all Z.succ [1] two_full_files).2).2)
    (count_minified (minify_all Z.succ [1] two_full_files).2)
  = count_minified (minify_all Z.succ ([1] ++ [2]) two_full_files).2 /\
  count_present (minify_all Z.succ ([1] ++ [2])
                   (minify_all Z.succ [1] two_full_files).2).2
  = Nat.add
      (count_present (minify_all Z.succ ([1] ++ [2]) two_full_files).2)
      (count_minified (minify_all Z.succ [1] two_full_files).2).
Proof.
  split; [vm_compute; reflexivity|].
  apply (X19_minify_restart Z.succ [1] [2] two_full_files).
  vm_compute. reflexivity.
Defined.

(** X20.  After a download loop that completed, the conversion loop over
    the same list completes: it never opens a full file that is missing.
    Every case of the list then has both files, no full file has changed, a
    small file that was there before the two loops is kept as it was (it is
    not made again from the full file), and every other small file holds
    the three tracks of the full file of its case. *)
Theorem X20_minify_after_download {vital : Type}
    (download : Z -> option vital) (tracks : vital -> vital)
    (cases : list Z) (s : prep_state vital) :
  (download_all download cases s).1 = Ok tt ->
  let s1 := (download_all download cases s).2 in
  let out := minify_all tracks cases s1 in
  out.1 = Ok tt /\
  (forall idx, idx ∈ cases ->
     isfile (disk out.2) (full_path idx) = true /\
     isfile (disk out.2) (mini_path idx) = true) /\
  (forall idx, disk out.2 !! full_path idx = disk s1 !! full_path idx) /\
  (forall idx m, disk s !! mini_path idx = Some m ->
     disk out.2 !! mini_path idx = Some m) /\
  (forall idx m, disk out.2 !! mini_path idx = Some m ->
     disk s !! mini_path idx = None ->
     exists v, disk s1 !! full_path idx = Some v /\ m = tracks v) /\
  (count_minified out.2 + count_present out.2 = length cases)%nat.
Proof.
  intros Hok. cbv zeta.
  unfold download_all in *.
  pose proof (download_loop_spec download cases
                (PrepState (disk s) 0 (count_minified s) 0)) as H.
  cbv zeta in H. rewrite Hok in H. simpl in H.
  destruct H as (D1 & D2 & _ & _ & _ & D5).
  destruct (for_each cases (download_body download) _) as [r s1] eqn:H1.
  simpl in Hok, D1, D2, D5 |- *. clear H1 Hok r.
  unfold minify_all.
  set (s0 := PrepState (disk s1) (count_downloaded s1) 0 0).
  pose proof (minify_loop_spec tracks cases s0) as H. cbv zeta in H.
  assert (Hok : (for_each cases (minify_body tracks) s0).1 = Ok tt).
  { apply minify_loop_completes. intros idx Hi. right. simpl. auto. }
  rewrite Hok in H. simpl in H.
  destruct H as (M1 & M2 & M3 & _ & _ & M5 & M6).
  split; [exact Hok|]. split; [|split; [exact M2|split; [|split]]].
  - intros idx Hi. rewrite !isfile_true, M2. auto.
  - intros idx m Hm. apply M1, D1, Hm.
  - intros idx m Hm Hs.
    assert (Hs1 : disk s1 !! mini_path idx = None).
    { destruct (disk s1 !! mini_path idx) as [v|] eqn:Hv; [|reflexivity].
      destruct (D2 _ _ Hv Hs) as (i & _ & Hp & _).
      symmetry in Hp. now apply full_path_not_mini in Hp. }
    destruct (M3 _ _ Hm Hs1) as (i & v & _ & Hp & Hv & ->).
    apply mini_path_inj in Hp as ->. eauto.
  - lia.
Qed.

Lemma X20_minify_after_download_witness :
  (download_all download_upto_5 [1; 3; 1] two_full_files).1 = Ok tt /\
  (minify_all Z.succ [1; 3; 1]
     (download_all download_upto_5 [1; 3; 1] two_full_files).2).1 = Ok tt /\
  Nat.add
    (count_minified
       (minify_all Z.succ [1; 3; 1]
          (download_all download_upto_5 [1; 3; 1] two_full_files).2).2)
    (count_present
       (minify_all Z.succ [1; 3; 1]
          (download_all download_upto_5 [1; 3; 1] two_full_files).2).2)
  = length [1; 3; 1].
Proof.
  split; [vm_compute; reflexivity|].
  pose proof (X20_minify_after_download download_upto_5 Z.succ [1; 3; 1]
                two_full_files) as H.
  cbv zeta in H. destruct H as (H1 & _ & _ & _ & _ & H2).
  - vm_compute. reflexivity.
  - split; [exact H1|exact H2].
Defined.

(** ** Metadata tables *)

(** X21.  [vitaldb_dataframe_loader] (lines 76-88).  A name other than
    cases, labs and trks raises [ValueError] and changes nothing.  When the
    table is there as a local file, no request is made and nothing changes;
    a call makes at most one request, for the table asked for, overwrites
    no file and touches no file but that of the table.  After a call that
    returned, the file is there (holding [to_csv] of the table returned, if
    it was not there before), and a second call makes no request and
    changes nothing: it returns what [read_csv] reads from the file, which
    need not be the table the first call returned. *)
Theorem X21_dataframe_loader {frame text : Type}
    (read_csv : text -> option frame) (to_csv : frame -> text)
    (read_api : string -> option frame) (dataset_name : string)
    (s : meta_state text) :
  let load := vitaldb_dataframe_loader read_csv to_csv read_api in
  let out := load dataset_name s in
  let file_path := metadata_path dataset_name in
  (dataset_name ∉ ["cases"; "labs"; "trks"] ->
   out = (Raise (ValueError dataset_name), s)) /\
  (is_Some (meta_files s !! file_path) -> out.2 = s) /\
  (requests out.2 = requests s \/
   requests out.2 = requests s ++ [dataset_name]) /\
  (forall p t, meta_files s !! p = Some t -> meta_files out.2 !! p = Some t) /\
  (forall p, p <> file_path -> meta_files out.2 !! p = meta_files s !! p) /\
  (forall df, out.1 = Ok df ->
     exists t, meta_files out.2 !! file_path = Some t /\
               (meta_files s !! file_path = None -> t = to_csv df) /\
               load dataset_name out.2
               = (match read_csv t with
                  | Some df' => Ok df'
                  | None => Raise (ParseFailed file_path)
                  end, out.2)).
Proof.
  cbv zeta. unfold vitaldb_dataframe_loader.
  destruct (existsb (String.eqb dataset_name) ["cases"; "labs"; "trks"])
    eqn:Hv; cbn [negb].
  - split.
    { intros Hn. exfalso. apply Hn.
      apply existsb_exists in Hv as (x & Hx & ->%String.eqb_eq).
      now apply list_elem_of_In. }
    destruct (meta_files s !! metadata_path dataset_name) as [t|] eqn:Hf.
    + destruct (read_csv t) as [df|] eqn:Hr; cbn [fst snd].
      * repeat split; auto. intros df' [= <-]. exists t.
        rewrite Hf, Hr. split; [reflexivity|split; [discriminate|reflexivity]].
      * repeat split; auto. discriminate.
    + destruct (read_api dataset_name) as [df|] eqn:Ha; cbn [fst snd].
      * split; [intros [? ?]; discriminate|]. split; [auto|].
        split; [|split].
        -- intros p t Hp. cbn [meta_files].
           rewrite lookup_insert_ne; [exact Hp|congruence].
        -- intros p Hp. cbn [meta_files]. now rewrite lookup_insert_ne.
        -- intros df' [= <-]. exists (to_csv df). cbn [meta_files].
           rewrite lookup_insert_eq.
           split; [reflexivity|split; [reflexivity|]].
           destruct (read_csv (to_csv df)); reflexivity.
      * split; [intros [? ?]; discriminate|]. repeat split; auto.
        discriminate.
  - split; [reflexivity|]. cbn [fst snd]. repeat split; auto. discriminate.
Qed.


(** ** Track data *)

Ltac gt_unfold :=
  unfold TRACK_NAMES, TRACK_SRATES;
  cbn [zip_with for_fold]; unfold get_track_body;
  cbn [fst snd];
  change (String.eqb "SNUADC/ART" ABP_TRACK_NAME) with true;
  change (String.eqb "SNUADC/ECG_II" ABP_TRACK_NAME) with false;
  change (String.eqb "SNUADC/ECG_II" ECG_TRACK_NAME) with true;
  change (String.eqb "BIS/EEG1_WAV" ABP_TRACK_NAME) with false;
  change (String.eqb "BIS/EEG1_WAV" ECG_TRACK_NAME) with false;
  change (String.eqb "BIS/EEG1_WAV" EEG_TRACK_NAME) with true;
  change (String.eqb "SNUADC/ART" "SNUADC/ART") with true;
  change (String.eqb "SNUADC/ECG_II" "SNUADC/ART") with false;
  change (String.eqb "SNUADC/ECG_II" "SNUADC/ECG_II") with true;
  change (String.eqb "BIS/EEG1_WAV" "SNUADC/ART") with false;
  change (String.eqb "BIS/EEG1_WAV" "SNUADC/ECG_II") with false;
  change (String.eqb "BIS/EEG1_WAV" "BIS/EEG1_WAV") with true;
  cbv iota; unfold parse_once, cache_store, bind, ret;
  cbn [gt_parsedFile gt_abp gt_ecg gt_eeg TRACK_CACHE opened fst snd].

Ltac gt_step :=
  cbn [gt_parsedFile gt_abp gt_ecg gt_eeg TRACK_CACHE opened fst snd];
  rewrite ?lookup_insert_ne
    by (let H := fresh in intros H; apply cache_label_name_inj in H;
        discriminate H).

Section TrackFacts.

Context {vital array : Type}.
Variable tracks : vital -> vital.
Variable samples : vital -> string -> Q -> array.
Variable bandpass : array -> Q -> Q -> Z -> Z -> array.
Variable zscore : array -> array.
Variable flag : bool.
Variable files : gmap string vital.

(** The call in one piece: the cached tracks when all three are cached;
    otherwise the file is opened, once, and each track comes from the cache
    if it is there and from the file if not. *)
Lemma get_track_data_cases case (s : track_state array) :
  let c := TRACK_CACHE s in
  let la := cache_label case ABP_TRACK_NAME in
  let le := cache_label case ECG_TRACK_NAME in
  let lg := cache_label case EEG_TRACK_NAME in
  get_track_data tracks samples bandpass zscore flag files case s
  = match c !! la, c !! le, c !! lg with
    | Some a, Some e, Some g => (Ok (Some a, Some e, Some g), s)
    | _, _, _ =>
        match files !! mini_path case with
        | None => (Raise (OpenFailed (mini_path case)), s)
        | Some v =>
            let vf := tracks v in
            let a := default (samples vf ABP_TRACK_NAME (1 / inject_Z 500))
                       (c !! la) in
            let e := default
                       (zscore (bandpass
                                  (samples vf ECG_TRACK_NAME (1 / inject_Z 500))
                                  1 40 500 2))
                       (c !! le) in
            let g := default
                       (bandpass (samples vf EEG_TRACK_NAME (1 / inject_Z 128))
                          (1 # 2) 50 128 2)
                       (c !! lg) in
            (Ok (Some a, Some e, Some g),
             TrackState
               (if flag then <[lg := g]> (<[le := e]> (<[la := a]> c)) else c)
               (opened s ++ [mini_path case]))
        end
    end.
Proof.
  cbv zeta. destruct s as [cache log]. unfold get_track_data.
  unfold ABP_TRACK_NAME, ECG_TRACK_NAME, EEG_TRACK_NAME.
  gt_unfold.
  destruct (cache !! cache_label case "SNUADC/ART") eqn:Ha;
  destruct (files !! mini_path case) eqn:Hf;
  destruct flag;
  repeat progress gt_step;
  destruct (cache !! cache_label case "SNUADC/ECG_II") eqn:He;
  repeat progress gt_step;
  destruct (cache !! cache_label case "BIS/EEG1_WAV") eqn:Hg;
  repeat progress gt_step;
  rewrite ?Hf; cbn [default]; try reflexivity.
  all: do 2 f_equal.
  all: repeat match goal with
       | H : _ !! ?l = Some ?x |- context [<[?l := ?x]> ?m] =>
           rewrite (insert_id m l x)
             by (rewrite ?lookup_insert_ne
                   by (let H' := fresh in
                       intros H'; apply cache_label_name_inj in H';
                       discriminate H');
                 exact H)
       end.
  all: try reflexivity.
Qed.

End TrackFacts.

Lemma insert_default_keeps {A : Type} (c m : gmap string A) l x p a :
  c !! p = Some a -> m !! p = Some a ->
  <[l := default x (c !! l)]> m !! p = Some a.
Proof.
  intros Hc Hm. destruct (decide (p = l)) as [->|Hne].
  - rewrite Hc. simpl. apply lookup_insert_eq.
  - rewrite lookup_insert_ne by congruence. exact Hm.
Qed.

Lemma elem_of_TRACK_NAMES name :
  name ∈ TRACK_NAMES <->
  name = ABP_TRACK_NAME \/ name = ECG_TRACK_NAME \/ name = EEG_TRACK_NAME.
Proof.
  unfold TRACK_NAMES. rewrite !elem_of_cons, elem_of_nil.
  unfold ABP_TRACK_NAME, ECG_TRACK_NAME, EEG_TRACK_NAME. tauto.
Qed.

Lemma all_cached_iff {A : Type} (c : gmap string A) case :
  (forall name, name ∈ TRACK_NAMES -> is_Some (c !! cache_label case name))
  <-> is_Some (c !! cache_label case ABP_TRACK_NAME) /\
      is_Some (c !! cache_label case ECG_TRACK_NAME) /\
      is_Some (c !! cache_label case EEG_TRACK_NAME).
Proof.
  split.
  - intros H. repeat split; apply H, elem_of_TRACK_NAMES; auto.
  - intros (Ha & He & Hg) name [->| [->| ->]]%elem_of_TRACK_NAMES; auto.
Qed.

(** What the cache holds after a call that filled it. *)
Lemma cache_fill_spec {A : Type} (flag : bool) (c : gmap string A) case x y z :
  let la := cache_label case ABP_TRACK_NAME in
  let le := cache_label case ECG_TRACK_NAME in
  let lg := cache_label case EEG_TRACK_NAME in
  let m := if flag
           then <[lg := default z (c !! lg)]>
                  (<[le := default y (c !! le)]>
                     (<[la := default x (c !! la)]> c))
           else c in
  (forall p a, c !! p = Some a -> m !! p = Some a) /\
  (forall p, c !! p = None -> is_Some (m !! p) ->
     flag = true /\
     exists name, name ∈ TRACK_NAMES /\ p = cache_label case name).
Proof.
  cbv zeta. split.
  - intros p a Hp. destruct flag; [|exact Hp].
    repeat apply insert_default_keeps; assumption.
  - intros p Hp [w Hw]. destruct flag; [|congruence].
    split; [reflexivity|].
    destruct (decide (p = cache_label case EEG_TRACK_NAME)) as [->|Hg];
      [exists EEG_TRACK_NAME; rewrite elem_of_TRACK_NAMES; auto|].
    rewrite lookup_insert_ne in Hw by congruence.
    destruct (decide (p = cache_label case ECG_TRACK_NAME)) as [->|He];
      [exists ECG_TRACK_NAME; rewrite elem_of_TRACK_NAMES; auto|].
    rewrite lookup_insert_ne in Hw by congruence.
    destruct (decide (p = cache_label case ABP_TRACK_NAME)) as [->|Ha];
      [exists ABP_TRACK_NAME; rewrite elem_of_TRACK_NAMES; auto|].
    rewrite lookup_insert_ne in Hw by congruence. congruence.
Qed.


(** X22.  [get_track_data] (lines 225-268), whatever the cache holds and
    whatever [USE_MEMORY_CACHING] is.  A call that returns gives three
    tracks, none of them [None]; when the three tracks of the case are
    cached it opens no file and changes nothing, and otherwise it opens the
    small file of the case, once.  A call raises only when a track is not
    cached and the file is missing, and then nothing has changed.  No cache
    entry is overwritten, and an entry is added only with caching on and
    only under a key of the case. *)
Theorem X22_get_track_data_opens_one_file {vital array : Type}
    (tracks : vital -> vital) (samples : vital -> string -> Q -> array)
    (bandpass : array -> Q -> Q -> Z -> Z -> array) (zscore : array -> array)
    (flag : bool) (files : gmap string vital) (case : Z)
    (s : track_state array) :
  let out := get_track_data tracks samples bandpass zscore flag files case s in
  let cached := forall name, name ∈ TRACK_NAMES ->
                  is_Some (TRACK_CACHE s !! cache_label case name) in
  match out.1 with
  | Ok (abp, ecg, eeg) =>
      is_Some abp /\ is_Some ecg /\ is_Some eeg /\
      (cached /\ out.2 = s \/
       ~ cached /\ is_Some (files !! mini_path case) /\
       opened out.2 = opened s ++ [mini_path case])
  | Raise e =>
      e = OpenFailed (mini_path case) /\ out.2 = s /\ ~ cached /\
      files !! mini_path case = None
  end /\
  (forall p a, TRACK_CACHE s !! p = Some a -> TRACK_CACHE out.2 !! p = Some a) /\
  (forall p, TRACK_CACHE s !! p = None -> is_Some (TRACK_CACHE out.2 !! p) ->
     flag = true /\ exists name, name ∈ TRACK_NAMES /\ p = cache_label case name).
Proof.
  cbv zeta. rewrite get_track_data_cases. cbv zeta.
  pose proof (all_cached_iff (TRACK_CACHE s) case) as Hiff.
  set (cached := forall name, name ∈ TRACK_NAMES ->
                   is_Some (TRACK_CACHE s !! cache_label case name)) in *.
  assert (Hmiss : TRACK_CACHE s !! cache_label case ABP_TRACK_NAME = None \/
                  TRACK_CACHE s !! cache_label case ECG_TRACK_NAME = None \/
                  TRACK_CACHE s !! cache_label case EEG_TRACK_NAME = None ->
                  ~ cached).
  { intros H Hc. apply Hiff in Hc as (Ha & He & Hg).
    destruct H as [H|[H|H]]; rewrite H in *;
      match goal with H : is_Some None |- _ => destruct H; discriminate end. }
  assert (Hsame : (forall p a, TRACK_CACHE s !! p = Some a ->
                               TRACK_CACHE s !! p = Some a)
                  /\ (forall p, TRACK_CACHE s !! p = None ->
                        is_Some (TRACK_CACHE s !! p) ->
                        flag = true /\
                        exists name, name ∈ TRACK_NAMES /\
                                     p = cache_label case name)).
  { split; [auto|]. intros p Hp [x Hx]. congruence. }
  destruct (files !! mini_path case) as [v|] eqn:Hf.
  all:
  destruct (TRACK_CACHE s !! cache_label case ABP_TRACK_NAME) as [a|] eqn:Ha;
    [destruct (TRACK_CACHE s !! cache_label case ECG_TRACK_NAME)
       as [e|] eqn:He;
     [destruct (TRACK_CACHE s !! cache_label case EEG_TRACK_NAME)
        as [g|] eqn:Hg|]|].
  all: cbn [fst snd].
  all: try (split; [|exact Hsame]; repeat split; eauto;
            left; split; [|reflexivity]; apply Hiff; eauto; fail).
  all: try (split; [|exact Hsame]; repeat split; auto; fail).
  all: (split;
        [|cbn [TRACK_CACHE];
          epose proof (cache_fill_spec flag (TRACK_CACHE s) case _ _ _)
            as Hfill;
          cbv zeta in Hfill; rewrite ?Ha, ?He, ?Hg in Hfill; exact Hfill]).
  all: split; [eauto|split; [eauto|split; [eauto|right]]].
  all: split; [apply Hmiss; auto|split; [eauto|reflexivity]].
Qed.


(** X23.  With [USE_MEMORY_CACHING] on, after a call that returned, the
    next call for the case returns the same three tracks from the cache
    whatever the files are then (the file may be gone or may have changed),
    opens no file and changes nothing; the cache entries of every other
    case are as they were before the first call. *)
Theorem X23_memory_cache_serves_next_call {vital array : Type}
    (tracks : vital -> vital) (samples : vital -> string -> Q -> array)
    (bandpass : array -> Q -> Q -> Z -> Z -> array) (zscore : array -> array)
    (files files' : gmap string vital) (case : Z) (s : track_state array)
    (t : option array * option array * option array) :
  (get_track_data tracks samples bandpass zscore true files case s).1 = Ok t ->
  let s1 := (get_track_data tracks samples bandpass zscore true files case s).2
  in
  get_track_data tracks samples bandpass zscore true files' case s1
  = (Ok t, s1) /\
  (forall case' name, case' <> case ->
     TRACK_CACHE s1 !! cache_label case' name
     = TRACK_CACHE s !! cache_label case' name).
Proof.
  cbv zeta. rewrite get_track_data_cases. cbv zeta. intros Hok.
  assert (Hne : forall n1 n2, n1 <> n2 ->
                  cache_label case n1 <> cache_label case n2).
  { intros n1 n2 Hn H. now apply cache_label_name_inj in H. }
  assert (Hother : forall case' name n, case' <> case ->
                     cache_label case n <> cache_label case' name).
  { intros case' name n Hc H. apply cache_label_case_inj in H. congruence. }
  destruct (TRACK_CACHE s !! cache_label case ABP_TRACK_NAME) as [a|] eqn:Ha;
    [destruct (TRACK_CACHE s !! cache_label case ECG_TRACK_NAME)
       as [e|] eqn:He;
     [destruct (TRACK_CACHE s !! cache_label case EEG_TRACK_NAME)
        as [g|] eqn:Hg|]|].
  1: { cbn [fst snd] in *. injection Hok as <-. split; [|reflexivity].
       rewrite get_track_data_cases. cbv zeta. now rewrite Ha, He, Hg. }
  all: destruct (files !! mini_path case) as [v|] eqn:Hf;
    cbn [fst snd] in *; [|discriminate].
  all: injection Hok as <-.
  all: split;
    [|intros case' name Hc; cbn [TRACK_CACHE];
      rewrite !lookup_insert_ne by (apply Hother; exact Hc); reflexivity].
  all: rewrite get_track_data_cases; cbv zeta; cbn [TRACK_CACHE].
  all: rewrite lookup_insert_ne by (apply Hne; discriminate).
  all: rewrite lookup_insert_ne by (apply Hne; discriminate).
  all: rewrite lookup_insert_eq.
  all: rewrite (lookup_insert_ne _ (cache_label case EEG_TRACK_NAME)
                  (cache_label case ECG_TRACK_NAME))
         by (apply Hne; discriminate).
  all: rewrite !lookup_insert_eq.
  all: reflexivity.
Qed.

Lemma X23_memory_cache_serves_next_call_witness :
  (get_track_data Z.succ (fun v _ _ => v) (fun a _ _ _ _ => a + 1) Z.opp true
     one_mini_file 1 (TrackState ∅ [])).1
  = Ok (Some 8, Some (-9), Some 9) /\
  (get_track_data Z.succ (fun v _ _ => v) (fun a _ _ _ _ => a + 1) Z.opp true
     ∅ 1
     (get_track_data Z.succ (fun v _ _ => v) (fun a _ _ _ _ => a + 1) Z.opp
        true one_mini_file 1 (TrackState ∅ [])).2).1
  = Ok (Some 8, Some (-9), Some 9).
Proof.
  split; [vm_compute; reflexivity|].
  pose proof (X23_memory_cache_serves_next_call Z.succ (fun v _ _ => v)
                (fun a _ _ _ _ => a + 1) Z.opp one_mini_file ∅ 1
                (TrackState ∅ []) (Some 8, Some (-9), Some 9)) as H.
  cbv zeta in H. destruct H as [H _]; [vm_compute; reflexivity|].
  rewrite H. reflexivity.
Defined.


(** X24.  With [USE_MEMORY_CACHING] off, as the module sets it, no call
    changes the cache.  From the empty cache the module starts with (lines
    219-223), every call therefore opens the small file of the case and
    raises if it is missing; it returns the arterial track as sampled at
    1/500 s, the ECG track band-pass filtered between 1 and 40 (order 2,
    rate 500) and then z-scored, and the EEG track sampled at 1/128 s and
    band-pass filtered between 0.5 and 50 (order 2, rate 128). *)
Theorem X24_without_memory_cache {vital array : Type}
    (tracks : vital -> vital) (samples : vital -> string -> Q -> array)
    (bandpass : array -> Q -> Q -> Z -> Z -> array) (zscore : array -> array)
    (files : gmap string vital) (case : Z) (s : track_state array) :
  let out := get_track_data tracks samples bandpass zscore false files case s
  in
  TRACK_CACHE out.2 = TRACK_CACHE s /\
  (TRACK_CACHE s = ∅ ->
   out = match files !! mini_path case with
         | Some v =>
             let vf := tracks v in
             (Ok (Some (samples vf "SNUADC/ART" (1 / inject_Z 500)%Q),
                  Some (zscore (bandpass
                                  (samples vf "SNUADC/ECG_II"
                                     (1 / inject_Z 500)%Q) 1%Q 40%Q 500 2)),
                  Some (bandpass (samples vf "BIS/EEG1_WAV"
                                    (1 / inject_Z 128)%Q) (1 # 2)%Q 50%Q 128 2)),
              TrackState ∅ (opened s ++ [mini_path case]))
         | None => (Raise (OpenFailed (mini_path case)), s)
         end).
Proof.
  cbv zeta. rewrite get_track_data_cases. cbv zeta. split.
  - destruct (TRACK_CACHE s !! cache_label case ABP_TRACK_NAME),
      (TRACK_CACHE s !! cache_label case ECG_TRACK_NAME),
      (TRACK_CACHE s !! cache_label case EEG_TRACK_NAME),
      (files !! mini_path case); reflexivity.
  - intros He. rewrite He, !lookup_empty.
    destruct (files !! mini_path case); reflexivity.
Qed.

